(** * fix-unused-manual: a shallow embedding of [scripts/fix-unused-manual.py]

    The script reads an ESLint report, and for every file of the report
    prefixes the unused variables named by the diagnostics with an
    underscore, line by line, then writes the file back.

    Conventions of the embedding.
    - A Python [str] is a [text], a list of characters; a character is an
      [ascii], read as a code point in the range 0..255.
    - The decoded report is a Python value, a [json]. The statements of the
      script are given on any such value ([run_error], [run_file], [main]),
      with the exceptions that Python raises where a value has another type
      than the script expects, and again on the records of a report of the
      expected shape ([process_error], [process_file], [process_report]);
      the lemmas [run_error_shaped], [run_file_shaped] and [main_shaped]
      relate the two.
    - The module-level variables of the script ([lines], [total_fixed], the
      console) and the files on disk form one [state]; a statement is a
      function from states to an [outcome] and a state, so that what an
      uncaught exception leaves behind is visible. A path leads to a file
      through [resolve], so that two spellings of a path are one file.
    - [re] is modelled by a backtracking matcher on the fragment of regular
      expressions the script uses. *)

From Stdlib Require Import ZArith List Ascii Bool Lia SpecFloat.
From Stdlib Require Strings.String.
From stdpp Require Import base option list gmap strings sorting.

Local Open Scope Z_scope.

(** ** Text *)

Abbreviation text := (list ascii).

Definition txt (s : string) : text := Stdlib.Strings.String.list_ascii_of_string s.

(** [str.startswith] *)
Fixpoint starts_with (p s : text) : bool :=
  match p, s with
  | [], _ => true
  | a :: p', b :: s' => Ascii.eqb a b && starts_with p' s'
  | _ :: _, [] => false
  end.

(** [p in s] on strings: some suffix of [s] starts with [p]. *)
Fixpoint contains (p s : text) : bool :=
  starts_with p s ||
  match s with
  | [] => false
  | _ :: s' => contains p s'
  end.

(** ** Character classes of [re] on [str] patterns (code points 0..255) *)

Definition code (c : ascii) : N := N_of_ascii c.

Definition in_range (lo hi : N) (c : ascii) : bool :=
  (N.leb lo (code c) && N.leb (code c) hi)%N.

(** [\w]: alphanumeric characters and the underscore. *)
Definition is_word (c : ascii) : bool :=
  in_range 48 57 c || in_range 65 90 c || N.eqb (code c) 95 || in_range 97 122 c
  || N.eqb (code c) 170 || in_range 178 179 c || N.eqb (code c) 181
  || in_range 185 186 c || in_range 188 190 c
  || in_range 192 214 c || in_range 216 246 c || in_range 248 255 c.

(** [\s], also what [str.strip] removes. *)
Definition is_space (c : ascii) : bool :=
  in_range 9 13 c || in_range 28 32 c || N.eqb (code c) 133 || N.eqb (code c) 160.

Definition not_char (x : ascii) (c : ascii) : bool := negb (Ascii.eqb x c).

(** [str.strip()] *)
Fixpoint lstrip (s : text) : text :=
  match s with
  | c :: s' => if is_space c then lstrip s' else s
  | [] => []
  end.

Definition strip (s : text) : text := rev (lstrip (rev (lstrip s))).

(** ** Regular expressions *)

Module Re.

(** The fragment used by the script: literals (also what [re.escape] of a
    string denotes), one character of a class, greedy repetition of a class,
    [\b], sequence, alternation, greedy option, capturing group. *)
Inductive regex : Type :=
| Lit (s : text)
| Cls (p : ascii -> bool)
| Star (p : ascii -> bool)
| WordB
| Seq (r1 r2 : regex)
| Alt (r1 r2 : regex)
| Opt (r : regex)
| Grp (r : regex).

Definition Plus (p : ascii -> bool) : regex := Seq (Cls p) (Star p).

(** A position in the subject: the character before it and what follows. *)
Definition cursor : Type := option ascii * text.

Definition word_at (o : option ascii) : bool :=
  match o with
  | Some c => is_word c
  | None => false
  end.

Definition at_boundary (cur : cursor) : bool :=
  xorb (word_at (fst cur)) (word_at (head (snd cur))).

(** Consume the literal [p] at the cursor. *)
Fixpoint eat (p : text) (prev : option ascii) (s : text) : option cursor :=
  match p with
  | [] => Some (prev, s)
  | a :: p' =>
      match s with
      | b :: s' => if Ascii.eqb a b then eat p' (Some b) s' else None
      | [] => None
      end
  end.

Section Matcher.
Context {R : Type}.

(** A continuation receives the cursor after the match so far and the
    groups captured so far; [None] makes the matcher backtrack. *)
Definition cont : Type := cursor -> list text -> option R.

(** Greedy [p*]: the longest run first, then shorter ones. *)
Fixpoint star (p : ascii -> bool) (k : cont) (prev : option ascii) (s : text)
    (gs : list text) : option R :=
  match s with
  | c :: s' =>
      if p c then
        match star p k (Some c) s' gs with
        | Some r => Some r
        | None => k (prev, s) gs
        end
      else k (prev, s) gs
  | [] => k (prev, s) gs
  end.

Fixpoint rmatch (r : regex) (k : cont) (cur : cursor) (gs : list text) : option R :=
  match r with
  | Lit p =>
      match eat p (fst cur) (snd cur) with
      | Some cur' => k cur' gs
      | None => None
      end
  | Cls p =>
      match snd cur with
      | c :: s' => if p c then k (Some c, s') gs else None
      | [] => None
      end
  | Star p => star p k (fst cur) (snd cur) gs
  | WordB => if at_boundary cur then k cur gs else None
  | Seq r1 r2 => rmatch r1 (rmatch r2 k) cur gs
  | Alt r1 r2 =>
      match rmatch r1 k cur gs with
      | Some x => Some x
      | None => rmatch r2 k cur gs
      end
  | Opt r1 =>
      match rmatch r1 k cur gs with
      | Some x => Some x
      | None => k cur gs
      end
  | Grp r1 =>
      rmatch r1
        (fun cur' gs' =>
           k cur' (gs' ++ [take (length (snd cur) - length (snd cur')) (snd cur)]))
        cur gs
  end.
End Matcher.

(** A match starting at the cursor: the number of characters matched and the
    captured groups. *)
Definition match_at (r : regex) (cur : cursor) : option (nat * list text) :=
  rmatch r (fun cur' gs => Some ((length (snd cur) - length (snd cur'))%nat, gs)) cur [].

(** [re.search]: the leftmost match; the groups of the match. *)
Fixpoint search_from (r : regex) (prev : option ascii) (s : text) : option (list text) :=
  match match_at r (prev, s) with
  | Some (_, gs) => Some gs
  | None =>
      match s with
      | c :: s' => search_from r (Some c) s'
      | [] => None
      end
  end.

Definition search (r : regex) (s : text) : option (list text) := search_from r None s.

(** The scan of [re.sub]: leftmost non-overlapping matches, each replaced by
    the expansion of the template on the matched text. [skip] counts the
    characters of the current match still to be passed over. An empty match
    is passed over like no match: the patterns of the script never match the
    empty string (lemmas [word_re_nonempty] and [catch_re_nonempty]). *)
Fixpoint sub_scan (r : regex) (expand : text -> text) (prev : option ascii)
    (s : text) (skip : nat) : text :=
  match s with
  | [] => []
  | c :: s' =>
      match skip with
      | S n => sub_scan r expand (Some c) s' n
      | O =>
          match match_at r (prev, s) with
          | Some (S n, _) => expand (take (S n) s) ++ sub_scan r expand (Some c) s' n
          | _ => c :: sub_scan r expand (Some c) s' O
          end
      end
  end.

End Re.

Import Re.

(** ** The patterns of the script *)

(** [r"'([^']+)' is (defined but never used|assigned a value but never used)"] *)
Definition unused_re : regex :=
  Seq (Lit (txt "'"))
   (Seq (Grp (Plus (not_char "'")))
    (Seq (Lit (txt "' is "))
         (Grp (Alt (Lit (txt "defined but never used"))
                   (Lit (txt "assigned a value but never used")))))).

(** [rf'\bcatch\s*\(\s*{re.escape(var_name)}\s*\)'] *)
Definition catch_re (var_name : text) : regex :=
  Seq WordB
   (Seq (Lit (txt "catch"))
    (Seq (Star is_space)
     (Seq (Lit (txt "("))
      (Seq (Star is_space)
       (Seq (Lit var_name)
        (Seq (Star is_space) (Lit (txt ")")))))))).

(** [rf'\b{re.escape(var_name)}\b'] *)
Definition word_re (var_name : text) : regex :=
  Seq WordB (Seq (Lit var_name) WordB).

(** [r'\b(async\s+)?function\s+\w+\s*\('] *)
Definition function_re : regex :=
  Seq WordB
   (Seq (Opt (Grp (Seq (Lit (txt "async")) (Plus is_space))))
    (Seq (Lit (txt "function"))
     (Seq (Plus is_space)
      (Seq (Plus is_word)
       (Seq (Star is_space) (Lit (txt "("))))))).

(** [r'\b(const|let|var)\b'] *)
Definition decl_re : regex :=
  Seq WordB
   (Seq (Grp (Alt (Lit (txt "const")) (Alt (Lit (txt "let")) (Lit (txt "var")))))
        WordB).

(** [match.group(1)] of [re.search(unused_re, message)] *)
Definition extract_name (message : text) : option text :=
  match search unused_re message with
  | Some (g1 :: _) => Some g1
  | _ => None
  end.


(** ** Python values *)

(** What [json.load] returns: [None], a [bool], an [int], a [float], a
    [str], a [list], or a [dict] with [str] keys (distinct, in the order of
    insertion). *)
#[warnings="-register-all"]
Inductive json : Type :=
| JNull
| JBool (b : bool)
| JInt (n : Z)
| JFloat (x : spec_float)
| JStr (s : text)
| JArr (l : list json)
| JObj (d : list (text * json)).

Definition text_eqb (a b : text) : bool := bool_decide (a = b).

(** The value a [dict] holds under a key. *)
Fixpoint assoc (key : text) (d : list (text * json)) : option json :=
  match d with
  | [] => None
  | (k, v) :: d' => if text_eqb k key then Some v else assoc key d'
  end.

(** An [int]; a [bool] is an [int] in Python, [True] is 1. *)
Definition as_int (v : json) : option Z :=
  match v with
  | JInt n => Some n
  | JBool b => Some (if b then 1 else 0)
  | _ => None
  end.

(** What [v - 1] is used for: an [int], or a [float], whose value plays no
    role since no list takes it as an index. *)
Inductive number : Type :=
| NInt (n : Z)
| NFloat.

(** ** The report of the expected shape *)

(** One entry of [messages]: [error['line']], an [int], and
    [error['message']], a [str]. *)
Record diagnostic : Type := Diagnostic { line : Z; message : text }.

(** One entry of the report: [file_data['filePath']], a [str] that can be a
    path (no NUL), and [file_data['messages']], a [list]. *)
Record file_data : Type := FileData { filePath : text; messages : list diagnostic }.

(** [sorted(msgs, key=lambda x: x['line'], reverse=True)]: a stable sort, so
    that messages of the same line keep the order of the report. *)
Fixpoint insert_desc (e : diagnostic) (l : list diagnostic) : list diagnostic :=
  match l with
  | [] => [e]
  | x :: l' => if line e <? line x then x :: insert_desc e l' else e :: l
  end.

Definition sorted_desc (msgs : list diagnostic) : list diagnostic :=
  foldr insert_desc [] msgs.

(** The same sort on values paired with their [int] keys. *)
Fixpoint insert_by_key (e : Z * json) (l : list (Z * json)) : list (Z * json) :=
  match l with
  | [] => [e]
  | x :: l' => if e.1 <? x.1 then x :: insert_by_key e l' else e :: l
  end.

Definition sorted_by_key (l : list (Z * json)) : list (Z * json) :=
  foldr insert_by_key [] l.

(** The values of the expected shape; other keys of a [dict] play no role. *)
Definition as_diagnostic (v : json) : option diagnostic :=
  match v with
  | JObj d =>
      match assoc (txt "line") d, assoc (txt "message") d with
      | Some (JInt n), Some (JStr s) => Some (Diagnostic n s)
      | _, _ => None
      end
  | _ => None
  end.

Definition has_nul (s : text) : bool := existsb (Ascii.eqb "000") s.

Definition as_file_data (v : json) : option file_data :=
  match v with
  | JObj d =>
      match assoc (txt "filePath") d, assoc (txt "messages") d with
      | Some (JStr p), Some (JArr l) =>
          if has_nul p then None else FileData p <$> mapM as_diagnostic l
      | _, _ => None
      end
  | _ => None
  end.

Definition as_report (v : json) : option (list file_data) :=
  match v with
  | JArr l => mapM as_file_data l
  | _ => None
  end.

(** ** Python lists *)

(** The position [l[i]] denotes, counted from the end when [i] is negative;
    [None] when Python raises [IndexError]. *)
Definition py_index {A : Type} (l : list A) (i : Z) : option nat :=
  let n := Z.of_nat (length l) in
  if (0 <=? i) && (i <? n) then Some (Z.to_nat i)
  else if (- n <=? i) && (i <? 0) then Some (Z.to_nat (n + i))
  else None.

(** ** Files *)

(** A file on disk, whatever the paths that lead to it. *)
Definition inode : Type := N.

(** A file holds text; opening it for reading or for writing can fail. *)
Record file : Type := File { content : text; readable : bool; writable : bool }.

(** Text mode with universal newlines, as [open(path, 'r')] reads. *)
Fixpoint universal_newlines (s : text) : text :=
  match s with
  | "013"%char :: "010"%char :: s' => "010"%char :: universal_newlines s'
  | "013"%char :: s' => "010"%char :: universal_newlines s'
  | c :: s' => c :: universal_newlines s'
  | [] => []
  end.

(** [f.readlines()]: the lines with their line ends. *)
Fixpoint split_lines (cur : text) (s : text) : list text :=
  match s with
  | [] => match cur with [] => [] | _ => [cur] end
  | c :: s' =>
      if Ascii.eqb c "010" then (cur ++ [c]) :: split_lines [] s'
      else split_lines (cur ++ [c]) s'
  end.

Definition readlines (f : file) : list text :=
  split_lines [] (universal_newlines (content f)).

(** ** State and exceptions *)

(** What the script prints: the values formatted into each line. *)
Inductive output : Type :=
| Processing (file_path : json)
| Renamed (line_no : json) (var_name new_var_name : text)
| FileUpdated
| TotalFixes (n : nat).

(** [OSError] carries the value that was given to [open]. *)
Inductive exn : Type :=
| OSError (file : json)
| JSONDecodeError
| IndexError
| ReError
| KeyError (key : text)
| TypeError
| ValueError.

(** The files on disk, the module-level variables [lines] and
    [total_fixed], and the console. *)
Record state : Type := State {
  fs : gmap inode file;
  lines : list text;
  total_fixed : nat;
  stdout : list output
}.

Inductive outcome (A : Type) : Type :=
| Ok (a : A)
| Raise (e : exn).
Arguments Ok {A} a.
Arguments Raise {A} e.

(** A statement: it ends normally or with an uncaught exception, in a state. *)
Definition M (A : Type) : Type := state -> outcome A * state.

#[global] Instance M_ret : MRet M := fun A a st => (Ok a, st).
#[global] Instance M_bind : MBind M := fun A B f m st =>
  match m st with
  | (Ok a, st') => f a st'
  | (Raise e, st') => (Raise e, st')
  end.

Definition raise {A : Type} (e : exn) : M A := fun st => (Raise e, st).

Definition print (o : output) : M unit := fun st =>
  (Ok tt, State (fs st) (lines st) (total_fixed st) (stdout st ++ [o])).

Definition set_lines (ls : list text) : M unit := fun st =>
  (Ok tt, State (fs st) ls (total_fixed st) (stdout st)).

Definition set_total_fixed (n : nat) : M unit := fun st =>
  (Ok tt, State (fs st) (lines st) n (stdout st)).

Definition get_lines : M (list text) := fun st => (Ok (lines st), st).

Definition get_total_fixed : M nat := fun st => (Ok (total_fixed st), st).

(** [lines[i]] *)
Definition get_line (i : Z) : M text := fun st =>
  match py_index (lines st) i with
  | Some n =>
      match lines st !! n with
      | Some l => (Ok l, st)
      | None => (Raise IndexError, st)
      end
  | None => (Raise IndexError, st)
  end.

(** [lines[i] = l] *)
Definition set_line (i : Z) (l : text) : M unit := fun st =>
  match py_index (lines st) i with
  | Some n => (Ok tt, State (fs st) (<[n := l]> (lines st)) (total_fixed st) (stdout st))
  | None => (Raise IndexError, st)
  end.

(** [for x in l: body(x)] *)
Fixpoint for_each {A : Type} (body : A -> M unit) (l : list A) : M unit :=
  match l with
  | [] => mret tt
  | x :: l' => body x;; for_each body l'
  end.

(** [[f(x) for x in l]] *)
Fixpoint map_each {A B : Type} (f : A -> M B) (l : list A) : M (list B) :=
  match l with
  | [] => mret []
  | x :: l' => y ← f x; ys ← map_each f l'; mret (y :: ys)
  end.

(** ** Operations on the values of the report *)

(** [v[key]] for a [str] key: only a [dict] takes one. *)
Definition subscript (v : json) (key : text) : M json :=
  match v with
  | JObj d =>
      match assoc key d with
      | Some x => mret x
      | None => raise (KeyError key)
      end
  | _ => raise TypeError
  end.

(** The values [for x in v] runs through: the items of a [list], the keys of
    a [dict], the characters of a [str]. *)
Definition iterate (v : json) : M (list json) :=
  match v with
  | JArr l => mret l
  | JObj d => mret ((fun kv => JStr kv.1) <$> d)
  | JStr s => mret ((fun c => JStr [c]) <$> s)
  | _ => raise TypeError
  end.

(** [v - 1] *)
Definition minus_one (v : json) : M number :=
  match v with
  | JFloat _ => mret NFloat
  | _ =>
      match as_int v with
      | Some n => mret (NInt (n - 1))
      | None => raise TypeError
      end
  end.

(** [lines[i]] and [lines[i] = l] for the value of [v - 1] *)
Definition get_item (i : number) : M text :=
  match i with
  | NInt n => get_line n
  | NFloat => raise TypeError
  end.

Definition set_item (i : number) (l : text) : M unit :=
  match i with
  | NInt n => set_line n l
  | NFloat => raise TypeError
  end.

(** The subject of [re.search] is a [str]. *)
Definition as_str (v : json) : M text :=
  match v with
  | JStr s => mret s
  | _ => raise TypeError
  end.

(** ** The script *)

Section Script.

(** The file a path leads to (or would lead to, were it created there):
    paths are resolved by the system, and two spellings or links of one file
    lead to the same file. The script creates, renames and removes no
    directory entry, so this does not change during a run. *)
Variable resolve : text -> inode.

(** What reading an open file descriptor to its end gives, [None] when it
    cannot be read. *)
Variable read_descriptor : Z -> option text.

(** [json.load] on the text of the report: the decoded value, or [None]
    when the text is not JSON. *)
Variable json_load : text -> option json.

(** The replacement templates of [re.sub] that hold a backslash: what the
    template makes of the matched text, or [None] when [re] rejects it. *)
Variable parse_template : text -> option (text -> text).

(** What [sorted] makes of two or more messages whose keys are not all of
    type [int]: the order depends on the comparisons that [list.sort]
    makes ([float] keys can be NaN); [None] when one of them raises. *)
Variable sort_other : list json -> option (list json).

(** [with open(path, 'r') as f: f.read()] *)
Definition read_text (path : text) : M text := fun st =>
  match fs st !! resolve path with
  | Some f => if readable f then (Ok (universal_newlines (content f)), st)
              else (Raise (OSError (JStr path)), st)
  | None => (Raise (OSError (JStr path)), st)
  end.

(** [with open(path, 'r') as f: f.readlines()] *)
Definition read_lines (path : text) : M (list text) :=
  s ← read_text path; mret (split_lines [] s).

(** [with open(path, 'w') as f: f.writelines(ls)]: the file is replaced by the
    concatenation of [ls]; a missing file is created. *)
Definition write_lines (path : text) (ls : list text) : M unit := fun st =>
  match fs st !! resolve path with
  | Some f =>
      if writable f then
        (Ok tt, State (<[resolve path := File (concat ls) (readable f) true]> (fs st))
                      (lines st) (total_fixed st) (stdout st))
      else (Raise (OSError (JStr path)), st)
  | None =>
      (Ok tt, State (<[resolve path := File (concat ls) true true]> (fs st))
                    (lines st) (total_fixed st) (stdout st))
  end.

(** [open] on an [int]: a file descriptor, when it fits a C [int] and is not
    negative. *)
Definition descriptor (n : Z) : M Z :=
  if (n <? - 2 ^ 31) || (2 ^ 31 <=? n) then raise TypeError
  else if n <? 0 then raise ValueError
  else mret n.

(** [with open(file_path, 'r') as f: f.readlines()] for any value. *)
Definition open_read (file_path : json) : M (list text) :=
  match file_path with
  | JStr s => if has_nul s then raise ValueError else read_lines s
  | JInt _ | JBool _ =>
      n ← descriptor (default 0 (as_int file_path));
      match read_descriptor n with
      | Some s => mret (split_lines [] (universal_newlines s))
      | None => raise (OSError file_path)
      end
  | _ => raise TypeError
  end.

(** [with open(file_path, 'w') as f: f.writelines(ls)] for any value; a
    descriptor was closed at the end of the [with] block that read it. *)
Definition open_write (file_path : json) (ls : list text) : M unit :=
  match file_path with
  | JStr s => if has_nul s then raise ValueError else write_lines s ls
  | JInt _ | JBool _ =>
      descriptor (default 0 (as_int file_path));;
      raise (OSError file_path)
  | _ => raise TypeError
  end.

(** [re.sub(r, repl, s)]; a replacement without backslash is literal. *)
Definition re_sub (r : regex) (repl : text) (s : text) : option text :=
  match (if contains (txt "\") repl then parse_template repl
         else Some (fun _ => repl)) with
  | Some expand => Some (sub_scan r expand None s 0)
  | None => None
  end.

(** Lines 42-60: the new text of the line. *)
Definition rewrite_line (var_name message cur_line : text) : option text :=
  let new_var_name := "_"%char :: var_name in
  if contains (txt "catch") cur_line
     && contains (txt "Allowed unused caught errors") message then
    re_sub (catch_re var_name) (txt "catch (" ++ new_var_name ++ txt ")") cur_line
  else if contains (txt "import") cur_line
          && (contains (txt "{") cur_line || contains (txt "import *") cur_line) then
    re_sub (word_re var_name) new_var_name cur_line
  else if bool_decide (is_Some (search function_re cur_line))
          || contains (txt "=>") cur_line
          || starts_with (txt "async ") (strip cur_line) then
    re_sub (word_re var_name) new_var_name cur_line
  else if bool_decide (is_Some (search decl_re cur_line)) then
    re_sub (word_re var_name) new_var_name cur_line
  else
    re_sub (word_re var_name) new_var_name cur_line.

(** *** On any decoded value *)

(** Lines 27-65: the body of [for error in errors]. *)
Definition run_error (error : json) : M unit :=
  l ← subscript error (txt "line");
  line_num ← minus_one l;
  v ← subscript error (txt "message");
  message ← as_str v;
  match extract_name message with
  | None => mret tt
  | Some var_name =>
      if starts_with (txt "_") var_name then mret tt
      else
        cur_line ← get_item line_num;
        match rewrite_line var_name message cur_line with
        | None => raise ReError
        | Some new_line =>
            if text_eqb new_line cur_line then mret tt
            else
              set_item line_num new_line;;
              n ← get_total_fixed;
              set_total_fixed (S n);;
              print (Renamed l var_name ("_"%char :: var_name))
        end
  end.

(** Line 24: the keys are computed first, for every message; keys of type
    [int] are sorted by a stable sort; at most one message is not compared
    with anything. *)
Definition sorted_by_line (msgs : json) : M (list json) :=
  l ← iterate msgs;
  keys ← map_each (fun x => subscript x (txt "line")) l;
  match mapM as_int keys with
  | Some ns => mret ((sorted_by_key (zip ns l)).*2)
  | None =>
      match l with
      | _ :: _ :: _ =>
          match sort_other l with
          | Some l' => mret l'
          | None => raise TypeError
          end
      | _ => mret l
      end
  end.

(** Lines 17-70: the body of [for file_data in eslint_output]. *)
Definition run_file (file_data : json) : M unit :=
  file_path ← subscript file_data (txt "filePath");
  print (Processing file_path);;
  ls ← open_read file_path;
  set_lines ls;;
  msgs ← subscript file_data (txt "messages");
  errors ← sorted_by_line msgs;
  for_each run_error errors;;
  ls' ← get_lines;
  open_write file_path ls';;
  print FileUpdated.

Definition report_path : text := txt "/tmp/eslint-unused-vars-filtered.json".

(** Lines 11-12. *)
Definition load_report : M json :=
  s ← read_text report_path;
  match json_load s with
  | Some r => mret r
  | None => raise JSONDecodeError
  end.

(** The whole script. *)
Definition main : M unit :=
  eslint_output ← load_report;
  set_total_fixed 0;;
  entries ← iterate eslint_output;
  for_each run_file entries;;
  n ← get_total_fixed;
  print (TotalFixes n).

(** *** On a report of the expected shape

    The same statements on the records [diagnostic] and [file_data]; the
    lemmas [run_error_shaped], [run_file_shaped] and [main_shaped] show that
    the script does this on the values that [as_diagnostic], [as_file_data]
    and [as_report] accept. *)

(** Lines 27-65: the body of [for error in errors]. *)
Definition process_error (error : diagnostic) : M unit :=
  let line_num := line error - 1 in
  match extract_name (message error) with
  | None => mret tt
  | Some var_name =>
      if starts_with (txt "_") var_name then mret tt
      else
        cur_line ← get_line line_num;
        match rewrite_line var_name (message error) cur_line with
        | None => raise ReError
        | Some new_line =>
            if text_eqb new_line cur_line then mret tt
            else
              set_line line_num new_line;;
              n ← get_total_fixed;
              set_total_fixed (S n);;
              print (Renamed (JInt (line error)) var_name ("_"%char :: var_name))
        end
  end.

(** Lines 24-65: the messages of one file, by descending line. *)
Definition process_errors (msgs : list diagnostic) : M unit :=
  for_each process_error (sorted_desc msgs).

(** Lines 17-70: the body of [for file_data in eslint_output]. *)
Definition process_file (fd : file_data) : M unit :=
  let file_path := filePath fd in
  print (Processing (JStr file_path));;
  ls ← read_lines file_path;
  set_lines ls;;
  process_errors (messages fd);;
  ls' ← get_lines;
  write_lines file_path ls';;
  print FileUpdated.

(** Lines 14-72, after the report is loaded. *)
Definition process_report (r : list file_data) : M unit :=
  set_total_fixed 0;;
  for_each process_file r;;
  n ← get_total_fixed;
  print (TotalFixes n).

End Script.

(** ** Auxiliary definitions of the statements *)

(** The substitution a message attempts in a state: the text of the target
    line and its new text, when the message names a variable without leading
    underscore, its line exists and [re.sub] returns. *)
Definition substitution (parse_template : text -> option (text -> text))
    (error : diagnostic) (st : state) : option (nat * text * text) :=
  match extract_name (message error) with
  | None => None
  | Some var_name =>
      if starts_with (txt "_") var_name then None
      else
        match py_index (lines st) (line error - 1) with
        | None => None
        | Some n =>
            match lines st !! n with
            | None => None
            | Some cur_line =>
                match rewrite_line parse_template var_name (message error) cur_line with
                | None => None
                | Some new_line => Some (n, cur_line, new_line)
                end
            end
        end
  end.

(** The number of renames printed. *)
Fixpoint renames (out : list output) : nat :=
  match out with
  | Renamed _ _ _ :: out' => S (renames out')
  | _ :: out' => renames out'
  | [] => O
  end.

(** Instances of the parameters of the script for the examples: a
    template parser that rejects every template with a backslash, a report
    decoder that is known on one text only, one that decodes every text to
    [v], no open descriptor, and a [sorted] that fails on keys that are no
    [int]s. *)
Definition no_template : text -> option (text -> text) := fun _ => None.
Definition json_const (v : json) : text -> option json := fun _ => Some v.
Definition no_descriptor : Z -> option text := fun _ => None.
Definition no_sort : list json -> option (list json) := fun _ => None.

(** The values that decode to a record. *)
Definition diagnostic_value (d : diagnostic) : json :=
  JObj [(txt "line", JInt (line d)); (txt "message", JStr (message d))].

Definition file_data_value (fd : file_data) : json :=
  JObj [(txt "filePath", JStr (filePath fd));
        (txt "messages", JArr (diagnostic_value <$> messages fd))].

Definition report_value (r : list file_data) : json := JArr (file_data_value <$> r).

(** The strategies of lines 44-60, and the one the script selects. *)
Inductive strategy : Type :=
| CatchClause
| Import
| FunctionSignature
| Declaration
| Fallback.

Definition select_strategy (message cur_line : text) : strategy :=
  if contains (txt "catch") cur_line
     && contains (txt "Allowed unused caught errors") message then CatchClause
  else if contains (txt "import") cur_line
          && (contains (txt "{") cur_line || contains (txt "import *") cur_line) then
    Import
  else if bool_decide (is_Some (search function_re cur_line))
          || contains (txt "=>") cur_line
          || starts_with (txt "async ") (strip cur_line) then
    FunctionSignature
  else if bool_decide (is_Some (search decl_re cur_line)) then Declaration
  else Fallback.

(** The dispatch as the specification words it: the catch strategy exactly
    when the line holds a catch clause of the variable and the message
    mentions the allowed caught errors, whole-word replacement otherwise. *)
Definition spec_rewrite_line (parse_template : text -> option (text -> text))
    (var_name message cur_line : text) : option text :=
  if bool_decide (is_Some (search (catch_re var_name) cur_line))
     && contains (txt "Allowed unused caught errors") message then
    re_sub parse_template (catch_re var_name)
      (txt "catch (" ++ "_"%char :: var_name ++ txt ")") cur_line
  else
    re_sub parse_template (word_re var_name) ("_"%char :: var_name) cur_line.



(** The counter and the printed renames advance together. *)
Definition counted (st st' : state) : Prop :=
  (total_fixed st' + renames (stdout st) = total_fixed st + renames (stdout st'))%nat.

(** The pairs whose substitution changed the text of the line, counted
    from the report alone: for the messages of a pass in the order they are
    processed, the number of those whose substitution changes the text its
    line has at that moment, and the buffer the pass leaves. *)
Definition buffer (ls : list text) : state := State ∅ ls 0 [].

Fixpoint pass_changes (parse_template : text -> option (text -> text))
    (errors : list diagnostic) (ls : list text) : nat * list text :=
  match errors with
  | [] => (O, ls)
  | e :: errors' =>
      match substitution parse_template e (buffer ls) with
      | Some (n, cur_line, new_line) =>
          if text_eqb new_line cur_line then pass_changes parse_template errors' ls
          else
            let r := pass_changes parse_template errors' (<[n := new_line]> ls) in
            (S r.1, r.2)
      | None => pass_changes parse_template errors' ls
      end
  end.

(** For the entries of a report in their order, on the files as the entries
    before left them. *)
Fixpoint run_changes (resolve : text -> inode)
    (parse_template : text -> option (text -> text))
    (r : list file_data) (files : gmap inode file) : nat :=
  match r with
  | [] => O
  | fd :: r' =>
      match files !! resolve (filePath fd) with
      | Some f =>
          let p := pass_changes parse_template (sorted_desc (messages fd)) (readlines f) in
          (p.1 + run_changes resolve parse_template r'
                   (<[resolve (filePath fd) := File (concat p.2) (readable f) true]> files))%nat
      | None => O
      end
  end.

(** The paths a decoded report lists: the [str] under [filePath] of each
    item of a [list] that is a [dict]. *)
Definition named_path (entry : json) : option text :=
  match entry with
  | JObj d =>
      match assoc (txt "filePath") d with
      | Some (JStr p) => Some p
      | _ => None
      end
  | _ => None
  end.

Definition listed_paths (report : json) : list text :=
  match report with
  | JArr l => omap named_path l
  | _ => []
  end.

(** A value paired with its key, and the record it decodes to. *)
Definition keyed (p : Z * json) (d : diagnostic) : Prop :=
  p.1 = line d /\ as_diagnostic p.2 = Some d.

(** A statement that leaves the file [i] as it is, and one that always
    ends with an exception. *)
Definition keeps {A : Type} (i : inode) (m : M A) : Prop :=
  forall st, fs (snd (m st)) !! i = fs st !! i.

Definition fails {A : Type} (m : M A) : Prop :=
  forall st, exists e, fst (m st) = Raise e.

(** The orders on messages: by line, descending. *)
Definition line_ge (a b : diagnostic) : Prop := line b <= line a.
Definition line_gt (a b : diagnostic) : Prop := line b < line a.

(** ** Words and separators

    To reason about [\b], a line is read as a sequence of tokens: maximal
    runs of word characters, and single characters that are not word
    characters. *)

Inductive token : Type :=
| TWord (w : text)
| TSep (c : ascii).

Definition token_text (t : token) : text :=
  match t with
  | TWord w => w
  | TSep c => [c]
  end.

Fixpoint flatten (ts : list token) : text :=
  match ts with
  | [] => []
  | t :: ts' => token_text t ++ flatten ts'
  end.

Fixpoint tokenize (s : text) : list token :=
  match s with
  | [] => []
  | c :: s' =>
      if is_word c then
        match tokenize s' with
        | TWord w :: ts => TWord (c :: w) :: ts
        | ts => TWord [c] :: ts
        end
      else TSep c :: tokenize s'
  end.

(** An identifier-like name: word characters only. *)
Definition all_word (w : text) : bool := forallb is_word w.

Definition token_ok (t : token) : bool :=
  match t with
  | TWord [] => false
  | TWord w => all_word w
  | TSep c => negb (is_word c)
  end.

Definition starts_word (ts : list token) : bool :=
  match ts with
  | TWord _ :: _ => true
  | _ => false
  end.

(** The runs are maximal: no two words in a row. *)
Fixpoint well_formed (ts : list token) : bool :=
  match ts with
  | [] => true
  | t :: ts' =>
      token_ok t
      && match t with TWord _ => negb (starts_word ts') | TSep _ => true end
      && well_formed ts'
  end.

(** Whole-word replacement on tokens. *)
Definition rename_token (v : text) (t : token) : token :=
  match t with
  | TWord w => if text_eqb w v then TWord ("_"%char :: v) else t
  | TSep _ => t
  end.

Definition rename_words (v : text) (ts : list token) : list token :=
  map (rename_token v) ts.

(** The catch clause on tokens: [catch], spaces, [(], spaces, the name,
    spaces, [)]; the tokens after the clause. *)
Fixpoint skip_ws (ts : list token) : list token :=
  match ts with
  | TSep c :: ts' => if is_space c then skip_ws ts' else ts
  | _ => ts
  end.

Definition clause_tail (v : text) (ts : list token) : option (list token) :=
  match skip_ws ts with
  | TSep c1 :: ts1 =>
      if Ascii.eqb c1 "(" then
        match skip_ws ts1 with
        | TWord w :: ts2 =>
            if text_eqb w v then
              match skip_ws ts2 with
              | TSep c2 :: ts3 => if Ascii.eqb c2 ")" then Some ts3 else None
              | _ => None
              end
            else None
        | _ => None
        end
      else None
  | _ => None
  end.

Definition clause_rest (v : text) (ts : list token) : option (list token) :=
  match ts with
  | TWord w :: ts0 => if text_eqb w (txt "catch") then clause_tail v ts0 else None
  | _ => None
  end.

(** The tokens of [catch (_name)]. *)
Definition canon_clause (v : text) : list token :=
  [TWord (txt "catch"); TSep " "; TSep "("; TWord ("_"%char :: v); TSep ")"].

Fixpoint rename_clauses_fuel (fuel : nat) (v : text) (ts : list token) : list token :=
  match fuel with
  | O => ts
  | S fuel' =>
      match ts with
      | [] => []
      | t :: ts' =>
          match clause_rest v ts with
          | Some rest => canon_clause v ++ rename_clauses_fuel fuel' v rest
          | None => t :: rename_clauses_fuel fuel' v ts'
          end
      end
  end.

Definition rename_clauses (v : text) (ts : list token) : list token :=
  rename_clauses_fuel (length ts) v ts.

(** No whole-word occurrence, no catch clause of the name. *)
Definition no_word (v : text) (ts : list token) : Prop :=
  Forall (fun t => t <> TWord v) ts.

Fixpoint no_clause (v : text) (ts : list token) : Prop :=
  match ts with
  | [] => True
  | _ :: ts' => clause_rest v ts = None /\ no_clause v ts'
  end.

(** The replacement texts for a name without backslash. *)
Definition new_name (v : text) : text := "_"%char :: v.
Definition new_clause (v : text) : text := txt "catch (" ++ "_"%char :: v ++ txt ")".

(** The two rewrites of a line. *)
Definition sub_word (v : text) (s : text) : text :=
  sub_scan (word_re v) (fun _ => new_name v) None s 0.

Definition sub_clause (v : text) (s : text) : text :=
  sub_scan (catch_re v) (fun _ => new_clause v) None s 0.

(** The character before the position reached after [s]. *)
Fixpoint last_char (prev : option ascii) (s : text) : option ascii :=
  match s with
  | [] => prev
  | c :: s' => last_char (Some c) s'
  end.

(** The characters of the leading space tokens. *)
Fixpoint ws_prefix (ts : list token) : text :=
  match ts with
  | TSep c :: ts' => if is_space c then c :: ws_prefix ts' else []
  | _ => []
  end.

(** The parts of [catch_re] after [catch]. *)
Definition close_re : regex := Seq (Star is_space) (Lit (txt ")")).
Definition name_re (v : text) : regex := Seq (Star is_space) (Seq (Lit v) close_re).
Definition open_re (v : text) : regex :=
  Seq (Star is_space) (Seq (Lit (txt "(")) (name_re v)).

Arguments clause_rest : simpl never.
Arguments clause_tail : simpl never.

(** Whether a token holds "catch". *)
Definition has_catch (t : token) : bool :=
  match t with
  | TWord w => contains (txt "catch") w
  | TSep _ => false
  end.

(** Whether the catch strategy is selected. *)
Definition uses_clause (message cur_line : text) : bool :=
  contains (txt "catch") cur_line
  && contains (txt "Allowed unused caught errors") message.

(** The rewrite for a name of word characters (no template is parsed). *)
Definition rewrite_plain (v message cur_line : text) : text :=
  if uses_clause message cur_line then sub_clause v cur_line else sub_word v cur_line.

(** Nothing is left on the line for the rewrite of the name to change. *)
Definition settled (v message cur_line : text) : Prop :=
  exists ts : list token,
    well_formed ts = true /\ flatten ts = cur_line /\
    if uses_clause message cur_line then no_clause v ts else no_word v ts.

(** The message has nothing left to change in the buffer. *)
Definition settled_in (error : diagnostic) (ls : list text) : Prop :=
  match extract_name (message error) with
  | None => True
  | Some v =>
      if starts_with (txt "_") v then True
      else
        exists (n : nat) (cur_line : text),
          py_index ls (line error - 1) = Some n /\
          ls !! n = Some cur_line /\
          settled v (message error) cur_line
  end.

(** The message names an identifier: word characters only. *)
Definition plain_name (error : diagnostic) : Prop :=
  forall v, extract_name (message error) = Some v -> all_word v = true.

(** ** Lines of a file *)

(** A line feed or a carriage return. *)
Definition is_break (c : ascii) : bool := Ascii.eqb c "010" || Ascii.eqb c "013".

Definition no_break (s : text) : bool := forallb (fun c => negb (is_break c)) s.

(** A line as [readlines] returns it: a text without line end followed by a
    line feed or, for the last line of a file only, a text without line end
    that is not empty. *)
Definition proper_line (is_last : bool) (l : text) : Prop :=
  (exists body, l = body ++ ["010"%char] /\ no_break body = true) \/
  (is_last = true /\ l <> [] /\ no_break l = true).

Fixpoint proper_lines (ls : list text) : Prop :=
  match ls with
  | [] => True
  | l :: ls' =>
      proper_line (match ls' with [] => true | _ :: _ => false end) l
      /\ proper_lines ls'
  end.

(** The two kinds of diagnostics of [unused_re]. *)
Definition kind_defined : text := txt "defined but never used".
Definition kind_assigned : text := txt "assigned a value but never used".

(** ** Example inputs *)

Definition ex_state (files : gmap inode file) (ls : list text) : state :=
  State files ls 0 [].

(** The directory of the examples: [a.ts] and [./a.ts] are two spellings of
    one file; [b.ts] leads to no file. *)
Definition ex_resolve (path : text) : inode :=
  if text_eqb path (txt "a.ts") || text_eqb path (txt "./a.ts") then 1%N
  else if text_eqb path report_path then 2%N
  else if text_eqb path (txt "c.ts") then 3%N
  else if text_eqb path (txt "b.ts") then 4%N
  else if text_eqb path (txt "s.ts") then 5%N
  else 0%N.

(** The source files [a.ts] (one line), [c.ts] (two lines) and [s.ts] (one
    line, with a backslash in a string), and a report file whose text is
    opaque here (the decoder is a parameter). *)
Definition ex_files : gmap inode file :=
  <[1%N := File (txt "const foo = bar;
") true true]>
    (<[2%N := File (txt "[]") true true]>
       (<[3%N := File (txt "const foo = 1;
const bar = 2;
") true true]>
          (<[5%N := File (txt "log('a\n');
") true true]> ∅))).

Definition ex_unused_foo (n : Z) : diagnostic :=
  Diagnostic n (txt "'foo' is assigned a value but never used").

Definition ex_unused_bar (n : Z) : diagnostic :=
  Diagnostic n (txt "'bar' is defined but never used").

(** A stale message: no [baz] is on the line. *)
Definition ex_unused_baz (n : Z) : diagnostic :=
  Diagnostic n (txt "'baz' is defined but never used").

Definition ex_entry_a : file_data := FileData (txt "a.ts") [ex_unused_foo 1].


(** An entry with a message for the first of two lines. *)
Definition ex_entry_c : file_data := FileData (txt "c.ts") [ex_unused_foo 1].

(** A caught error reported on a line that has "catch" but no catch clause
    of that name. *)
Definition ex_caught_message : text :=
  txt "'error' is defined but never used. Allowed unused caught errors must match /^_/u".

Definition ex_catch_line : text := txt "} catch { log(error); }
".

(** A name that is no identifier, preceded by a word character. *)
Definition ex_unused_dollar : diagnostic :=
  Diagnostic 1 (txt "'$x' is defined but never used").

Definition ex_dollar_line : text := txt "const a$x = 1;
".




(** The script in the environment of the examples, on the report [report]
    (whatever the text of the report file). *)
Definition ex_main (report : json) : M unit :=
  main ex_resolve no_descriptor (json_const report) no_template no_sort.

(** A report whose first entry has the expected shape and whose second
    entry has no [filePath]. *)
Definition ex_ill_shaped : json :=
  JArr [file_data_value ex_entry_a; JObj [(txt "messages", JArr [])]].

(** * Properties *)

Section Properties.

Context (resolve : text -> inode).
Context (read_descriptor : Z -> option text).
Context (json_load : text -> option json).
Context (parse_template : text -> option (text -> text)).
Context (sort_other : list json -> option (list json)).

Local Abbreviation read_text := (read_text resolve).
Local Abbreviation write_lines := (write_lines resolve).
Local Abbreviation rewrite_line := (rewrite_line parse_template).
Local Abbreviation run_error := (run_error parse_template).
Local Abbreviation sorted_by_line := (sorted_by_line sort_other).
Local Abbreviation run_file := (run_file resolve read_descriptor parse_template sort_other).
Local Abbreviation process_error := (process_error parse_template).
Local Abbreviation process_errors := (process_errors parse_template).
Local Abbreviation process_file := (process_file resolve parse_template).
Local Abbreviation process_report := (process_report resolve parse_template).
Local Abbreviation load_report := (load_report resolve json_load).
Local Abbreviation main := (main resolve read_descriptor json_load parse_template sort_other).
Local Abbreviation substitution := (substitution parse_template).

(** ** The monad *)

Lemma bind_unfold {A B : Type} (m : M A) (f : A -> M B) (st : state) :
  (m ≫= f) st =
  match m st with
  | (Ok a, st') => f a st'
  | (Raise e, st') => (Raise e, st')
  end.
Proof. reflexivity. Qed.

Lemma for_each_cons {A : Type} (body : A -> M unit) (x : A) (l : list A) (st : state) :
  for_each body (x :: l) st =
  match body x st with
  | (Ok _, st') => for_each body l st'
  | (Raise e, st') => (Raise e, st')
  end.
Proof. reflexivity. Qed.

Lemma for_each_app {A : Type} (body : A -> M unit) (l1 l2 : list A) (st : state) :
  for_each body (l1 ++ l2) st =
  match for_each body l1 st with
  | (Ok _, st') => for_each body l2 st'
  | (Raise e, st') => (Raise e, st')
  end.
Proof.
  revert st. induction l1 as [|x l1 IH]; intros st; simpl.
  - reflexivity.
  - rewrite !bind_unfold. destruct (body x st) as [[[]|e] st']; [apply IH|reflexivity].
Qed.

Lemma map_each_cons {A B : Type} (f : A -> M B) (x : A) (l : list A) (st : state) :
  map_each f (x :: l) st =
  match f x st with
  | (Ok y, st') =>
      match map_each f l st' with
      | (Ok ys, st'') => (Ok (y :: ys), st'')
      | (Raise e, st'') => (Raise e, st'')
      end
  | (Raise e, st') => (Raise e, st')
  end.
Proof. reflexivity. Qed.

Lemma for_each_pointwise {A B : Type} (f : A -> M unit) (g : B -> M unit)
    (l : list A) (r : list B) :
  Forall2 (fun a b => forall st, f a st = g b st) l r ->
  forall st, for_each f l st = for_each g r st.
Proof.
  induction 1 as [|a b l r Hab _ IH]; intros st; [reflexivity|].
  rewrite !for_each_cons, Hab. destruct (g b st) as [[[]|e] st']; [apply IH|reflexivity].
Qed.

(** ** The report of the expected shape

    On the values that [as_diagnostic], [as_file_data] and [as_report]
    accept, the script does what [process_error], [process_file] and
    [process_report] say. *)

Lemma run_error_shaped (v : json) (d : diagnostic) (st : state) :
  as_diagnostic v = Some d -> run_error v st = process_error d st.
Proof.
  destruct v as [| | | | |l|kvs]; try discriminate. unfold as_diagnostic.
  destruct (assoc (txt "line") kvs) as [[| | n | | | |]|] eqn:El; try discriminate.
  destruct (assoc (txt "message") kvs) as [[| | | | s | |]|] eqn:Em; try discriminate.
  intros H; inversion H; subst d; clear H.
  unfold run_error, process_error, subscript. rewrite El, Em. reflexivity.
Qed.

Lemma map_each_line_shaped (l : list json) (ds : list diagnostic) (st : state) :
  Forall2 (fun v d => as_diagnostic v = Some d) l ds ->
  map_each (fun x => subscript x (txt "line")) l st
  = (Ok ((fun d => JInt (line d)) <$> ds), st).
Proof.
  induction 1 as [|v d l ds Hv _ IH]; [reflexivity|].
  rewrite map_each_cons.
  destruct v as [| | | | |l0|kvs]; try discriminate. unfold as_diagnostic in Hv.
  unfold subscript at 1.
  destruct (assoc (txt "line") kvs) as [[| | n | | | |]|] eqn:El; try discriminate.
  destruct (assoc (txt "message") kvs) as [[| | | | s | |]|] eqn:Em; try discriminate.
  inversion Hv; subst d; clear Hv. cbn [mret M_ret]. rewrite IH. reflexivity.
Qed.

Lemma mapM_as_int_lines (ds : list diagnostic) :
  mapM as_int ((fun d => JInt (line d)) <$> ds) = Some (line <$> ds).
Proof.
  apply mapM_Some. induction ds as [|d ds IH]; constructor; [reflexivity|exact IH].
Qed.

Lemma insert_by_key_shaped (p : Z * json) (d : diagnostic)
    (l : list (Z * json)) (ds : list diagnostic) :
  keyed p d -> Forall2 keyed l ds ->
  Forall2 keyed (insert_by_key p l) (insert_desc d ds).
Proof.
  intros Hp. induction 1 as [|q x l ds Hq Hl IH]; simpl.
  - constructor; [exact Hp|constructor].
  - destruct Hp as [Hp1 Hp2]. destruct Hq as [Hq1 Hq2]. rewrite Hp1, Hq1.
    destruct (line d <? line x).
    + constructor; [split; assumption|exact IH].
    + constructor; [split; assumption|]. constructor; [split; assumption|exact Hl].
Qed.

Lemma sorted_by_key_shaped (l : list (Z * json)) (ds : list diagnostic) :
  Forall2 keyed l ds -> Forall2 keyed (sorted_by_key l) (sorted_desc ds).
Proof.
  induction 1 as [|p d l ds Hp _ IH]; simpl; [constructor|].
  apply insert_by_key_shaped; assumption.
Qed.

Lemma zip_keyed (l : list json) (ds : list diagnostic) :
  Forall2 (fun v d => as_diagnostic v = Some d) l ds ->
  Forall2 keyed (zip (line <$> ds) l) ds.
Proof.
  induction 1 as [|v d l ds Hv _ IH]; simpl; constructor; [split; [reflexivity|exact Hv]|exact IH].
Qed.

Lemma sorted_by_line_shaped (l : list json) (ds : list diagnostic) (st : state) :
  mapM as_diagnostic l = Some ds ->
  exists l' : list json,
    sorted_by_line (JArr l) st = (Ok l', st) /\
    Forall2 (fun v d => as_diagnostic v = Some d) l' (sorted_desc ds).
Proof.
  intros H. apply mapM_Some in H.
  exists ((sorted_by_key (zip (line <$> ds) l)).*2). split.
  - unfold sorted_by_line. rewrite bind_unfold. cbn [iterate mret M_ret].
    rewrite bind_unfold, (map_each_line_shaped l ds st H), mapM_as_int_lines.
    reflexivity.
  - pose proof (sorted_by_key_shaped _ _ (zip_keyed l ds H)) as Hs.
    revert Hs. generalize (sorted_by_key (zip (line <$> ds) l)) (sorted_desc ds).
    induction 1 as [|p d ps ds' [_ Hp] _ IH]; simpl; constructor; assumption.
Qed.

Lemma bind_ext {A B : Type} (m : M A) (f g : A -> M B) (st : state) :
  (forall a st', f a st' = g a st') -> (m ≫= f) st = (m ≫= g) st.
Proof.
  intros H. rewrite !bind_unfold. destruct (m st) as [[a|e] st']; [apply H|reflexivity].
Qed.

Lemma subscript_found (d : list (text * json)) (key : text) (x : json) (st : state) :
  assoc key d = Some x -> subscript (JObj d) key st = (Ok x, st).
Proof. intros H. unfold subscript. rewrite H. reflexivity. Qed.

Lemma run_file_shaped (v : json) (fd : file_data) (st : state) :
  as_file_data v = Some fd -> run_file v st = process_file fd st.
Proof.
  destruct v as [| | | | |l|kvs]; try discriminate. unfold as_file_data.
  destruct (assoc (txt "filePath") kvs) as [[| | | | p | |]|] eqn:Ep; try discriminate.
  destruct (assoc (txt "messages") kvs) as [[| | | | | l |]|] eqn:Em; try discriminate.
  destruct (has_nul p) eqn:En; [discriminate|].
  destruct (mapM as_diagnostic l) as [ds|] eqn:Ed; [|discriminate].
  intros H; inversion H; subst fd; clear H.
  unfold run_file, process_file. cbn [filePath messages].
  rewrite bind_unfold, (subscript_found _ _ _ st Ep).
  apply bind_ext. intros _ st1.
  unfold open_read. rewrite En.
  apply bind_ext. intros ls st2.
  apply bind_ext. intros _ st3.
  rewrite bind_unfold, (subscript_found _ _ _ st3 Em).
  rewrite bind_unfold.
  destruct (sorted_by_line_shaped l ds st3 Ed) as (l' & Hsort & Hl'). rewrite Hsort.
  unfold process_errors. rewrite !bind_unfold.
  rewrite (for_each_pointwise run_error process_error l' (sorted_desc ds)).
  2:{ eapply Forall2_impl; [exact Hl'|]. intros x y Hxy st'. apply run_error_shaped, Hxy. }
  destruct (for_each process_error (sorted_desc ds) st3) as [[[]|e] st4]; [|reflexivity].
  apply bind_ext. intros ls' st5. unfold open_write. rewrite En. reflexivity.
Qed.

Lemma load_report_state (st : state) : snd (load_report st) = st.
Proof.
  unfold load_report. rewrite bind_unfold. unfold read_text.
  destruct (fs st !! resolve report_path) as [f|]; [destruct (readable f)|]; simpl;
    try reflexivity.
  destruct (json_load _); reflexivity.
Qed.

Lemma main_unfold (st : state) :
  main st =
  match load_report st with
  | (Ok eslint_output, _) =>
      let st0 := State (fs st) (lines st) 0 (stdout st) in
      match iterate eslint_output st0 with
      | (Ok entries, _) =>
          match for_each run_file entries st0 with
          | (Ok _, st') =>
              (Ok tt, State (fs st') (lines st') (total_fixed st')
                            (stdout st' ++ [TotalFixes (total_fixed st')]))
          | (Raise e, st') => (Raise e, st')
          end
      | (Raise e, _) => (Raise e, st0)
      end
  | (Raise e, _) => (Raise e, st)
  end.
Proof.
  unfold main. rewrite bind_unfold. pose proof (load_report_state st) as Hst.
  destruct (load_report st) as [[j|e] st0]; simpl in Hst; subst st0; [|reflexivity].
  rewrite !bind_unfold. cbn [set_total_fixed]. cbv zeta.
  destruct j; try reflexivity; cbn [iterate]; rewrite !bind_unfold; cbn [mret M_ret];
    match goal with
    | |- context [for_each ?b ?l ?s] => destruct (for_each b l s) as [[[]|e] st1]
    end; reflexivity.
Qed.

(** A pass over the entries of a report, then the total. *)
Lemma process_report_unfold (r : list file_data) (st : state) :
  process_report r st =
  match for_each process_file r (State (fs st) (lines st) 0 (stdout st)) with
  | (Ok _, st') =>
      (Ok tt, State (fs st') (lines st') (total_fixed st')
                    (stdout st' ++ [TotalFixes (total_fixed st')]))
  | (Raise e, st') => (Raise e, st')
  end.
Proof.
  unfold process_report. rewrite !bind_unfold. cbn [set_total_fixed].
  rewrite !bind_unfold.
  match goal with
  | |- context [for_each ?b ?l ?s] => destruct (for_each b l s) as [[[]|e] st1]
  end; reflexivity.
Qed.

Lemma main_shaped (st : state) (j : json) (r : list file_data) :
  fst (load_report st) = Ok j -> as_report j = Some r ->
  main st = process_report r st.
Proof.
  intros Hload Hr. rewrite main_unfold, process_report_unfold.
  pose proof (load_report_state st) as Hst.
  destruct (load_report st) as [[j'|e] st0]; simpl in Hload, Hst; [|discriminate].
  inversion Hload; subst j' st0; clear Hload.
  destruct j as [| | | | |l|kvs]; try discriminate. simpl in Hr.
  apply mapM_Some in Hr. cbv zeta. cbn [iterate mret M_ret].
  rewrite (for_each_pointwise run_file process_file l r); [reflexivity|].
  eapply Forall2_impl; [exact Hr|]. intros x y Hxy st'. apply run_file_shaped, Hxy.
Qed.

(** ** Python indexing *)

Lemma py_index_lt {A : Type} (l : list A) (i : Z) (n : nat) :
  py_index l i = Some n -> (n < length l)%nat.
Proof.
  unfold py_index. intros H.
  destruct ((0 <=? i) && (i <? Z.of_nat (length l))) eqn:E1.
  - apply andb_true_iff in E1 as [H1 H2]. inversion H; subst. lia.
  - destruct ((- Z.of_nat (length l) <=? i) && (i <? 0)) eqn:E2; [|discriminate].
    apply andb_true_iff in E2 as [H1 H2]. inversion H; subst. lia.
Qed.

Lemma py_index_above {A : Type} (l : list A) (i : Z) :
  Z.of_nat (length l) <= i -> py_index l i = None.
Proof.
  intros H. unfold py_index.
  destruct (0 <=? i) eqn:E0; destruct (i <? Z.of_nat (length l)) eqn:E1;
    destruct (- Z.of_nat (length l) <=? i) eqn:E2; destruct (i <? 0) eqn:E3;
    simpl; try reflexivity; lia.
Qed.

Lemma py_index_nonneg {A : Type} (l : list A) (i : Z) :
  0 <= i < Z.of_nat (length l) -> py_index l i = Some (Z.to_nat i).
Proof.
  intros H. unfold py_index.
  destruct (0 <=? i) eqn:E0; destruct (i <? Z.of_nat (length l)) eqn:E1;
    simpl; try reflexivity; lia.
Qed.

Lemma py_index_neg {A : Type} (l : list A) (i : Z) :
  - Z.of_nat (length l) <= i < 0 ->
  py_index l i = Some (Z.to_nat (Z.of_nat (length l) + i)).
Proof.
  intros H. unfold py_index.
  destruct (0 <=? i) eqn:E0; destruct (i <? Z.of_nat (length l)) eqn:E1;
    destruct (- Z.of_nat (length l) <=? i) eqn:E2; destruct (i <? 0) eqn:E3;
    simpl; try reflexivity; lia.
Qed.

Lemma py_index_length {A : Type} (l l' : list A) (i : Z) :
  length l = length l' -> py_index l i = py_index l' i.
Proof. intros H. unfold py_index. rewrite H. reflexivity. Qed.

(** ** One message *)

(** The body of the inner loop, case by case. *)
Lemma process_error_unfold (error : diagnostic) (st : state) :
  process_error error st =
  match extract_name (message error) with
  | None => (Ok tt, st)
  | Some var_name =>
      if starts_with (txt "_") var_name then (Ok tt, st)
      else
        match py_index (lines st) (line error - 1) with
        | None => (Raise IndexError, st)
        | Some n =>
            match lines st !! n with
            | None => (Raise IndexError, st)
            | Some cur_line =>
                match rewrite_line var_name (message error) cur_line with
                | None => (Raise ReError, st)
                | Some new_line =>
                    if text_eqb new_line cur_line then (Ok tt, st)
                    else
                      (Ok tt,
                       State (fs st) (<[n := new_line]> (lines st))
                             (S (total_fixed st))
                             (stdout st ++
                                [Renamed (JInt (line error)) var_name ("_"%char :: var_name)]))
                end
            end
        end
  end.
Proof.
  unfold process_error.
  destruct (extract_name (message error)) as [v|]; [|reflexivity].
  destruct (starts_with (txt "_") v); [reflexivity|].
  rewrite bind_unfold. unfold get_line.
  destruct (py_index (lines st) (line error - 1)) as [n|] eqn:En; [|reflexivity].
  destruct (lines st !! n) as [l|] eqn:El; [|reflexivity].
  destruct (rewrite_line v (message error) l) as [new|]; [|reflexivity].
  destruct (text_eqb new l); [reflexivity|].
  rewrite bind_unfold. unfold set_line. rewrite En. reflexivity.
Qed.

(** In terms of the substitution attempted. *)
Lemma process_error_substitution (error : diagnostic) (st : state) :
  match substitution error st with
  | Some (n, cur_line, new_line) =>
      lines st !! n = Some cur_line /\
      process_error error st =
      if text_eqb new_line cur_line then (Ok tt, st)
      else (Ok tt,
            State (fs st) (<[n := new_line]> (lines st)) (S (total_fixed st))
                  (stdout st ++ [Renamed (JInt (line error))
                                   (default [] (extract_name (message error)))
                                   ("_"%char :: default [] (extract_name (message error)))]))
  | None => snd (process_error error st) = st
  end.
Proof.
  rewrite process_error_unfold. unfold substitution.
  destruct (extract_name (message error)) as [v|]; [|reflexivity].
  destruct (starts_with (txt "_") v); [reflexivity|].
  destruct (py_index (lines st) (line error - 1)) as [n|] eqn:En; [|reflexivity].
  destruct (lines st !! n) as [l|] eqn:El; [|reflexivity].
  destruct (rewrite_line v (message error) l) as [new|]; [|reflexivity].
  split; [assumption|reflexivity].
Qed.

(** A message touches neither the files nor the length of the buffer. *)
Lemma process_error_frame (error : diagnostic) (st : state) :
  fs (snd (process_error error st)) = fs st /\
  length (lines (snd (process_error error st))) = length (lines st).
Proof.
  rewrite process_error_unfold.
  repeat match goal with
         | |- context [match ?x with _ => _ end] => destruct x
         end; simpl; rewrite ?length_insert; auto.
Qed.

Lemma for_each_process_error_frame (errors : list diagnostic) (st : state) :
  fs (snd (for_each process_error errors st)) = fs st /\
  length (lines (snd (for_each process_error errors st))) = length (lines st).
Proof.
  revert st. induction errors as [|e errors IH]; intros st; simpl; [auto|].
  rewrite bind_unfold.
  destruct (process_error_frame e st) as [Hfs Hlen].
  destruct (process_error e st) as [[[]|x] st1]; simpl in *.
  - destruct (IH st1) as [H1 H2]. rewrite H1, H2. auto.
  - auto.
Qed.

(** C2 (amended). A message whose line number exceeds the number of lines
    of the buffer changes neither the buffer nor the counter. It is passed
    over in silence, and the loop goes on with the next message, only when it
    names no variable or a variable with a leading underscore; otherwise
    [lines[line_num]] raises [IndexError], which nothing catches: the loop
    over the messages ends there. *)
Theorem out_of_range_line (error : diagnostic) (st : state) :
  Z.of_nat (length (lines st)) < line error ->
  process_error error st =
  match extract_name (message error) with
  | None => (Ok tt, st)
  | Some var_name =>
      if starts_with (txt "_") var_name then (Ok tt, st)
      else (Raise IndexError, st)
  end /\
  forall rest : list diagnostic,
    for_each process_error (error :: rest) st =
    match extract_name (message error) with
    | None => for_each process_error rest st
    | Some var_name =>
        if starts_with (txt "_") var_name then for_each process_error rest st
        else (Raise IndexError, st)
    end.
Proof.
  intros H.
  assert (Hstep : process_error error st =
                  match extract_name (message error) with
                  | None => (Ok tt, st)
                  | Some var_name =>
                      if starts_with (txt "_") var_name then (Ok tt, st)
                      else (Raise IndexError, st)
                  end).
  { rewrite process_error_unfold. rewrite py_index_above by lia. reflexivity. }
  split; [exact Hstep|].
  intros rest. rewrite for_each_cons, Hstep.
  destruct (extract_name (message error)) as [v|]; [|reflexivity].
  destruct (starts_with (txt "_") v); reflexivity.
Qed.

(** C9. A message whose line field [n] satisfies [-len <= n - 1 < 0] is
    not skipped: the substitution is attempted on the line counted from the
    end of the buffer, the last line when [n] is 0. *)
Theorem nonpositive_line_counts_from_end (error : diagnostic) (st : state)
    (var_name : text) :
  extract_name (message error) = Some var_name ->
  starts_with (txt "_") var_name = false ->
  - Z.of_nat (length (lines st)) <= line error - 1 < 0 ->
  exists cur_line : text,
    reverse (lines st) !! Z.to_nat (- line error) = Some cur_line /\
    (line error = 0 -> last (lines st) = Some cur_line) /\
    process_error error st =
    match rewrite_line var_name (message error) cur_line with
    | None => (Raise ReError, st)
    | Some new_line =>
        if text_eqb new_line cur_line then (Ok tt, st)
        else
          (Ok tt,
           State (fs st)
                 (<[(length (lines st) - S (Z.to_nat (- line error)))%nat := new_line]>
                    (lines st))
                 (S (total_fixed st))
                 (stdout st ++ [Renamed (JInt (line error)) var_name ("_"%char :: var_name)]))
    end.
Proof.
  intros Hname Hunder Hrange.
  set (k := Z.to_nat (- line error)).
  assert (Hk : (k < length (lines st))%nat) by (unfold k; lia).
  assert (Hidx : Z.to_nat (Z.of_nat (length (lines st)) + (line error - 1))
                 = (length (lines st) - S k)%nat) by (unfold k; lia).
  destruct (lookup_lt_is_Some_2 (lines st) (length (lines st) - S k)%nat) as [l Hl];
    [lia|].
  exists l. split; [|split].
  - rewrite reverse_lookup by exact Hk. exact Hl.
  - intros H0. rewrite last_lookup. rewrite <- Hl. f_equal. unfold k. lia.
  - rewrite process_error_unfold, Hname, Hunder.
    rewrite py_index_neg by exact Hrange. rewrite Hidx, Hl. reflexivity.
Qed.

(** ** Counting the fixes *)

Lemma renames_app (out1 out2 : list output) :
  renames (out1 ++ out2) = (renames out1 + renames out2)%nat.
Proof.
  induction out1 as [|o out1 IH]; simpl; [reflexivity|].
  destruct o; simpl; rewrite IH; reflexivity.
Qed.

Lemma process_error_counted (error : diagnostic) (st : state) :
  counted st (snd (process_error error st)).
Proof.
  rewrite process_error_unfold. unfold counted.
  repeat match goal with
         | |- context [match ?x with _ => _ end] => destruct x
         end; simpl; rewrite ?renames_app; simpl; lia.
Qed.

Lemma for_each_counted {A : Type} (body : A -> M unit) (l : list A) :
  (forall x st, counted st (snd (body x st))) ->
  forall st, counted st (snd (for_each body l st)).
Proof.
  intros Hbody. induction l as [|x l IH]; intros st; simpl.
  - unfold counted. lia.
  - rewrite bind_unfold. specialize (Hbody x st).
    destruct (body x st) as [[[]|e] st1]; simpl in *; [|exact Hbody].
    specialize (IH st1). unfold counted in *. lia.
Qed.

(** The body of the outer loop, case by case. *)
Lemma process_file_unfold (fd : file_data) (st : state) :
  process_file fd st =
  let st0 := State (fs st) (lines st) (total_fixed st)
                   (stdout st ++ [Processing (JStr (filePath fd))]) in
  match fs st !! resolve (filePath fd) with
  | Some f =>
      if readable f then
        match process_errors (messages fd)
                (State (fs st) (readlines f) (total_fixed st)
                       (stdout st ++ [Processing (JStr (filePath fd))])) with
        | (Ok _, st2) =>
            match write_lines (filePath fd) (lines st2) st2 with
            | (Ok _, st3) => print FileUpdated st3
            | (Raise e, st3) => (Raise e, st3)
            end
        | (Raise e, st2) => (Raise e, st2)
        end
      else (Raise (OSError (JStr (filePath fd))), st0)
  | None => (Raise (OSError (JStr (filePath fd))), st0)
  end.
Proof.
  unfold process_file, read_lines.
  rewrite bind_unfold. simpl. rewrite bind_unfold. rewrite bind_unfold.
  unfold read_text; simpl.
  destruct (fs st !! resolve (filePath fd)) as [f|]; [destruct (readable f)|]; reflexivity.
Qed.

Lemma process_errors_counted (msgs : list diagnostic) (st : state) :
  counted st (snd (process_errors msgs st)).
Proof. apply for_each_counted. apply process_error_counted. Qed.

Lemma process_file_counted (fd : file_data) (st : state) :
  counted st (snd (process_file fd st)).
Proof.
  rewrite process_file_unfold. cbv zeta.
  destruct (fs st !! resolve (filePath fd)) as [f|];
    [destruct (readable f)|];
    try (unfold counted; simpl; rewrite renames_app; simpl; lia).
  match goal with
  | |- context [process_errors ?m ?s] =>
      pose proof (process_errors_counted m s) as Hc;
      pose proof (for_each_process_error_frame (sorted_desc m) s) as [Hfs _];
      fold (process_errors m) in Hfs;
      destruct (process_errors m s) as [[[]|e] st1]
  end; simpl in *.
  - unfold write_lines.
    destruct (fs st1 !! resolve (filePath fd)) as [f1|]; [destruct (writable f1)|]; simpl;
      unfold counted in *; simpl in *; rewrite ?renames_app in *; simpl in *; lia.
  - unfold counted in *; simpl in *; rewrite ?renames_app in *; simpl in *; lia.
Qed.

(** The substitution reads the buffer only. *)
Lemma substitution_buffer (error : diagnostic) (st : state) :
  substitution error st = substitution error (buffer (lines st)).
Proof. reflexivity. Qed.

(** A pass that ends normally has counted the changes of [pass_changes]
    and leaves its buffer. *)
Lemma for_each_pass_changes (errors : list diagnostic) (st st' : state) :
  for_each process_error errors st = (Ok tt, st') ->
  total_fixed st' = (total_fixed st + (pass_changes parse_template errors (lines st)).1)%nat /\
  lines st' = (pass_changes parse_template errors (lines st)).2 /\
  fs st' = fs st.
Proof.
  revert st. induction errors as [|e errors IH]; intros st.
  - simpl. intros H; inversion H; subst st'. repeat split; lia.
  - rewrite for_each_cons. simpl pass_changes. rewrite <- substitution_buffer.
    pose proof (process_error_substitution e st) as Hstep.
    destruct (substitution e st) as [[[n cur] new]|].
    + destruct Hstep as [_ Hstep]. rewrite Hstep.
      destruct (text_eqb new cur); [apply IH|].
      intros Hrest. destruct (IH _ Hrest) as (H1 & H2 & H3).
      simpl in H1, H2, H3. simpl. repeat split; [lia|exact H2|exact H3].
    + destruct (process_error e st) as [[[]|x] st1]; [|discriminate].
      simpl in Hstep. subst st1. apply IH.
Qed.

(** An entry that ends normally has counted the changes of its pass and
    written the buffer the pass leaves. *)
Lemma process_file_changes (fd : file_data) (st st' : state) :
  process_file fd st = (Ok tt, st') ->
  exists f : file,
    fs st !! resolve (filePath fd) = Some f /\
    let p := pass_changes parse_template (sorted_desc (messages fd)) (readlines f) in
    total_fixed st' = (total_fixed st + p.1)%nat /\
    fs st' = <[resolve (filePath fd) := File (concat p.2) (readable f) true]> (fs st).
Proof.
  rewrite process_file_unfold. cbv zeta.
  destruct (fs st !! resolve (filePath fd)) as [f|] eqn:Ef; [|discriminate].
  destruct (readable f); [|discriminate].
  unfold process_errors.
  match goal with
  | |- context [for_each process_error ?m ?s] =>
      pose proof (for_each_pass_changes m s) as Hpass;
      destruct (for_each process_error m s) as [[[]|e] st1]; [|discriminate]
  end.
  destruct (Hpass st1 eq_refl) as (H1 & H2 & H3). simpl in H1, H2, H3.
  unfold write_lines. rewrite H3, Ef.
  destruct (writable f); [|discriminate].
  intros H; inversion H; subst st'; clear H. exists f. simpl.
  rewrite H2. auto.
Qed.

Lemma for_each_run_changes (r : list file_data) (st st' : state) :
  for_each process_file r st = (Ok tt, st') ->
  total_fixed st' = (total_fixed st + run_changes resolve parse_template r (fs st))%nat.
Proof.
  revert st. induction r as [|fd r IH]; intros st.
  - simpl. intros H; inversion H; subst st'. lia.
  - rewrite for_each_cons.
    destruct (process_file fd st) as [[[]|e] st1] eqn:Efd; [|discriminate].
    destruct (process_file_changes fd st st1 Efd) as (f & Hf & Htot & Hfs).
    intros Hrest. rewrite (IH _ Hrest). simpl run_changes. rewrite Hf.
    cbv zeta in Htot, Hfs. rewrite Htot, Hfs. lia.
Qed.

(** C8. A substitution attempt that leaves the text of the line unchanged
    changes nothing: neither the buffer nor the counter. One that changes it
    stores the new text, adds one to the counter and prints one rename. The
    counter of a pass that ends normally has grown by the number of its
    messages whose substitution changed the text of its line. At the end of
    a run on a report of the expected shape the total is the number of
    (file, message) pairs whose substitution changed the text of the line,
    counted from the report and the files alone; it is the number of renames
    printed and the number of the last line printed. *)
Theorem fix_counter_counts_changes :
  (forall (error : diagnostic) (st : state),
      match substitution error st with
      | Some (n, cur_line, new_line) =>
          if text_eqb new_line cur_line then process_error error st = (Ok tt, st)
          else
            fst (process_error error st) = Ok tt /\
            lines (snd (process_error error st)) = <[n := new_line]> (lines st) /\
            total_fixed (snd (process_error error st)) = S (total_fixed st) /\
            renames (stdout (snd (process_error error st))) = S (renames (stdout st))
      | None =>
          snd (process_error error st) = st
      end) /\
  (forall (msgs : list diagnostic) (st st' : state),
      process_errors msgs st = (Ok tt, st') ->
      total_fixed st'
      = (total_fixed st
         + (pass_changes parse_template (sorted_desc msgs) (lines st)).1)%nat) /\
  (forall (st st' : state) (j : json) (r : list file_data),
      fst (load_report st) = Ok j ->
      as_report j = Some r ->
      main st = (Ok tt, st') ->
      total_fixed st' = run_changes resolve parse_template r (fs st) /\
      (stdout st = [] -> total_fixed st' = renames (stdout st')) /\
      last (stdout st') = Some (TotalFixes (total_fixed st'))).
Proof.
  split; [|split].
  - intros error st. pose proof (process_error_substitution error st) as H.
    destruct (substitution error st) as [[[n cur] new]|]; [|exact H].
    destruct H as [_ H]. rewrite H.
    destruct (text_eqb new cur); [reflexivity|]. simpl.
    rewrite renames_app. simpl. repeat split; lia.
  - intros msgs st st' Hrun. apply (for_each_pass_changes _ _ _ Hrun).
  - intros st st' j r Hload Hr Hmain.
    rewrite (main_shaped st j r Hload Hr), process_report_unfold in Hmain.
    match type of Hmain with
    | context [for_each ?b r ?s] =>
        pose proof (for_each_counted b r process_file_counted s) as Hc;
        pose proof (for_each_run_changes r s) as Hn;
        destruct (for_each b r s) as [[[]|e] st1]; [|discriminate]
    end.
    specialize (Hn st1 eq_refl). simpl in Hn.
    inversion Hmain; subst st'; clear Hmain. simpl.
    split; [exact Hn|]. split.
    + intros Hout. unfold counted in Hc. simpl in Hc. rewrite Hout in Hc. simpl in Hc.
      rewrite renames_app. simpl. lia.
    + rewrite last_snoc. reflexivity.
Qed.


(** ** Failures *)


(** An entry that raises leaves every file as it was. *)
Lemma process_file_raise_fs (fd : file_data) (st st' : state) (e : exn) :
  process_file fd st = (Raise e, st') -> fs st' = fs st.
Proof.
  rewrite process_file_unfold. cbv zeta.
  destruct (fs st !! resolve (filePath fd)) as [f|]; [destruct (readable f)|];
    try (intros H; inversion H; reflexivity).
  match goal with
  | |- context [process_errors ?m ?s] =>
      pose proof (for_each_process_error_frame (sorted_desc m) s) as [Hfs _];
      fold (process_errors m) in Hfs;
      destruct (process_errors m s) as [[[]|e1] st1]
  end; simpl in Hfs.
  - unfold write_lines.
    destruct (fs st1 !! resolve (filePath fd)) as [f1|]; [destruct (writable f1)|]; simpl;
      intros H; inversion H; subst; assumption.
  - intros H; inversion H; subst; assumption.
Qed.




(** ** The order of the messages *)

Lemma insert_desc_perm (e : diagnostic) (l : list diagnostic) :
  insert_desc e l ≡ₚ e :: l.
Proof.
  induction l as [|x l IH]; simpl; [reflexivity|].
  destruct (line e <? line x); [|reflexivity].
  rewrite IH. apply Permutation_swap.
Qed.

Lemma sorted_desc_perm (msgs : list diagnostic) : sorted_desc msgs ≡ₚ msgs.
Proof.
  induction msgs as [|e msgs IH]; simpl; [reflexivity|].
  rewrite insert_desc_perm, IH. reflexivity.
Qed.

Lemma insert_desc_sorted (e : diagnostic) (l : list diagnostic) :
  StronglySorted line_ge l -> StronglySorted line_ge (insert_desc e l).
Proof.
  induction l as [|x l IH]; simpl; intros Hl.
  - repeat constructor.
  - apply StronglySorted_inv in Hl as [Hl Hx].
    destruct (line e <? line x) eqn:E.
    + constructor; [auto|].
      rewrite insert_desc_perm. constructor; [unfold line_ge; lia|assumption].
    + constructor; [constructor; assumption|].
      constructor; [unfold line_ge; lia|].
      eapply Forall_impl; [exact Hx|]. unfold line_ge. intros; simpl in *; lia.
Qed.

Lemma sorted_desc_sorted (msgs : list diagnostic) :
  StronglySorted line_ge (sorted_desc msgs).
Proof.
  induction msgs as [|e msgs IH]; simpl; [constructor|].
  apply insert_desc_sorted, IH.
Qed.

Lemma insert_desc_strict (e : diagnostic) (l : list diagnostic) :
  Forall (fun x => line x <> line e) l ->
  StronglySorted line_gt l -> StronglySorted line_gt (insert_desc e l).
Proof.
  induction l as [|x l IH]; simpl; intros Hne Hl.
  - repeat constructor.
  - apply StronglySorted_inv in Hl as [Hl Hx].
    apply Forall_cons in Hne as [Hxe Hne].
    destruct (line e <? line x) eqn:E.
    + constructor; [auto|].
      rewrite insert_desc_perm. constructor; [unfold line_gt; lia|assumption].
    + constructor; [constructor; assumption|].
      constructor; [unfold line_gt; lia|].
      eapply Forall_impl; [exact Hx|]. unfold line_gt. intros; simpl in *; lia.
Qed.

Lemma sorted_desc_strict (msgs : list diagnostic) :
  NoDup (line <$> msgs) -> StronglySorted line_gt (sorted_desc msgs).
Proof.
  induction msgs as [|e msgs IH]; simpl; intros Hnd; [constructor|].
  apply NoDup_cons in Hnd as [Hnotin Hnd].
  apply insert_desc_strict; [|auto].
  rewrite sorted_desc_perm. apply Forall_forall. intros x Hx Heq.
  apply Hnotin. rewrite <- Heq. apply list_elem_of_fmap. eauto.
Qed.

#[local] Instance Z_ge_antisym : AntiSymm (=) (fun a b : Z => b <= a).
Proof. intros a b H1 H2. lia. Qed.

Lemma sorted_desc_lines (msgs msgs' : list diagnostic) :
  msgs' ≡ₚ msgs -> line <$> sorted_desc msgs' = line <$> sorted_desc msgs.
Proof.
  intros Hp.
  apply (StronglySorted_unique (fun a b : Z => b <= a)).
  - apply (StronglySorted_fmap _ line_ge); [|apply sorted_desc_sorted].
    intros a b H; exact H.
  - apply (StronglySorted_fmap _ line_ge); [|apply sorted_desc_sorted].
    intros a b H; exact H.
  - rewrite !sorted_desc_perm, Hp. reflexivity.
Qed.

(** ** The lines a pass can change *)

Lemma process_error_lines (error : diagnostic) (st : state) :
  lines (snd (process_error error st)) = lines st \/
  exists n new_line,
    py_index (lines st) (line error - 1) = Some n /\
    lines (snd (process_error error st)) = <[n := new_line]> (lines st).
Proof.
  rewrite process_error_unfold.
  destruct (extract_name (message error)) as [v|]; [|auto].
  destruct (starts_with (txt "_") v); [auto|].
  destruct (py_index (lines st) (line error - 1)) as [n|] eqn:En; [|auto].
  destruct (lines st !! n) as [l|] eqn:El; [|auto].
  destruct (rewrite_line v (message error) l) as [new|]; [|auto].
  destruct (text_eqb new l); [auto|]. right. exists n, new. auto.
Qed.

(** A line that no message of the list indexes is left alone. *)
Lemma for_each_untargeted (errors : list diagnostic) (st : state) (i : nat) :
  Forall (fun m => py_index (lines st) (line m - 1) <> Some i) errors ->
  lines (snd (for_each process_error errors st)) !! i = lines st !! i.
Proof.
  revert st. induction errors as [|e errors IH]; intros st Hall; simpl; [reflexivity|].
  apply Forall_cons in Hall as [He Hall].
  rewrite bind_unfold.
  destruct (process_error_frame e st) as [_ Hlen].
  pose proof (process_error_lines e st) as Hstep.
  destruct (process_error e st) as [[[]|x] st1]; simpl in *.
  - rewrite IH.
    + destruct Hstep as [->|(n & new & Hn & ->)]; [reflexivity|].
      apply list_lookup_insert_ne. congruence.
    + eapply Forall_impl; [exact Hall|]. intros m Hm. simpl in *.
      rewrite (py_index_length (lines st1) (lines st)) by exact Hlen. exact Hm.
  - destruct Hstep as [->|(n & new & Hn & ->)]; [reflexivity|].
    apply list_lookup_insert_ne. congruence.
Qed.

(** C6 (amended). Whatever the order of the report, the messages of a file
    are all processed, in descending order of their line numbers: never a
    lower line before a higher one, strictly descending when no two
    messages share a line number, and with the same sequence of line
    numbers for every order of the report. Messages with line numbers above
    [n] leave the text of line [n] alone when [n] is at least 1, so the
    substitution later applied at line [n] reads a text no edit at a higher
    line has touched. *)
Theorem descending_order (msgs : list diagnostic) :
  sorted_desc msgs ≡ₚ msgs /\
  StronglySorted line_ge (sorted_desc msgs) /\
  (NoDup (line <$> msgs) -> StronglySorted line_gt (sorted_desc msgs)) /\
  (forall msgs', msgs' ≡ₚ msgs ->
     line <$> sorted_desc msgs' = line <$> sorted_desc msgs) /\
  (forall (hi : list diagnostic) (n : Z) (st : state),
     1 <= n ->
     Forall (fun m => n < line m) hi ->
     lines (snd (for_each process_error hi st)) !! Z.to_nat (n - 1)
     = lines st !! Z.to_nat (n - 1)).
Proof.
  split; [apply sorted_desc_perm|].
  split; [apply sorted_desc_sorted|].
  split; [apply sorted_desc_strict|].
  split; [intros msgs'; apply sorted_desc_lines|].
  intros hi n st Hn Hhi. apply for_each_untargeted.
  eapply Forall_impl; [exact Hhi|]. intros m Hm. simpl in Hm.
  unfold py_index.
  destruct ((0 <=? line m - 1) && (line m - 1 <? Z.of_nat (length (lines st)))).
  - intros H. inversion H. lia.
  - destruct (- Z.of_nat (length (lines st)) <=? line m - 1) eqn:E1;
      destruct (line m - 1 <? 0) eqn:E2; simpl; try discriminate. lia.
Qed.

(** C10 (amended). Frame property: after an entry is processed, every line
    of the buffer whose index is not the Python index [line - 1] of some
    message of the entry, counted from the end of the buffer when it is
    negative, is the line that was read, and the buffer has as many lines
    as were read; the file is written back as the concatenation of that
    buffer, or, when the entry raises, not written at all. *)
Theorem untargeted_lines_unchanged (fd : file_data) (st st' : state)
    (o : outcome unit) (f : file) (i : nat) :
  fs st !! resolve (filePath fd) = Some f ->
  readable f = true ->
  Forall (fun m => py_index (readlines f) (line m - 1) <> Some i) (messages fd) ->
  process_file fd st = (o, st') ->
  lines st' !! i = readlines f !! i /\
  length (lines st') = length (readlines f) /\
  match o with
  | Ok _ => exists f', fs st' !! resolve (filePath fd) = Some f' /\
                       content f' = concat (lines st')
  | Raise _ => fs st' = fs st
  end.
Proof.
  intros Hf Hr Hall Hrun.
  pose proof Hrun as Hrun0.
  rewrite process_file_unfold in Hrun. cbv zeta in Hrun. rewrite Hf, Hr in Hrun.
  match type of Hrun with
  | context [process_errors ?m ?s] =>
      pose proof (for_each_process_error_frame (sorted_desc m) s) as [Hfs Hlen];
      pose proof (for_each_untargeted (sorted_desc m) s i) as Hi;
      fold (process_errors m) in Hfs, Hlen, Hi;
      destruct (process_errors m s) as [[[]|e1] st1]
  end; simpl in Hfs, Hlen, Hi.
  - assert (Hi' : lines st1 !! i = readlines f !! i).
    { apply Hi. rewrite sorted_desc_perm. exact Hall. }
    unfold write_lines in Hrun. rewrite Hfs, Hf in Hrun.
    destruct (writable f) eqn:Ew.
    + simpl in Hrun. inversion Hrun; subst o st'; clear Hrun. simpl.
      split; [exact Hi'|]. split; [exact Hlen|].
      eexists. rewrite lookup_insert_eq. split; reflexivity.
    + inversion Hrun; subst o st'; clear Hrun.
      split; [exact Hi'|]. split; [exact Hlen|].
      eapply process_file_raise_fs. exact Hrun0.
  - inversion Hrun; subst o st'; clear Hrun.
    split; [|split; [exact Hlen|]].
    + apply Hi. rewrite sorted_desc_perm. exact Hall.
    + eapply process_file_raise_fs. exact Hrun0.
Qed.

End Properties.

(** * Word boundaries and idempotence *)

(** ** Characters *)

Lemma word_not_space (c : ascii) : is_word c = true -> is_space c = false.
Proof. destruct c as [[] [] [] [] [] [] [] []]; vm_compute; congruence. Qed.

Lemma eqb_word_sep (a b : ascii) :
  is_word a = true -> is_word b = false -> Ascii.eqb a b = false.
Proof.
  intros Ha Hb. apply Ascii.eqb_neq. intros ->. congruence.
Qed.

Lemma text_eqb_true (a b : text) : text_eqb a b = true <-> a = b.
Proof. unfold text_eqb. apply bool_decide_eq_true. Qed.

Lemma text_eqb_false (a b : text) : text_eqb a b = false <-> a <> b.
Proof. unfold text_eqb. apply bool_decide_eq_false. Qed.

Lemma text_eqb_refl (a : text) : text_eqb a a = true.
Proof. apply text_eqb_true. reflexivity. Qed.

(** ** Tokens *)

Lemma flatten_app (ts1 ts2 : list token) :
  flatten (ts1 ++ ts2) = flatten ts1 ++ flatten ts2.
Proof.
  induction ts1 as [|t ts1 IH]; simpl; [reflexivity|].
  rewrite IH, app_assoc. reflexivity.
Qed.

Lemma flatten_tokenize (s : text) : flatten (tokenize s) = s.
Proof.
  induction s as [|c s IH]; simpl; [reflexivity|].
  destruct (is_word c).
  - destruct (tokenize s) as [|[w|d] ts]; simpl in *; rewrite <- IH; reflexivity.
  - simpl. rewrite IH. reflexivity.
Qed.

Lemma well_formed_cons (t : token) (ts : list token) :
  well_formed (t :: ts) = true <->
  token_ok t = true /\
  (match t with TWord _ => starts_word ts = false | TSep _ => True end) /\
  well_formed ts = true.
Proof.
  simpl. rewrite !andb_true_iff. destruct t; rewrite ?negb_true_iff; tauto.
Qed.

Lemma token_ok_word (w : text) :
  token_ok (TWord w) = true <-> w <> [] /\ all_word w = true.
Proof.
  destruct w as [|a w]; simpl; split.
  - discriminate.
  - intros [H _]. exfalso. apply H. reflexivity.
  - intros H; split; [discriminate|exact H].
  - intros [_ H]. exact H.
Qed.

Lemma well_formed_tokenize (s : text) : well_formed (tokenize s) = true.
Proof.
  induction s as [|c s IH]; [reflexivity|]. simpl.
  destruct (is_word c) eqn:Ec.
  - destruct (tokenize s) as [|[w|d] ts] eqn:Et.
    + simpl. rewrite Ec. reflexivity.
    + apply well_formed_cons in IH as (Hok & Hadj & Hwf).
      apply well_formed_cons. split; [|split; assumption].
      simpl. rewrite Ec. apply token_ok_word in Hok as [_ Hw]. exact Hw.
    + apply well_formed_cons. split; [simpl; rewrite Ec; reflexivity|].
      split; [reflexivity|exact IH].
  - apply well_formed_cons. split; [simpl; rewrite Ec; reflexivity|].
    split; [exact I|exact IH].
Qed.

Lemma well_formed_app_r (ts1 ts2 : list token) :
  well_formed (ts1 ++ ts2) = true -> well_formed ts2 = true.
Proof.
  induction ts1 as [|t ts1 IH]; [auto|]. simpl app.
  intros H. apply well_formed_cons in H as (_ & _ & H). auto.
Qed.

(** What follows a word is no word character. *)
Lemma head_flatten_sep (ts : list token) :
  well_formed ts = true -> starts_word ts = false ->
  word_at (head (flatten ts)) = false.
Proof.
  destruct ts as [|[w|c] ts]; simpl; try reflexivity; try discriminate.
  intros H _. apply andb_true_iff in H as [H _]. apply andb_true_iff in H as [H _].
  apply negb_true_iff in H. exact H.
Qed.

Lemma head_flatten_word (ts : list token) :
  well_formed ts = true -> starts_word ts = true ->
  word_at (head (flatten ts)) = true.
Proof.
  destruct ts as [|[w|c] ts]; simpl; try discriminate.
  intros H _. apply andb_true_iff in H as [H _]. apply andb_true_iff in H as [H _].
  destruct w as [|a w]; [discriminate|]. simpl in *.
  apply andb_true_iff in H as [H _]. exact H.
Qed.

(** ** The matcher on literals *)

Lemma eat_app (p : text) (prev : option ascii) (s : text) :
  eat p prev (p ++ s) = Some (last_char prev p, s).
Proof.
  revert prev. induction p as [|a p IH]; intros prev; simpl; [reflexivity|].
  rewrite Ascii.eqb_refl. apply IH.
Qed.

Lemma eat_Some (p : text) (prev : option ascii) (s : text) (cur : cursor) :
  eat p prev s = Some cur -> s = p ++ snd cur /\ fst cur = last_char prev p.
Proof.
  revert prev s. induction p as [|a p IH]; intros prev s; simpl.
  - intros H; inversion H; subst; auto.
  - destruct s as [|b s]; [discriminate|].
    destruct (Ascii.eqb a b) eqn:E; [|discriminate].
    apply Ascii.eqb_eq in E. subst b. intros H.
    apply IH in H as [-> ->]. auto.
Qed.

Lemma last_char_app (prev : option ascii) (s1 s2 : text) :
  last_char prev (s1 ++ s2) = last_char (last_char prev s1) s2.
Proof.
  revert prev. induction s1 as [|c s1 IH]; intros prev; simpl; [reflexivity|apply IH].
Qed.

Lemma word_at_last_char (prev : option ascii) (w : text) :
  w <> [] -> all_word w = true -> word_at (last_char prev w) = true.
Proof.
  revert prev. induction w as [|c w IH]; intros prev Hne Hw; [congruence|].
  simpl in *. apply andb_true_iff in Hw as [Hc Hw].
  destruct w as [|d w]; [simpl; exact Hc|].
  apply IH; [discriminate|exact Hw].
Qed.

(** ** The scan of [re.sub] *)

Lemma sub_scan_skip (r : regex) (e : text -> text) (pre : text)
    (prev : option ascii) (s : text) :
  sub_scan r e prev (pre ++ s) (length pre) = sub_scan r e (last_char prev pre) s 0.
Proof.
  revert prev. induction pre as [|c pre IH]; intros prev; simpl.
  - destruct s; reflexivity.
  - apply IH.
Qed.

Lemma sub_scan_step (r : regex) (e : text -> text) (prev : option ascii)
    (c : ascii) (s : text) :
  sub_scan r e prev (c :: s) 0 =
  match match_at r (prev, c :: s) with
  | Some (S n, _) => e (take (S n) (c :: s)) ++ sub_scan r e (Some c) s n
  | _ => c :: sub_scan r e (Some c) s 0
  end.
Proof. reflexivity. Qed.

Lemma sub_scan_match (r : regex) (e : text -> text) (prev : option ascii)
    (pre s : text) (gs : list text) :
  pre <> [] ->
  match_at r (prev, pre ++ s) = Some (length pre, gs) ->
  sub_scan r e prev (pre ++ s) 0 = e pre ++ sub_scan r e (last_char prev pre) s 0.
Proof.
  destruct pre as [|c pre]; [congruence|]. intros _ Hm.
  simpl app. rewrite sub_scan_step. simpl app in Hm.
  change (length (c :: pre)) with (S (length pre)) in Hm.
  rewrite Hm. cbv beta iota.
  rewrite sub_scan_skip. f_equal.
  change (c :: pre ++ s) with ((c :: pre) ++ s).
  change (S (length pre)) with (length (c :: pre)).
  rewrite take_app_length. reflexivity.
Qed.

Lemma sub_scan_no_match (r : regex) (e : text -> text) (prev : option ascii)
    (c : ascii) (s : text) :
  match_at r (prev, c :: s) = None ->
  sub_scan r e prev (c :: s) 0 = c :: sub_scan r e (Some c) s 0.
Proof. intros Hm. rewrite sub_scan_step, Hm. reflexivity. Qed.

(** ** Whole words *)

Lemma match_at_word_re (v : text) (prev : option ascii) (s : text) :
  match_at (word_re v) (prev, s) =
  if at_boundary (prev, s) then
    match eat v prev s with
    | Some cur' =>
        if at_boundary cur' then Some ((length s - length (snd cur'))%nat, [])
        else None
    | None => None
    end
  else None.
Proof. reflexivity. Qed.

(** Two splits of a text into a word and a rest that starts with no word
    character are the same split. *)
Lemma word_split_unique (w1 w2 s1 s2 : text) :
  all_word w1 = true -> all_word w2 = true ->
  word_at (head s1) = false -> word_at (head s2) = false ->
  w1 ++ s1 = w2 ++ s2 -> w1 = w2 /\ s1 = s2.
Proof.
  revert w2. induction w1 as [|a w1 IH]; intros w2 H1 H2 Hs1 Hs2 Heq.
  - destruct w2 as [|b w2]; [auto|]. simpl in *. subst s1. simpl in *.
    apply andb_true_iff in H2 as [H2 _]. congruence.
  - destruct w2 as [|b w2]; simpl in *.
    + subst s2. simpl in *. apply andb_true_iff in H1 as [H1 _]. congruence.
    + inversion Heq; subst.
      apply andb_true_iff in H1 as [_ H1]. apply andb_true_iff in H2 as [_ H2].
      destruct (IH w2 H1 H2 Hs1 Hs2) as [-> ->]; auto.
Qed.

Section Word.
Context (v : text).
Hypothesis v_word : all_word v = true.
Hypothesis v_nonempty : v <> [].

(** After a word character no whole-word match begins. *)
Lemma match_at_word_inside (prev : option ascii) (c : ascii) (s : text) :
  word_at prev = true -> is_word c = true ->
  match_at (word_re v) (prev, c :: s) = None.
Proof.
  intros Hp Hc. rewrite match_at_word_re. unfold at_boundary. simpl.
  rewrite Hp, Hc. reflexivity.
Qed.

(** On a character that is no word character no match begins. *)
Lemma match_at_word_sep (prev : option ascii) (c : ascii) (s : text) :
  is_word c = false -> match_at (word_re v) (prev, c :: s) = None.
Proof.
  intros Hc. rewrite match_at_word_re.
  assert (He : eat v prev (c :: s) = None).
  { destruct v as [|a v']; [congruence|]. simpl in *.
    apply andb_true_iff in v_word as [Ha _].
    rewrite (eqb_word_sep a c Ha Hc). reflexivity. }
  rewrite He. destruct (at_boundary _); reflexivity.
Qed.

Lemma sub_scan_word_inside (e : text -> text) (w : text) (prev : option ascii)
    (s : text) :
  word_at prev = true -> all_word w = true ->
  sub_scan (word_re v) e prev (w ++ s) 0
  = w ++ sub_scan (word_re v) e (last_char prev w) s 0.
Proof.
  revert prev. induction w as [|c w IH]; intros prev Hp Hw; simpl app; [reflexivity|].
  simpl in Hw. apply andb_true_iff in Hw as [Hc Hw].
  rewrite sub_scan_no_match by (apply match_at_word_inside; assumption).
  simpl last_char. rewrite IH by assumption. reflexivity.
Qed.

(** At the start of a word the match is the whole word, when it is [v]. *)
Lemma match_at_word_start (prev : option ascii) (w s : text) :
  word_at prev = false -> w <> [] -> all_word w = true ->
  word_at (head s) = false ->
  match_at (word_re v) (prev, w ++ s) =
  if text_eqb w v then Some (length w, []) else None.
Proof.
  intros Hp Hne Hw Hs. rewrite match_at_word_re.
  assert (Hb : at_boundary (prev, w ++ s) = true).
  { unfold at_boundary. simpl. rewrite Hp. destruct w as [|a w]; [congruence|].
    simpl in *. apply andb_true_iff in Hw as [Ha _]. rewrite Ha. reflexivity. }
  rewrite Hb.
  destruct (text_eqb w v) eqn:E.
  - apply text_eqb_true in E. subst w. rewrite eat_app.
    unfold at_boundary. simpl.
    rewrite (word_at_last_char prev v v_nonempty v_word), Hs. simpl.
    rewrite length_app. f_equal. f_equal. lia.
  - apply text_eqb_false in E.
    destruct (eat v prev (w ++ s)) as [[p' s']|] eqn:Ee; [|reflexivity].
    apply eat_Some in Ee as [Heq Hp']. simpl in *.
    unfold at_boundary. simpl. subst p'.
    rewrite (word_at_last_char prev v v_nonempty v_word).
    destruct (word_at (head s')) eqn:Hs'; [reflexivity|]. exfalso.
    destruct (word_split_unique w v s s' Hw v_word Hs Hs' Heq). congruence.
Qed.

(** [re.sub] of the whole-word pattern renames the word tokens equal to [v]. *)
Lemma sub_scan_word_tokens (ts : list token) (prev : option ascii) :
  well_formed ts = true ->
  (starts_word ts = true -> word_at prev = false) ->
  sub_scan (word_re v) (fun _ => new_name v) prev (flatten ts) 0
  = flatten (rename_words v ts).
Proof.
  revert prev. induction ts as [|t ts IH]; intros prev Hwf Hprev; [reflexivity|].
  apply well_formed_cons in Hwf as (Hok & Hadj & Hwf).
  destruct t as [w|c]; simpl flatten.
  - apply token_ok_word in Hok as [Hne Hw].
    specialize (Hprev eq_refl).
    pose proof (head_flatten_sep ts Hwf Hadj) as Hhead.
    pose proof (match_at_word_start prev w (flatten ts) Hprev Hne Hw Hhead) as Hm.
    unfold rename_words. simpl map. unfold rename_token at 1.
    destruct (text_eqb w v) eqn:E.
    + rewrite (sub_scan_match _ _ _ _ _ _ Hne Hm).
      simpl flatten. f_equal. apply IH; [exact Hwf|]. rewrite Hadj. discriminate.
    + destruct w as [|a w]; [congruence|]. simpl app.
      simpl in Hw. apply andb_true_iff in Hw as [Ha Hw].
      rewrite sub_scan_no_match by exact Hm.
      rewrite sub_scan_word_inside by (simpl; assumption).
      simpl flatten. simpl app. f_equal. f_equal.
      apply IH; [exact Hwf|]. rewrite Hadj. discriminate.
  - simpl in Hok. apply negb_true_iff in Hok.
    rewrite sub_scan_no_match by (apply match_at_word_sep; exact Hok).
    unfold rename_words. simpl. f_equal.
    apply IH; [exact Hwf|]. intros _. simpl. exact Hok.
Qed.

End Word.

(** ** Greedy runs *)

Lemma star_run {R : Type} (p : ascii -> bool) (k : @cont R) (ws s : text)
    (prev : option ascii) (gs : list text) :
  forallb p ws = true ->
  match s with c :: _ => p c = false | [] => True end ->
  (forall prev' c s', p c = true -> k (prev', c :: s') gs = None) ->
  star p k prev (ws ++ s) gs = k (last_char prev ws, s) gs.
Proof.
  intros Hws Hs Hk. revert prev.
  induction ws as [|a ws IH]; intros prev; simpl.
  - destruct s as [|c s]; [reflexivity|]. simpl. rewrite Hs. reflexivity.
  - simpl in Hws. apply andb_true_iff in Hws as [Ha Hws].
    rewrite Ha, (IH Hws).
    destruct (k (last_char (Some a) ws, s) gs) eqn:E; [reflexivity|].
    apply Hk. exact Ha.
Qed.

Lemma skip_ws_split (ts : list token) :
  flatten ts = ws_prefix ts ++ flatten (skip_ws ts).
Proof.
  induction ts as [|[w|c] ts IH]; simpl; try reflexivity.
  destruct (is_space c); simpl; [rewrite <- IH|]; reflexivity.
Qed.

Lemma ws_prefix_spaces (ts : list token) : forallb is_space (ws_prefix ts) = true.
Proof.
  induction ts as [|[w|c] ts IH]; simpl; try reflexivity.
  destruct (is_space c) eqn:E; simpl; [rewrite E, IH|]; reflexivity.
Qed.

Lemma skip_ws_well_formed (ts : list token) :
  well_formed ts = true -> well_formed (skip_ws ts) = true.
Proof.
  induction ts as [|[w|c] ts IH]; simpl; auto.
  intros H. destruct (is_space c); [|exact H].
  apply IH. apply andb_true_iff in H as [_ H]. exact H.
Qed.

Lemma skip_ws_head (ts : list token) :
  well_formed ts = true ->
  match flatten (skip_ws ts) with c :: _ => is_space c = false | [] => True end.
Proof.
  induction ts as [|[w|c] ts IH]; simpl; auto.
  - intros H. apply andb_true_iff in H as [H _]. apply andb_true_iff in H as [H _].
    destruct w as [|a w]; [discriminate|]. simpl in *.
    apply andb_true_iff in H as [H _]. apply word_not_space. exact H.
  - intros H. destruct (is_space c) eqn:E; [|simpl; exact E].
    apply IH. apply andb_true_iff in H as [_ H]. exact H.
Qed.

(** Spaces, then a part that cannot begin with a space. *)
Lemma rmatch_spaces {R : Type} (r : regex) (k : @cont R) (ts : list token)
    (prev : option ascii) (gs : list text) :
  well_formed ts = true ->
  (forall prev' c s', is_space c = true -> rmatch r k (prev', c :: s') gs = None) ->
  rmatch (Seq (Star is_space) r) k (prev, flatten ts) gs
  = rmatch r k (last_char prev (ws_prefix ts), flatten (skip_ws ts)) gs.
Proof.
  intros Hwf Hk. simpl. rewrite (skip_ws_split ts) at 1.
  apply star_run; [apply ws_prefix_spaces|apply skip_ws_head; exact Hwf|exact Hk].
Qed.

Lemma rmatch_lit_cons_space {R : Type} (a : ascii) (u : text) (r : regex)
    (k : @cont R) (prev : option ascii) (c : ascii) (s : text) (gs : list text) :
  is_space a = false -> is_space c = true ->
  rmatch (Seq (Lit (a :: u)) r) k (prev, c :: s) gs = None.
Proof.
  intros Ha Hc. simpl.
  destruct (Ascii.eqb a c) eqn:E; [|reflexivity].
  apply Ascii.eqb_eq in E. congruence.
Qed.

Lemma rmatch_lit_space {R : Type} (a : ascii) (u : text)
    (k : @cont R) (prev : option ascii) (c : ascii) (s : text) (gs : list text) :
  is_space a = false -> is_space c = true ->
  rmatch (Lit (a :: u)) k (prev, c :: s) gs = None.
Proof.
  intros Ha Hc. simpl.
  destruct (Ascii.eqb a c) eqn:E; [|reflexivity].
  apply Ascii.eqb_eq in E. congruence.
Qed.

(** Spaces and a literal cannot begin at a word character or at the end. *)
Lemma rmatch_spaces_lit_word {R : Type} (a : ascii) (r : regex) (k : @cont R)
    (prev : option ascii) (s : text) (gs : list text) :
  is_word a = false ->
  word_at (head s) = true \/ s = [] ->
  rmatch (Seq (Star is_space) (Seq (Lit [a]) r)) k (prev, s) gs = None /\
  rmatch (Seq (Star is_space) (Lit [a])) k (prev, s) gs = None.
Proof.
  intros Ha [Hs| ->]; [|split; reflexivity].
  destruct s as [|d s]; [discriminate|]. simpl in Hs.
  simpl. rewrite (word_not_space d Hs).
  assert (E : Ascii.eqb a d = false).
  { apply Ascii.eqb_neq. intros ->. congruence. }
  rewrite E. split; reflexivity.
Qed.

(** A word literal followed by a part that needs a separator next matches
    a whole word token. *)
Lemma rmatch_lit_word {R : Type} (u : text) (r : regex) (k : @cont R)
    (ts : list token) (prev : option ascii) (gs : list text) :
  u <> [] -> all_word u = true ->
  well_formed ts = true ->
  (forall p s, word_at (head s) = true \/ s = [] -> rmatch r k (p, s) gs = None) ->
  rmatch (Seq (Lit u) r) k (prev, flatten ts) gs =
  match ts with
  | TWord w :: ts' =>
      if text_eqb w u then rmatch r k (last_char prev u, flatten ts') gs else None
  | _ => None
  end.
Proof.
  intros Hne Hu Hwf Hr. simpl rmatch.
  destruct ts as [|[w|c] ts'].
  - destruct u; [congruence|reflexivity].
  - apply well_formed_cons in Hwf as (Hok & Hadj & Hwf).
    apply token_ok_word in Hok as [Hwne Hw].
    pose proof (head_flatten_sep ts' Hwf Hadj) as Hhead.
    simpl flatten. destruct (text_eqb w u) eqn:E.
    + apply text_eqb_true in E. subst w. simpl. rewrite eat_app. reflexivity.
    + apply text_eqb_false in E. simpl.
      destruct (eat u prev (w ++ flatten ts')) as [[p' s']|] eqn:Ee; [|reflexivity].
      apply eat_Some in Ee as [Heq _]. simpl in Heq.
      destruct (word_at (head s')) eqn:Hs'.
      * apply Hr. left. exact Hs'.
      * exfalso.
        destruct (word_split_unique w u _ s' Hw Hu Hhead Hs' Heq). congruence.
  - apply well_formed_cons in Hwf as (Hok & _ & _). simpl in Hok.
    apply negb_true_iff in Hok.
    destruct u as [|a u]; [congruence|]. simpl in *.
    apply andb_true_iff in Hu as [Ha _].
    rewrite (eqb_word_sep a c Ha Hok). reflexivity.
Qed.

(** A one-character separator literal matches a separator token. *)
Lemma rmatch_lit_sep {R : Type} (a : ascii) (k : @cont R)
    (ts : list token) (prev : option ascii) (gs : list text) :
  is_word a = false ->
  well_formed ts = true ->
  rmatch (Lit [a]) k (prev, flatten ts) gs =
  match ts with
  | TSep c :: ts' => if Ascii.eqb c a then k (Some c, flatten ts') gs else None
  | _ => None
  end.
Proof.
  intros Ha Hwf. simpl rmatch. destruct ts as [|[w|c] ts']; [reflexivity| |].
  - apply well_formed_cons in Hwf as (Hok & _ & _).
    apply token_ok_word in Hok as [Hwne Hw].
    destruct w as [|b w]; [congruence|]. simpl in *.
    apply andb_true_iff in Hw as [Hb _].
    assert (E : Ascii.eqb a b = false).
    { apply Ascii.eqb_neq. intros ->. congruence. }
    rewrite E. reflexivity.
  - simpl. rewrite (Ascii.eqb_sym a c). destruct (Ascii.eqb c a); reflexivity.
Qed.

(** ** Catch clauses *)

Lemma skip_ws_suffix (ts : list token) : exists pre, ts = pre ++ skip_ws ts.
Proof.
  induction ts as [|[w|c] ts IH]; simpl.
  - exists []. reflexivity.
  - exists []. reflexivity.
  - destruct (is_space c).
    + destruct IH as [pre IH]. exists (TSep c :: pre). simpl. rewrite <- IH. reflexivity.
    + exists []. reflexivity.
Qed.

Lemma skip_ws_cons_inv (ts : list token) (t : token) (ts' : list token) :
  well_formed ts = true -> skip_ws ts = t :: ts' ->
  well_formed ts' = true /\ exists pre, ts = pre ++ t :: ts'.
Proof.
  intros Hwf Hs. split.
  - apply skip_ws_well_formed in Hwf. rewrite Hs in Hwf.
    apply well_formed_cons in Hwf as (_ & _ & H). exact H.
  - destruct (skip_ws_suffix ts) as [pre Hpre]. exists pre. rewrite <- Hs. exact Hpre.
Qed.

(** A clause is [catch], some tokens, [)], and the rest. *)
Lemma clause_tail_shape (v : text) (ts rest : list token) :
  well_formed ts = true ->
  clause_tail v ts = Some rest ->
  well_formed rest = true /\ exists pre, ts = pre ++ TSep ")" :: rest.
Proof.
  unfold clause_tail. intros Hwf H.
  destruct (skip_ws ts) as [|[w1|c1] ts1] eqn:E1; try discriminate.
  destruct (Ascii.eqb c1 "(") eqn:Ec1; [|discriminate].
  apply skip_ws_cons_inv in E1 as [Hwf1 [pre1 ->]]; [|exact Hwf].
  destruct (skip_ws ts1) as [|[w2|c2] ts2] eqn:E2; try discriminate.
  destruct (text_eqb w2 v); [|discriminate].
  apply skip_ws_cons_inv in E2 as [Hwf2 [pre2 ->]]; [|exact Hwf1].
  destruct (skip_ws ts2) as [|[w3|c3] ts3] eqn:E3; try discriminate.
  destruct (Ascii.eqb c3 ")") eqn:Ec3; [|discriminate].
  apply Ascii.eqb_eq in Ec3. subst c3. inversion H; subst ts3; clear H.
  apply skip_ws_cons_inv in E3 as [Hwf3 [pre3 ->]]; [|exact Hwf2].
  split; [exact Hwf3|].
  exists (pre1 ++ TSep c1 :: pre2 ++ TWord w2 :: pre3).
  rewrite <- !app_assoc. simpl. rewrite <- !app_assoc. reflexivity.
Qed.

Lemma clause_rest_shape (v : text) (ts rest : list token) :
  well_formed ts = true ->
  clause_rest v ts = Some rest ->
  well_formed rest = true /\
  exists pre, ts = TWord (txt "catch") :: pre ++ TSep ")" :: rest.
Proof.
  unfold clause_rest. intros Hwf H.
  destruct ts as [|[w|c] ts0]; try discriminate.
  destruct (text_eqb w (txt "catch")) eqn:E; [|discriminate].
  apply text_eqb_true in E. subst w.
  apply well_formed_cons in Hwf as (_ & _ & Hwf).
  destruct (clause_tail_shape v ts0 rest Hwf H) as [Hr [pre ->]].
  split; [exact Hr|]. exists pre. reflexivity.
Qed.

Lemma clause_rest_length (v : text) (ts rest : list token) :
  well_formed ts = true ->
  clause_rest v ts = Some rest -> (length rest < length ts)%nat.
Proof.
  intros Hwf H. destruct (clause_rest_shape v ts rest Hwf H) as [_ [pre ->]].
  simpl. rewrite length_app. simpl. lia.
Qed.

Lemma rename_clauses_fuel_step (n : nat) (v : text) (t : token) (ts : list token) :
  rename_clauses_fuel (S n) v (t :: ts) =
  match clause_rest v (t :: ts) with
  | Some rest => canon_clause v ++ rename_clauses_fuel n v rest
  | None => t :: rename_clauses_fuel n v ts
  end.
Proof. reflexivity. Qed.

Section Clause.
Context (v : text).
Hypothesis v_word : all_word v = true.
Hypothesis v_nonempty : v <> [].

Lemma close_re_tokens {R : Type} (k : @cont R) (ts : list token)
    (prev : option ascii) (gs : list text) :
  well_formed ts = true ->
  rmatch close_re k (prev, flatten ts) gs =
  match skip_ws ts with
  | TSep c :: ts' => if Ascii.eqb c ")" then k (Some c, flatten ts') gs else None
  | _ => None
  end.
Proof.
  intros Hwf. unfold close_re.
  rewrite rmatch_spaces;
    [|exact Hwf|intros; apply rmatch_lit_space; [reflexivity|assumption]].
  apply (rmatch_lit_sep ")"%char); [reflexivity|].
  apply skip_ws_well_formed. exact Hwf.
Qed.

Lemma close_re_word {R : Type} (k : @cont R) (p : option ascii) (s : text)
    (gs : list text) :
  word_at (head s) = true \/ s = [] -> rmatch close_re k (p, s) gs = None.
Proof.
  intros H. apply (rmatch_spaces_lit_word ")"%char (Lit []) k p s gs); [reflexivity|exact H].
Qed.

Lemma name_re_tokens {R : Type} (k : @cont R) (ts : list token)
    (prev : option ascii) (gs : list text) :
  well_formed ts = true ->
  rmatch (name_re v) k (prev, flatten ts) gs =
  match skip_ws ts with
  | TWord w :: ts' =>
      if text_eqb w v
      then rmatch close_re k (last_char (last_char prev (ws_prefix ts)) v, flatten ts') gs
      else None
  | _ => None
  end.
Proof.
  intros Hwf. unfold name_re.
  rewrite rmatch_spaces; [|exact Hwf|].
  - apply rmatch_lit_word; [exact v_nonempty|exact v_word| |].
    + apply skip_ws_well_formed. exact Hwf.
    + intros p s. apply close_re_word.
  - intros prev' c s' Hc. destruct v as [|a u]; [congruence|].
    apply rmatch_lit_cons_space; [|exact Hc].
    simpl in v_word. apply andb_true_iff in v_word as [Ha _].
    apply word_not_space. exact Ha.
Qed.

Lemma open_re_tokens {R : Type} (k : @cont R) (ts : list token)
    (prev : option ascii) (gs : list text) :
  well_formed ts = true ->
  rmatch (open_re v) k (prev, flatten ts) gs =
  match clause_tail v ts with
  | Some rest => k (Some ")"%char, flatten rest) gs
  | None => None
  end.
Proof.
  intros Hwf. unfold open_re, clause_tail.
  rewrite rmatch_spaces;
    [|exact Hwf|intros; apply rmatch_lit_cons_space; [reflexivity|assumption]].
  change (rmatch (Seq (Lit (txt "(")) (name_re v)) k)
    with (rmatch (Lit ["("%char]) (rmatch (name_re v) k)).
  rewrite rmatch_lit_sep; [|reflexivity|apply skip_ws_well_formed; exact Hwf].
  destruct (skip_ws ts) as [|[w1|c1] ts1] eqn:E1; try reflexivity.
  destruct (Ascii.eqb c1 "(") eqn:Ec1; [|reflexivity].
  apply skip_ws_cons_inv in E1 as [Hwf1 _]; [|exact Hwf].
  rewrite name_re_tokens by exact Hwf1.
  destruct (skip_ws ts1) as [|[w2|c2] ts2] eqn:E2; try reflexivity.
  destruct (text_eqb w2 v); [|reflexivity].
  apply skip_ws_cons_inv in E2 as [Hwf2 _]; [|exact Hwf1].
  rewrite close_re_tokens by exact Hwf2.
  destruct (skip_ws ts2) as [|[w3|c3] ts3] eqn:E3; try reflexivity.
  destruct (Ascii.eqb c3 ")") eqn:Ec3; [|reflexivity].
  apply Ascii.eqb_eq in Ec3. subst c3. reflexivity.
Qed.

Lemma open_re_word {R : Type} (k : @cont R) (p : option ascii) (s : text)
    (gs : list text) :
  word_at (head s) = true \/ s = [] -> rmatch (open_re v) k (p, s) gs = None.
Proof.
  intros H.
  apply (rmatch_spaces_lit_word "("%char (name_re v) k p s gs); [reflexivity|exact H].
Qed.

(** The catch pattern matches at a token exactly where a clause begins. *)
Lemma match_at_catch_tokens (ts : list token) (prev : option ascii) :
  well_formed ts = true ->
  (starts_word ts = true -> word_at prev = false) ->
  match_at (catch_re v) (prev, flatten ts) =
  match clause_rest v ts with
  | Some rest => Some ((length (flatten ts) - length (flatten rest))%nat, [])
  | None => None
  end.
Proof.
  intros Hwf Hprev. unfold match_at.
  change (catch_re v) with (Seq WordB (Seq (Lit (txt "catch")) (open_re v))).
  set (k := fun (cur' : cursor) (gs : list text) =>
              Some ((length (snd (prev, flatten ts)) - length (snd cur'))%nat, gs)).
  change (rmatch (Seq WordB (Seq (Lit (txt "catch")) (open_re v))) k (prev, flatten ts) [])
    with (if at_boundary (prev, flatten ts)
          then rmatch (Seq (Lit (txt "catch")) (open_re v)) k (prev, flatten ts) []
          else None).
  rewrite rmatch_lit_word;
    [|discriminate|reflexivity|exact Hwf|intros p s; apply open_re_word].
  unfold clause_rest.
  destruct ts as [|[w|c] ts0]; try (destruct (at_boundary _); reflexivity).
  destruct (text_eqb w (txt "catch")) eqn:E;
    [|destruct (at_boundary _); reflexivity].
  assert (Hb : at_boundary (prev, flatten (TWord w :: ts0)) = true).
  { unfold at_boundary. cbn [fst snd]. rewrite (Hprev eq_refl).
    rewrite (head_flatten_word _ Hwf eq_refl). reflexivity. }
  rewrite Hb.
  apply well_formed_cons in Hwf as (_ & _ & Hwf0).
  rewrite open_re_tokens by exact Hwf0.
  destruct (clause_tail v ts0); reflexivity.
Qed.

Lemma match_at_catch_inside (prev : option ascii) (c : ascii) (s : text) :
  word_at prev = true -> is_word c = true ->
  match_at (catch_re v) (prev, c :: s) = None.
Proof.
  intros Hp Hc. unfold match_at.
  change (catch_re v) with (Seq WordB (Seq (Lit (txt "catch")) (open_re v))).
  simpl rmatch. unfold at_boundary. simpl. rewrite Hp, Hc. reflexivity.
Qed.

Lemma sub_scan_catch_inside (e : text -> text) (w : text) (prev : option ascii)
    (s : text) :
  word_at prev = true -> all_word w = true ->
  sub_scan (catch_re v) e prev (w ++ s) 0
  = w ++ sub_scan (catch_re v) e (last_char prev w) s 0.
Proof.
  revert prev. induction w as [|c w IH]; intros prev Hp Hw; simpl app; [reflexivity|].
  simpl in Hw. apply andb_true_iff in Hw as [Hc Hw].
  rewrite sub_scan_no_match by (apply match_at_catch_inside; assumption).
  simpl last_char. rewrite IH by assumption. reflexivity.
Qed.

Lemma flatten_canon_clause : flatten (canon_clause v) = new_clause v.
Proof. reflexivity. Qed.

(** [re.sub] of the catch pattern rewrites the clauses of the tokens. *)
Lemma sub_scan_clause_tokens (n : nat) (ts : list token) (prev : option ascii) :
  (length ts <= n)%nat ->
  well_formed ts = true ->
  (starts_word ts = true -> word_at prev = false) ->
  sub_scan (catch_re v) (fun _ => new_clause v) prev (flatten ts) 0
  = flatten (rename_clauses_fuel n v ts).
Proof.
  revert ts prev. induction n as [|n IH]; intros ts prev Hlen Hwf Hprev.
  - destruct ts; [reflexivity|simpl in Hlen; lia].
  - destruct ts as [|t ts']; [reflexivity|].
    pose proof (match_at_catch_tokens (t :: ts') prev Hwf Hprev) as Hm.
    rewrite rename_clauses_fuel_step.
    destruct (clause_rest v (t :: ts')) as [rest|] eqn:Ec.
    + destruct (clause_rest_shape v _ rest Hwf Ec) as [Hwfr [pre Hshape]].
      pose proof (clause_rest_length v _ rest Hwf Ec) as Hlt.
      rewrite Hshape in Hm |- *.
      change (TWord (txt "catch") :: pre ++ TSep ")" :: rest)
        with ((TWord (txt "catch") :: pre) ++ [TSep ")"%char] ++ rest) in Hm |- *.
      rewrite !app_assoc in Hm |- *. rewrite flatten_app in Hm |- *.
      set (P := flatten ((TWord (txt "catch") :: pre) ++ [TSep ")"%char])) in *.
      assert (HP : P <> []) by (unfold P; simpl; discriminate).
      assert (Hl : (length (P ++ flatten rest) - length (flatten rest))%nat = length P)
        by (rewrite length_app; lia).
      rewrite Hl in Hm.
      rewrite (sub_scan_match _ _ _ _ _ _ HP Hm).
      rewrite flatten_app, flatten_canon_clause. f_equal.
      assert (Hlast : last_char prev P = Some ")"%char).
      { unfold P. rewrite flatten_app, last_char_app. reflexivity. }
      rewrite Hlast. apply IH; [simpl in Hlen, Hlt; lia|exact Hwfr|reflexivity].
    + apply well_formed_cons in Hwf as (Hok & Hadj & Hwf').
      destruct t as [w|c]; simpl flatten.
      * apply token_ok_word in Hok as [Hne Hw].
        destruct w as [|a w]; [congruence|]. simpl app.
        simpl flatten in Hm. simpl app in Hm.
        rewrite sub_scan_no_match by exact Hm.
        simpl in Hw. apply andb_true_iff in Hw as [Ha Hw].
        rewrite sub_scan_catch_inside by (simpl; assumption).
        f_equal. f_equal.
        apply IH; [simpl in Hlen; lia|exact Hwf'|]. rewrite Hadj. discriminate.
      * simpl flatten in Hm. simpl app in Hm.
        rewrite sub_scan_no_match by exact Hm.
        simpl. f_equal.
        apply IH; [simpl in Hlen; lia|exact Hwf'|].
        intros _. simpl. simpl in Hok. apply negb_true_iff in Hok. exact Hok.
Qed.

End Clause.

(** ** Renaming on tokens *)

Lemma clause_rest_suffix (v : text) (ts rest : list token) :
  clause_rest v ts = Some rest ->
  exists pre, ts = TWord (txt "catch") :: pre ++ TSep ")" :: rest.
Proof.
  unfold clause_rest, clause_tail. intros H.
  destruct ts as [|[w|c] ts0]; try discriminate.
  destruct (text_eqb w (txt "catch")) eqn:E; [|discriminate].
  apply text_eqb_true in E. subst w.
  destruct (skip_ws_suffix ts0) as [pre1 H1].
  destruct (skip_ws ts0) as [|[w1|c1] ts1]; try discriminate.
  destruct (Ascii.eqb c1 "("); [|discriminate].
  destruct (skip_ws_suffix ts1) as [pre2 H2].
  destruct (skip_ws ts1) as [|[w2|c2] ts2]; try discriminate.
  destruct (text_eqb w2 v); [|discriminate].
  destruct (skip_ws_suffix ts2) as [pre3 H3].
  destruct (skip_ws ts2) as [|[w3|c3] ts3]; try discriminate.
  destruct (Ascii.eqb c3 ")") eqn:Ec3; [|discriminate].
  apply Ascii.eqb_eq in Ec3. subst c3. inversion H; subst ts3; clear H.
  exists (pre1 ++ TSep c1 :: pre2 ++ TWord w2 :: pre3).
  rewrite H1, H2, H3 at 1.
  rewrite <- !app_assoc. simpl. rewrite <- !app_assoc. reflexivity.
Qed.

Lemma rename_clauses_fuel_irrelevant (v : text) (n m : nat) (ts : list token) :
  (length ts <= n)%nat -> (length ts <= m)%nat ->
  rename_clauses_fuel n v ts = rename_clauses_fuel m v ts.
Proof.
  revert m ts. induction n as [|n IH]; intros m ts Hn Hm.
  - destruct ts; [|simpl in Hn; lia]. destruct m; reflexivity.
  - destruct ts as [|t ts']; [destruct m; reflexivity|].
    destruct m as [|m]; [simpl in Hm; lia|].
    rewrite !rename_clauses_fuel_step.
    destruct (clause_rest v (t :: ts')) as [rest|] eqn:Ec.
    + destruct (clause_rest_suffix v _ rest Ec) as [pre Hpre].
      assert (length rest < length (t :: ts'))%nat.
      { rewrite Hpre. simpl. rewrite length_app. simpl. lia. }
      f_equal. apply IH; simpl in *; lia.
    + f_equal. apply IH; simpl in *; lia.
Qed.

Lemma rename_clauses_cons (v : text) (t : token) (ts : list token) :
  rename_clauses v (t :: ts) =
  match clause_rest v (t :: ts) with
  | Some rest => canon_clause v ++ rename_clauses v rest
  | None => t :: rename_clauses v ts
  end.
Proof.
  unfold rename_clauses. simpl length. rewrite rename_clauses_fuel_step.
  destruct (clause_rest v (t :: ts)) as [rest|] eqn:Ec; [|reflexivity].
  f_equal. apply rename_clauses_fuel_irrelevant; [|lia].
  destruct (clause_rest_suffix v _ rest Ec) as [pre Hpre].
  apply (f_equal length) in Hpre. simpl in Hpre. rewrite length_app in Hpre.
  simpl in Hpre. lia.
Qed.

Lemma rename_clauses_nil (v : text) : rename_clauses v [] = [].
Proof. reflexivity. Qed.

(** Induction along the scan of the clauses. *)
Lemma rename_clauses_ind (v : text) (P : list token -> Prop) :
  P [] ->
  (forall t ts rest,
      clause_rest v (t :: ts) = Some rest -> P rest -> P (t :: ts)) ->
  (forall t ts, clause_rest v (t :: ts) = None -> P ts -> P (t :: ts)) ->
  forall ts, P ts.
Proof.
  intros Hnil Hsome Hnone ts.
  assert (H : forall n ts, (length ts <= n)%nat -> P ts).
  { clear ts. induction n as [|n IH]; intros ts Hlen.
    - destruct ts; [exact Hnil|simpl in Hlen; lia].
    - destruct ts as [|t ts']; [exact Hnil|].
      destruct (clause_rest v (t :: ts')) as [rest|] eqn:Ec.
      + apply (Hsome t ts' rest Ec). apply IH.
        destruct (clause_rest_suffix v _ rest Ec) as [pre Hpre].
        apply (f_equal length) in Hpre. simpl in Hpre, Hlen.
        rewrite length_app in Hpre. simpl in Hpre. lia.
      + apply (Hnone t ts' Ec). apply IH. simpl in Hlen. lia. }
  apply (H (length ts)). lia.
Qed.

Lemma starts_word_rename_clauses (v : text) (ts : list token) :
  starts_word (rename_clauses v ts) = starts_word ts.
Proof.
  destruct ts as [|t ts]; [reflexivity|]. rewrite rename_clauses_cons.
  destruct (clause_rest v (t :: ts)) as [rest|] eqn:Ec; [|reflexivity].
  destruct (clause_rest_suffix v _ rest Ec) as [pre Hpre].
  inversion Hpre; subst. reflexivity.
Qed.

Lemma well_formed_rename_clauses (v : text) (ts : list token) :
  all_word v = true ->
  well_formed ts = true -> well_formed (rename_clauses v ts) = true.
Proof.
  intros Hv. induction ts as [|t ts rest Ec IH|t ts Ec IH] using (rename_clauses_ind v);
    intros Hwf; rewrite ?rename_clauses_nil, ?rename_clauses_cons, ?Ec.
  - reflexivity.
  - destruct (clause_rest_shape v _ rest Hwf Ec) as [Hr _].
    specialize (IH Hr). unfold canon_clause. simpl app.
    apply well_formed_cons. split; [reflexivity|]. split; [reflexivity|].
    apply well_formed_cons. split; [reflexivity|]. split; [exact I|].
    apply well_formed_cons. split; [reflexivity|]. split; [exact I|].
    apply well_formed_cons. split; [simpl; exact Hv|]. split; [reflexivity|].
    apply well_formed_cons. split; [reflexivity|]. split; [exact I|]. exact IH.
  - apply well_formed_cons in Hwf as (Hok & Hadj & Hwf).
    apply well_formed_cons. split; [exact Hok|]. split; [|auto].
    destruct t; [|exact I]. rewrite starts_word_rename_clauses. exact Hadj.
Qed.

Lemma well_formed_rename_words (v : text) (ts : list token) :
  all_word v = true ->
  well_formed ts = true -> well_formed (rename_words v ts) = true.
Proof.
  intros Hv. induction ts as [|t ts IH]; intros Hwf; [reflexivity|].
  apply well_formed_cons in Hwf as (Hok & Hadj & Hwf).
  unfold rename_words. simpl map. apply well_formed_cons.
  assert (Hsw : starts_word (map (rename_token v) ts) = starts_word ts).
  { destruct ts as [|[w|c] ts']; simpl; try reflexivity.
    destruct (text_eqb w v); reflexivity. }
  destruct t as [w|c]; simpl.
  - destruct (text_eqb w v).
    + split; [simpl; exact Hv|]. split; [rewrite Hsw; exact Hadj|apply IH; exact Hwf].
    + split; [exact Hok|]. split; [rewrite Hsw; exact Hadj|apply IH; exact Hwf].
  - split; [exact Hok|]. split; [exact I|apply IH; exact Hwf].
Qed.

(** Without occurrence nothing is renamed. *)
Lemma rename_words_fixed (v : text) (ts : list token) :
  no_word v ts -> rename_words v ts = ts.
Proof.
  unfold no_word, rename_words. induction 1 as [|t ts Ht _ IH]; [reflexivity|].
  simpl. rewrite IH. f_equal. destruct t as [w|c]; [|reflexivity]. simpl.
  destruct (text_eqb w v) eqn:E; [|reflexivity].
  apply text_eqb_true in E. congruence.
Qed.

Lemma rename_clauses_fixed (v : text) (ts : list token) :
  no_clause v ts -> rename_clauses v ts = ts.
Proof.
  induction ts as [|t ts IH]; [reflexivity|]. simpl. intros [Hc Hn].
  rewrite rename_clauses_cons, Hc, IH by exact Hn. reflexivity.
Qed.

Lemma no_clause_app_r (v : text) (ts1 ts2 : list token) :
  no_clause v (ts1 ++ ts2) -> no_clause v ts2.
Proof.
  induction ts1 as [|t ts1 IH]; [auto|]. simpl. intros [_ H]. auto.
Qed.

Lemma no_clause_rest (v u : text) (ts rest : list token) :
  clause_rest v ts = Some rest -> no_clause u ts -> no_clause u rest.
Proof.
  intros Ec Hn. destruct (clause_rest_suffix v ts rest Ec) as [pre Hpre].
  subst ts.
  apply (no_clause_app_r u (TWord (txt "catch") :: pre ++ [TSep ")"%char]) rest).
  simpl app. rewrite <- app_assoc. exact Hn.
Qed.

Lemma no_word_rest (v u : text) (ts rest : list token) :
  clause_rest v ts = Some rest -> no_word u ts -> no_word u rest.
Proof.
  intros Ec Hn. destruct (clause_rest_suffix v ts rest Ec) as [pre Hpre].
  subst ts. unfold no_word in *.
  apply Forall_cons in Hn as [_ Hn]. apply Forall_app in Hn as [_ Hn].
  apply Forall_cons in Hn as [_ Hn]. exact Hn.
Qed.

(** ** What a rewrite leaves to match *)

Lemma not_underscore_new_name (u v : text) :
  starts_with (txt "_") u = false -> "_"%char :: v <> u.
Proof. intros H <-. simpl in H. discriminate. Qed.

Lemma clause_rest_sep (v : text) (c : ascii) (ts : list token) :
  clause_rest v (TSep c :: ts) = None.
Proof. reflexivity. Qed.

Lemma clause_rest_word (v w : text) (ts : list token) :
  clause_rest v (TWord w :: ts) =
  if text_eqb w (txt "catch") then clause_tail v ts else None.
Proof. reflexivity. Qed.

Lemma clause_tail_unfold (v : text) (ts : list token) :
  clause_tail v ts =
  match skip_ws ts with
  | TSep c1 :: ts1 =>
      if Ascii.eqb c1 "(" then
        match skip_ws ts1 with
        | TWord w :: ts2 =>
            if text_eqb w v then
              match skip_ws ts2 with
              | TSep c2 :: ts3 => if Ascii.eqb c2 ")" then Some ts3 else None
              | _ => None
              end
            else None
        | _ => None
        end
      else None
  | _ => None
  end.
Proof. reflexivity. Qed.

Lemma rename_clauses_sep (v : text) (c : ascii) (ts : list token) :
  rename_clauses v (TSep c :: ts) = TSep c :: rename_clauses v ts.
Proof. rewrite rename_clauses_cons, clause_rest_sep. reflexivity. Qed.

Lemma skip_ws_rename_clauses (v : text) (ts : list token) :
  skip_ws (rename_clauses v ts) = rename_clauses v (skip_ws ts).
Proof.
  induction ts as [|[w|c] ts IH]; [reflexivity| |].
  - simpl skip_ws. rewrite rename_clauses_cons.
    destruct (clause_rest v (TWord w :: ts)); reflexivity.
  - rewrite rename_clauses_sep. simpl.
    destruct (is_space c); [exact IH|]. rewrite rename_clauses_sep. reflexivity.
Qed.

Lemma rename_clauses_sep_inv (v : text) (ts : list token) (c : ascii)
    (out : list token) :
  rename_clauses v ts = TSep c :: out ->
  exists ts', ts = TSep c :: ts' /\ out = rename_clauses v ts'.
Proof.
  destruct ts as [|[w|d] ts']; [discriminate| |].
  - rewrite rename_clauses_cons.
    destruct (clause_rest v (TWord w :: ts')); discriminate.
  - rewrite rename_clauses_sep. intros H; inversion H; subst. eauto.
Qed.

Lemma rename_clauses_word_inv (v : text) (ts : list token) (w : text)
    (out : list token) :
  rename_clauses v ts = TWord w :: out ->
  exists ts', ts = TWord w :: ts' /\
    (out = rename_clauses v ts' \/ exists out', out = TSep " " :: TSep "(" :: out').
Proof.
  destruct ts as [|[w'|d] ts']; [discriminate| |].
  - rewrite rename_clauses_cons.
    destruct (clause_rest v (TWord w' :: ts')) as [rest|] eqn:Ec.
    + destruct (clause_rest_suffix v _ rest Ec) as [pre Hpre].
      inversion Hpre; subst. unfold canon_clause. simpl.
      intros H; inversion H; subst. eexists; split; [reflexivity|]. right. eauto.
    + intros H; inversion H; subst. eauto.
  - rewrite rename_clauses_sep. discriminate.
Qed.

Lemma skip_ws_rename_words (v : text) (ts : list token) :
  skip_ws (rename_words v ts) = rename_words v (skip_ws ts).
Proof.
  induction ts as [|[w|c] ts IH]; [reflexivity| |].
  - simpl. destruct (text_eqb w v); reflexivity.
  - simpl. destruct (is_space c); [exact IH|reflexivity].
Qed.

Lemma rename_words_sep_inv (v : text) (ts : list token) (c : ascii)
    (out : list token) :
  rename_words v ts = TSep c :: out ->
  exists ts', ts = TSep c :: ts' /\ out = rename_words v ts'.
Proof.
  destruct ts as [|[w|d] ts']; [discriminate| |]; simpl.
  - destruct (text_eqb w v); discriminate.
  - intros H; inversion H; subst. eauto.
Qed.

Lemma rename_words_word_inv (v : text) (ts : list token) (w : text)
    (out : list token) :
  starts_with (txt "_") w = false ->
  rename_words v ts = TWord w :: out ->
  exists ts', ts = TWord w :: ts' /\ out = rename_words v ts'.
Proof.
  intros Hw. destruct ts as [|[w'|d] ts']; [discriminate| |]; simpl.
  - destruct (text_eqb w' v).
    + intros H; inversion H; subst. simpl in Hw. discriminate.
    + intros H; inversion H; subst. eauto.
  - discriminate.
Qed.

Section Leftover.
Context (u v : text).
Hypothesis u_plain : starts_with (txt "_") u = false.

(** A clause of [u] found after the clauses of [v] were rewritten was there
    before. *)
Lemma clause_tail_rename_clauses (ts out : list token) :
  clause_tail u (rename_clauses v ts) = Some out ->
  exists out', clause_tail u ts = Some out'.
Proof.
  rewrite !clause_tail_unfold. rewrite skip_ws_rename_clauses.
  destruct (rename_clauses v (skip_ws ts)) as [|[w1|c1] o1] eqn:E1; try discriminate.
  apply rename_clauses_sep_inv in E1 as (ts1 & -> & ->).
  destruct (Ascii.eqb c1 "("); [|discriminate].
  rewrite skip_ws_rename_clauses.
  destruct (rename_clauses v (skip_ws ts1)) as [|[w2|c2] o2] eqn:E2; try discriminate.
  apply rename_clauses_word_inv in E2 as (ts2 & -> & Ho2).
  destruct (text_eqb w2 u); [|discriminate].
  destruct Ho2 as [->|[o2' ->]].
  - rewrite skip_ws_rename_clauses.
    destruct (rename_clauses v (skip_ws ts2)) as [|[w3|c3] o3] eqn:E3; try discriminate.
    apply rename_clauses_sep_inv in E3 as (ts3 & -> & ->).
    destruct (Ascii.eqb c3 ")"); [|discriminate]. eauto.
  - simpl. discriminate.
Qed.

Lemma clause_rest_rename_clauses (t : token) (ts out : list token) :
  clause_rest u (t :: rename_clauses v ts) = Some out ->
  exists out', clause_rest u (t :: ts) = Some out'.
Proof.
  destruct t as [w|c]; [|rewrite clause_rest_sep; discriminate].
  rewrite !clause_rest_word. destruct (text_eqb w (txt "catch")); [|discriminate].
  apply clause_tail_rename_clauses.
Qed.

Lemma no_clause_canon (out : list token) :
  no_clause u out -> no_clause u (canon_clause v ++ out).
Proof.
  intros Hout. unfold canon_clause. simpl app. simpl no_clause.
  rewrite !clause_rest_sep, !clause_rest_word.
  assert (E1 : text_eqb ("_"%char :: v) (txt "catch") = false)
    by (apply text_eqb_false; discriminate).
  assert (E2 : text_eqb ("_"%char :: v) u = false)
    by (apply text_eqb_false, not_underscore_new_name, u_plain).
  rewrite E1. rewrite clause_tail_unfold. simpl. rewrite E2. repeat split. exact Hout.
Qed.

Lemma no_clause_rename_clauses (ts : list token) :
  u = v \/ no_clause u ts -> no_clause u (rename_clauses v ts).
Proof.
  induction ts as [|t ts rest Ec IH|t ts Ec IH] using (rename_clauses_ind v);
    intros H; rewrite ?rename_clauses_nil, ?rename_clauses_cons, ?Ec.
  - exact I.
  - apply no_clause_canon. apply IH.
    destruct H as [H|H]; [auto|]. right. eapply no_clause_rest; eassumption.
  - simpl. split.
    + destruct (clause_rest u (t :: rename_clauses v ts)) as [out|] eqn:E;
        [|reflexivity].
      apply clause_rest_rename_clauses in E as [out' E]. exfalso.
      destruct H as [->|H]; [congruence|]. simpl in H. destruct H as [H _]. congruence.
    + apply IH. destruct H as [H|H]; [auto|]. right. simpl in H. tauto.
Qed.

(** A clause of [u] found after the whole words [v] were renamed was there
    before. *)
Lemma clause_tail_rename_words (ts out : list token) :
  clause_tail u (rename_words v ts) = Some out ->
  exists out', clause_tail u ts = Some out'.
Proof.
  rewrite !clause_tail_unfold. rewrite skip_ws_rename_words.
  destruct (rename_words v (skip_ws ts)) as [|[w1|c1] o1] eqn:E1; try discriminate.
  apply rename_words_sep_inv in E1 as (ts1 & -> & ->).
  destruct (Ascii.eqb c1 "("); [|discriminate].
  rewrite skip_ws_rename_words.
  destruct (rename_words v (skip_ws ts1)) as [|[w2|c2] o2] eqn:E2; try discriminate.
  destruct (text_eqb w2 u) eqn:Ew2; [|discriminate].
  apply text_eqb_true in Ew2. subst w2.
  apply rename_words_word_inv in E2 as (ts2 & -> & ->); [|exact u_plain].
  rewrite text_eqb_refl.
  rewrite skip_ws_rename_words.
  destruct (rename_words v (skip_ws ts2)) as [|[w3|c3] o3] eqn:E3; try discriminate.
  apply rename_words_sep_inv in E3 as (ts3 & -> & ->).
  destruct (Ascii.eqb c3 ")"); [|discriminate]. eauto.
Qed.

Lemma clause_rest_rename_words (ts out : list token) :
  clause_rest u (rename_words v ts) = Some out ->
  exists out', clause_rest u ts = Some out'.
Proof.
  destruct ts as [|[w|c] ts]; [discriminate| |]; simpl rename_words.
  - destruct (text_eqb w v) eqn:Ewv.
    + rewrite clause_rest_word.
      assert (E1 : text_eqb ("_"%char :: v) (txt "catch") = false)
        by (apply text_eqb_false; discriminate).
      rewrite E1. discriminate.
    + rewrite !clause_rest_word. destruct (text_eqb w (txt "catch")); [|discriminate].
      apply clause_tail_rename_words.
  - rewrite clause_rest_sep. discriminate.
Qed.

Lemma no_clause_rename_words (ts : list token) :
  no_clause u ts -> no_clause u (rename_words v ts).
Proof.
  induction ts as [|t ts IH]; [auto|]. intros [Hc Hn].
  change (rename_words v (t :: ts)) with (rename_token v t :: rename_words v ts).
  split; [|apply IH; exact Hn].
  destruct (clause_rest u (rename_token v t :: rename_words v ts)) as [out|] eqn:E;
    [|reflexivity].
  change (rename_token v t :: rename_words v ts) with (rename_words v (t :: ts)) in E.
  apply clause_rest_rename_words in E as [out' E]. congruence.
Qed.

Lemma no_word_rename_words (ts : list token) :
  u = v \/ no_word u ts -> no_word u (rename_words v ts).
Proof.
  unfold no_word, rename_words. intros H. apply Forall_fmap, Forall_forall.
  intros t Ht. simpl. destruct t as [w|c]; [|discriminate]. simpl.
  destruct (text_eqb w v) eqn:E.
  - intros Heq. inversion Heq. eapply not_underscore_new_name; eauto.
  - apply text_eqb_false in E. destruct H as [->|H]; [congruence|].
    rewrite Forall_forall in H. apply H. exact Ht.
Qed.

Lemma no_word_rename_clauses (ts : list token) :
  no_word u ts -> no_word u (rename_clauses v ts).
Proof.
  induction ts as [|t ts rest Ec IH|t ts Ec IH] using (rename_clauses_ind v);
    intros H; rewrite ?rename_clauses_nil, ?rename_clauses_cons, ?Ec.
  - constructor.
  - pose proof (no_word_rest v u _ rest Ec H) as Hrest.
    destruct (clause_rest_suffix v _ rest Ec) as [pre Hpre]. rewrite Hpre in H.
    unfold no_word in *. apply Forall_cons in H as [Hcatch _].
    unfold canon_clause. simpl app.
    repeat (apply Forall_cons; split); try discriminate; auto.
    intros Heq. inversion Heq. eapply not_underscore_new_name; eauto.
  - unfold no_word in *. apply Forall_cons in H as [Ht H].
    apply Forall_cons. split; [exact Ht|apply IH; exact H].
Qed.

End Leftover.

(** ** Substrings *)

Lemma starts_with_app_sep (p w s : text) :
  all_word p = true -> word_at (head s) = false ->
  starts_with p (w ++ s) = starts_with p w.
Proof.
  revert w. induction p as [|a p IH]; intros w Hp Hs; [destruct w; reflexivity|].
  simpl in Hp. apply andb_true_iff in Hp as [Ha Hp].
  destruct w as [|b w]; simpl.
  - destruct s as [|d s]; [reflexivity|]. simpl in Hs.
    rewrite (eqb_word_sep a d Ha Hs). reflexivity.
  - rewrite IH by assumption. reflexivity.
Qed.

Lemma contains_app_sep (p w s : text) :
  p <> [] -> all_word p = true -> word_at (head s) = false ->
  contains p (w ++ s) = contains p w || contains p s.
Proof.
  intros Hne Hp Hs. induction w as [|b w IH].
  - simpl app. destruct p; [congruence|]. reflexivity.
  - change (contains p ((b :: w) ++ s))
      with (starts_with p ((b :: w) ++ s) || contains p (w ++ s)).
    change (contains p (b :: w)) with (starts_with p (b :: w) || contains p w).
    rewrite starts_with_app_sep, IH by assumption.
    rewrite orb_assoc. reflexivity.
Qed.

Lemma contains_cons_sep (p : text) (c : ascii) (s : text) :
  p <> [] -> all_word p = true -> is_word c = false ->
  contains p (c :: s) = contains p s.
Proof.
  intros Hne Hp Hc.
  change (contains p (c :: s)) with (starts_with p (c :: s) || contains p s).
  destruct p as [|a p]; [congruence|]. simpl in Hp.
  apply andb_true_iff in Hp as [Ha _]. simpl starts_with.
  rewrite (eqb_word_sep a c Ha Hc). reflexivity.
Qed.

Lemma contains_flatten (p : text) (ts : list token) :
  p <> [] -> all_word p = true -> well_formed ts = true ->
  contains p (flatten ts)
  = existsb (fun t => match t with TWord w => contains p w | TSep _ => false end) ts.
Proof.
  intros Hne Hp. induction ts as [|t ts IH]; intros Hwf.
  - destruct p; [congruence|reflexivity].
  - apply well_formed_cons in Hwf as (Hok & Hadj & Hwf).
    destruct t as [w|c]; simpl flatten; simpl existsb.
    + rewrite contains_app_sep; [rewrite IH by exact Hwf; reflexivity|exact Hne|exact Hp|].
      apply head_flatten_sep; assumption.
    + simpl in Hok. apply negb_true_iff in Hok.
      rewrite contains_cons_sep by assumption. apply IH. exact Hwf.
Qed.

Lemma contains_catch_flatten (ts : list token) :
  well_formed ts = true ->
  contains (txt "catch") (flatten ts) = existsb has_catch ts.
Proof. apply contains_flatten; [discriminate|reflexivity]. Qed.

Lemma has_catch_rename_words (v : text) (ts : list token) :
  existsb has_catch (rename_words v ts) = existsb has_catch ts.
Proof.
  induction ts as [|t ts IH]; [reflexivity|].
  change (rename_words v (t :: ts)) with (rename_token v t :: rename_words v ts).
  simpl existsb. rewrite IH. f_equal.
  destruct t as [w|c]; [|reflexivity]. simpl.
  destruct (text_eqb w v) eqn:E; [|reflexivity].
  apply text_eqb_true in E. subst w. reflexivity.
Qed.

Lemma has_catch_rename_clauses (v : text) (ts : list token) :
  existsb has_catch ts = true -> existsb has_catch (rename_clauses v ts) = true.
Proof.
  induction ts as [|t ts rest Ec IH|t ts Ec IH] using (rename_clauses_ind v);
    intros H; rewrite ?rename_clauses_nil, ?rename_clauses_cons, ?Ec.
  - exact H.
  - reflexivity.
  - simpl in *. destruct (has_catch t); [reflexivity|]. simpl in *. auto.
Qed.

Lemma contains_single_app (b : ascii) (x y : text) :
  contains [b] (x ++ y) = contains [b] x || contains [b] y.
Proof.
  induction x as [|a x IH]; [reflexivity|].
  change (contains [b] ((a :: x) ++ y))
    with (starts_with [b] (a :: x ++ y) || contains [b] (x ++ y)).
  change (contains [b] (a :: x)) with (starts_with [b] (a :: x) || contains [b] x).
  rewrite IH, orb_assoc. reflexivity.
Qed.

Lemma contains_single_word (b : ascii) (w : text) :
  is_word b = false -> all_word w = true -> contains [b] w = false.
Proof.
  intros Hb. induction w as [|a w IH]; intros Hw; [reflexivity|].
  simpl in Hw. apply andb_true_iff in Hw as [Ha Hw].
  change (contains [b] (a :: w)) with (starts_with [b] (a :: w) || contains [b] w).
  rewrite IH by exact Hw. simpl.
  assert (E : Ascii.eqb b a = false).
  { apply Ascii.eqb_neq. intros ->. congruence. }
  rewrite E. reflexivity.
Qed.

(** ** What a match consumes and captures *)

Lemma eat_length (p : text) (prev : option ascii) (s : text) (cur : cursor) :
  eat p prev s = Some cur -> length s = (length p + length (snd cur))%nat.
Proof.
  intros H. apply eat_Some in H as [-> _]. apply length_app.
Qed.

Lemma star_inv {R : Type} (p : ascii -> bool) (k : @cont R) (prev : option ascii)
    (s : text) (gs : list text) (x : R) :
  star p k prev s gs = Some x ->
  exists prev' s', k (prev', s') gs = Some x /\ (length s' <= length s)%nat.
Proof.
  revert prev. induction s as [|c s IH]; intros prev; simpl.
  - intros H. eauto.
  - destruct (p c); [|intros H; exists prev, (c :: s); auto].
    destruct (star p k (Some c) s gs) as [y|] eqn:E.
    + intros H; inversion H; subst y.
      apply IH in E as (prev' & s' & Hk & Hlen). exists prev', s'. split; [exact Hk|lia].
    + intros H. exists prev, (c :: s). auto.
Qed.

(** A match ends at a later position, with more groups. *)
Lemma rmatch_inv {R : Type} (r : regex) (k : @cont R) (cur : cursor)
    (gs : list text) (x : R) :
  rmatch r k cur gs = Some x ->
  exists cur' gs',
    k cur' (gs ++ gs') = Some x /\ (length (snd cur') <= length (snd cur))%nat.
Proof.
  revert k cur gs.
  induction r as [p|p|p| |r1 IH1 r2 IH2|r1 IH1 r2 IH2|r1 IH1|r1 IH1];
    intros k cur gs; simpl.
  - destruct (eat p (fst cur) (snd cur)) as [cur'|] eqn:E; [|discriminate].
    intros H. exists cur', []. rewrite app_nil_r. split; [exact H|].
    apply eat_length in E. lia.
  - destruct (snd cur) as [|c s'] eqn:E; [discriminate|].
    destruct (p c); [|discriminate].
    intros H. exists (Some c, s'), []. rewrite app_nil_r. split; [exact H|]. simpl. lia.
  - intros H. apply star_inv in H as (prev' & s' & Hk & Hlen).
    exists (prev', s'), []. rewrite app_nil_r. auto.
  - destruct (at_boundary cur); [|discriminate].
    intros H. exists cur, []. rewrite app_nil_r. auto.
  - intros H. apply IH1 in H as (cur1 & gs1 & H & Hl1).
    apply IH2 in H as (cur2 & gs2 & H & Hl2).
    exists cur2, (gs1 ++ gs2). rewrite app_assoc. split; [exact H|lia].
  - destruct (rmatch r1 k cur gs) as [y|] eqn:E.
    + intros H; inversion H; subst y. apply IH1 in E. exact E.
    + intros H. apply IH2 in H. exact H.
  - destruct (rmatch r1 k cur gs) as [y|] eqn:E.
    + intros H; inversion H; subst y. apply IH1 in E. exact E.
    + intros H. exists cur, []. rewrite app_nil_r. auto.
  - intros H. apply IH1 in H as (cur1 & gs1 & H & Hl1).
    eexists cur1, _. rewrite app_assoc. split; [exact H|exact Hl1].
Qed.

Lemma search_from_inv (r : regex) (prev : option ascii) (s : text) (gs : list text) :
  search_from r prev s = Some gs ->
  exists prev' s' n, match_at r (prev', s') = Some (n, gs).
Proof.
  revert prev. induction s as [|c s IH]; intros prev; simpl.
  - destruct (match_at r (prev, [])) as [[n gs']|] eqn:E; [|discriminate].
    intros H; inversion H; subst. eauto.
  - destruct (match_at r (prev, c :: s)) as [[n gs']|] eqn:E.
    + intros H; inversion H; subst. eauto.
    + apply IH.
Qed.

(** The name extracted from a message is not empty. *)
Lemma extract_name_nonempty (message : text) (v : text) :
  extract_name message = Some v -> v <> [].
Proof.
  unfold extract_name, search. intros H.
  destruct (search_from unused_re None message) as [[|g1 gs]|] eqn:E; try discriminate.
  inversion H; subst g1; clear H.
  apply search_from_inv in E as (prev & s & n & E).
  unfold match_at, unused_re in E.
  set (k0 := fun (cur' : cursor) (gs0 : list text) =>
               Some ((length (snd (prev, s)) - length (snd cur'))%nat, gs0)) in E.
  set (rest := Seq (Lit (txt "' is ")) _) in E.
  change (rmatch (Seq (Lit (txt "'")) (Seq (Grp (Plus (not_char "'"))) rest)) k0 (prev, s) [])
    with (match eat (txt "'") prev s with
          | Some cur1 =>
              match snd cur1 with
              | c :: s1 =>
                  if not_char "'" c
                  then star (not_char "'")
                         (fun cur' gs' =>
                            rmatch rest k0 cur'
                              (gs' ++ [take (length (snd cur1) - length (snd cur'))
                                         (snd cur1)]))
                         (Some c) s1 []
                  else None
              | [] => None
              end
          | None => None
          end) in E.
  destruct (eat (txt "'") prev s) as [cur1|]; [|discriminate].
  destruct (snd cur1) as [|c s1]; [discriminate|].
  destruct (not_char "'" c); [|discriminate].
  apply star_inv in E as (prev' & s' & E & Hlen).
  apply rmatch_inv in E as (cur2 & gs2 & E & _).
  unfold k0 in E. simpl in E. inversion E as [[Hn Hv]]. clear E.
  replace (S (length s1) - length s')%nat
    with (S (length s1 - length s')) by lia.
  simpl. discriminate.
Qed.

(** The patterns of [re.sub] never match the empty string. *)
Lemma word_re_nonempty (v : text) (cur : cursor) (n : nat) (gs : list text) :
  v <> [] -> match_at (word_re v) cur = Some (n, gs) -> n <> O.
Proof.
  intros Hv. destruct cur as [prev s]. rewrite match_at_word_re.
  destruct (at_boundary _); [|discriminate].
  destruct (eat v prev s) as [cur'|] eqn:E; [|discriminate].
  destruct (at_boundary cur'); [|discriminate].
  intros H; inversion H; subst. apply eat_length in E.
  destruct v; [congruence|]. simpl in *. lia.
Qed.

Lemma catch_re_nonempty (v : text) (cur : cursor) (n : nat) (gs : list text) :
  match_at (catch_re v) cur = Some (n, gs) -> n <> O.
Proof.
  destruct cur as [prev s]. unfold match_at.
  set (k0 := fun (cur' : cursor) (gs0 : list text) =>
               Some ((length (snd (prev, s)) - length (snd cur'))%nat, gs0)).
  change (catch_re v) with (Seq WordB (Seq (Lit (txt "catch")) (open_re v))).
  change (rmatch (Seq WordB (Seq (Lit (txt "catch")) (open_re v))) k0 (prev, s) [])
    with (if at_boundary (prev, s)
          then match eat (txt "catch") prev s with
               | Some cur1 => rmatch (open_re v) k0 cur1 []
               | None => None
               end
          else None).
  destruct (at_boundary _); [|discriminate].
  destruct (eat (txt "catch") prev s) as [cur1|] eqn:E; [|discriminate].
  intros H. apply rmatch_inv in H as (cur2 & gs2 & H & Hlen).
  unfold k0 in H. inversion H; subst. apply eat_length in E. simpl in *. lia.
Qed.

(** ** Idempotence *)

Section Idempotence.
Context (parse_template : text -> option (text -> text)).

Lemma sub_word_tokens (v : text) (ts : list token) :
  all_word v = true -> v <> [] -> well_formed ts = true ->
  sub_word v (flatten ts) = flatten (rename_words v ts).
Proof.
  intros Hv Hne Hwf. unfold sub_word.
  apply sub_scan_word_tokens; auto.
Qed.

Lemma sub_clause_tokens (v : text) (ts : list token) :
  all_word v = true -> v <> [] -> well_formed ts = true ->
  sub_clause v (flatten ts) = flatten (rename_clauses v ts).
Proof.
  intros Hv Hne Hwf. unfold sub_clause, rename_clauses.
  apply sub_scan_clause_tokens; auto.
Qed.

Lemma rewrite_line_dispatch (v message cur_line : text) :
  rewrite_line parse_template v message cur_line =
  if uses_clause message cur_line
  then re_sub parse_template (catch_re v) (new_clause v) cur_line
  else re_sub parse_template (word_re v) (new_name v) cur_line.
Proof.
  unfold rewrite_line, uses_clause, new_clause, new_name.
  destruct (contains (txt "catch") cur_line
            && contains (txt "Allowed unused caught errors") message);
    [reflexivity|].
  destruct (contains (txt "import") cur_line
            && (contains (txt "{") cur_line || contains (txt "import *") cur_line));
    [reflexivity|].
  destruct (bool_decide (is_Some (search function_re cur_line))
            || contains (txt "=>") cur_line
            || starts_with (txt "async ") (strip cur_line));
    [reflexivity|].
  destruct (bool_decide (is_Some (search decl_re cur_line))); reflexivity.
Qed.

(** Whole-word replacement renames the maximal runs of word characters that
    are the name. *)
Lemma sub_word_tokenize (v cur_line : text) :
  all_word v = true -> v <> [] ->
  sub_word v cur_line = flatten (rename_words v (tokenize cur_line)).
Proof.
  intros Hv Hne. rewrite <- (flatten_tokenize cur_line) at 1.
  apply sub_word_tokens; [exact Hv|exact Hne|apply well_formed_tokenize].
Qed.

(** For a name of word characters [re.sub] parses no template. *)
Lemma rewrite_line_plain (v message cur_line : text) :
  all_word v = true ->
  rewrite_line parse_template v message cur_line
  = Some (rewrite_plain v message cur_line).
Proof.
  intros Hv. rewrite rewrite_line_dispatch.
  unfold rewrite_plain, uses_clause, new_clause, new_name, re_sub.
  assert (Hb : contains (txt "\") ("_"%char :: v) = false).
  { apply (contains_single_word "\"%char ("_"%char :: v)); [reflexivity|].
    simpl. exact Hv. }
  assert (Hc : contains (txt "\") (txt "catch (" ++ "_"%char :: v ++ txt ")") = false).
  { change (txt "\") with ["\"%char].
    change ("_"%char :: v ++ txt ")") with (("_"%char :: v) ++ txt ")").
    rewrite !contains_single_app. change ["\"%char] with (txt "\"). rewrite Hb.
    reflexivity. }
  rewrite Hb, Hc.
  destruct (contains (txt "catch") cur_line
            && contains (txt "Allowed unused caught errors") message); reflexivity.
Qed.

Section Names.
Context (v : text).
Hypothesis v_word : all_word v = true.
Hypothesis v_nonempty : v <> [].
Hypothesis v_plain : starts_with (txt "_") v = false.

(** A settled line is a fixed point of the rewrite. *)
Lemma settled_fixed (message cur_line : text) :
  settled v message cur_line -> rewrite_plain v message cur_line = cur_line.
Proof.
  intros (ts & Hwf & <- & H). unfold rewrite_plain.
  destruct (uses_clause message (flatten ts)).
  - rewrite sub_clause_tokens, rename_clauses_fixed by assumption. reflexivity.
  - rewrite sub_word_tokens, rename_words_fixed by assumption. reflexivity.
Qed.

(** The rewrite of a line settles it. *)
Lemma rewrite_settles (message cur_line : text) :
  settled v message (rewrite_plain v message cur_line).
Proof.
  pose proof (well_formed_tokenize cur_line) as Hwf.
  pose proof (flatten_tokenize cur_line) as Hfl.
  set (ts := tokenize cur_line) in *.
  unfold rewrite_plain. destruct (uses_clause message cur_line) eqn:Eu.
  - exists (rename_clauses v ts).
    pose proof (well_formed_rename_clauses v ts v_word Hwf) as Hwf'.
    split; [exact Hwf'|]. split; [rewrite <- Hfl; symmetry; apply sub_clause_tokens; auto|].
    assert (Eu' : uses_clause message (sub_clause v cur_line) = true).
    { unfold uses_clause in *. apply andb_true_iff in Eu as [Ec Ea]. rewrite Ea, andb_true_r.
      rewrite <- Hfl, sub_clause_tokens by assumption.
      rewrite contains_catch_flatten by exact Hwf'.
      apply has_catch_rename_clauses. rewrite <- contains_catch_flatten by exact Hwf.
      rewrite Hfl. exact Ec. }
    rewrite Eu'. apply no_clause_rename_clauses; [exact v_plain|]. left. reflexivity.
  - exists (rename_words v ts).
    pose proof (well_formed_rename_words v ts v_word Hwf) as Hwf'.
    split; [exact Hwf'|]. split; [rewrite <- Hfl; symmetry; apply sub_word_tokens; auto|].
    assert (Eu' : uses_clause message (sub_word v cur_line) = false).
    { rewrite <- Eu. unfold uses_clause. f_equal.
      rewrite <- Hfl at 1. rewrite sub_word_tokens by assumption.
      rewrite contains_catch_flatten by exact Hwf'.
      rewrite has_catch_rename_words, <- contains_catch_flatten by exact Hwf.
      rewrite Hfl. reflexivity. }
    rewrite Eu'. apply no_word_rename_words; [exact v_plain|]. left. reflexivity.
Qed.

(** The rewrite for another name keeps the line settled. *)
Lemma rewrite_preserves (u message_u message cur_line : text) :
  starts_with (txt "_") u = false ->
  settled u message_u cur_line ->
  settled u message_u (rewrite_plain v message cur_line).
Proof.
  intros Hu (ts & Hwf & Hfl & H). subst cur_line.
  unfold rewrite_plain. destruct (uses_clause message (flatten ts)) eqn:Eu.
  - exists (rename_clauses v ts).
    pose proof (well_formed_rename_clauses v ts v_word Hwf) as Hwf'.
    split; [exact Hwf'|]. split; [symmetry; apply sub_clause_tokens; auto|].
    assert (Ec : contains (txt "catch") (flatten ts) = true).
    { unfold uses_clause in Eu. apply andb_true_iff in Eu as [Ec _]. exact Ec. }
    assert (Ec' : contains (txt "catch") (sub_clause v (flatten ts)) = true).
    { rewrite sub_clause_tokens by assumption.
      rewrite contains_catch_flatten by exact Hwf'.
      apply has_catch_rename_clauses. rewrite <- contains_catch_flatten by exact Hwf.
      exact Ec. }
    unfold uses_clause in *. rewrite Ec in H. rewrite Ec'.
    destruct (true && contains (txt "Allowed unused caught errors") message_u).
    + apply no_clause_rename_clauses; [exact Hu|]. right. exact H.
    + apply no_word_rename_clauses; [exact Hu|]. exact H.
  - exists (rename_words v ts).
    pose proof (well_formed_rename_words v ts v_word Hwf) as Hwf'.
    split; [exact Hwf'|]. split; [symmetry; apply sub_word_tokens; auto|].
    assert (Ec' : contains (txt "catch") (sub_word v (flatten ts))
                  = contains (txt "catch") (flatten ts)).
    { rewrite sub_word_tokens by assumption.
      rewrite contains_catch_flatten by exact Hwf'.
      rewrite has_catch_rename_words, <- contains_catch_flatten by exact Hwf.
      reflexivity. }
    unfold uses_clause in *. rewrite Ec'.
    destruct (contains (txt "catch") (flatten ts)
              && contains (txt "Allowed unused caught errors") message_u).
    + apply no_clause_rename_words; [exact Hu|]. exact H.
    + apply no_word_rename_words; [exact Hu|]. right. exact H.
Qed.

End Names.

(** A settled message is a no-op. *)
Lemma settled_noop (error : diagnostic) (st : state) :
  plain_name error ->
  settled_in error (lines st) ->
  process_error parse_template error st = (Ok tt, st).
Proof.
  unfold plain_name, settled_in. intros Hplain H.
  rewrite process_error_unfold.
  destruct (extract_name (message error)) as [v|] eqn:Ev; [|reflexivity].
  destruct (starts_with (txt "_") v) eqn:Eu; [reflexivity|].
  destruct H as (n & l & -> & -> & Hs).
  pose proof (Hplain v eq_refl) as Hv.
  rewrite rewrite_line_plain by exact Hv.
  rewrite (settled_fixed v Hv (extract_name_nonempty _ _ Ev) _ _ Hs).
  rewrite text_eqb_refl. reflexivity.
Qed.

(** After a message is processed it is settled. *)
Lemma process_error_settles (error : diagnostic) (st st' : state) :
  plain_name error ->
  process_error parse_template error st = (Ok tt, st') ->
  settled_in error (lines st').
Proof.
  unfold plain_name, settled_in. intros Hplain. rewrite process_error_unfold.
  destruct (extract_name (message error)) as [v|] eqn:Ev; [|auto].
  destruct (starts_with (txt "_") v) eqn:Eu; [auto|].
  pose proof (Hplain v eq_refl) as Hv.
  pose proof (extract_name_nonempty _ _ Ev) as Hne.
  destruct (py_index (lines st) (line error - 1)) as [n|] eqn:En; [|discriminate].
  destruct (lines st !! n) as [l|] eqn:El; [|discriminate].
  rewrite rewrite_line_plain by exact Hv.
  pose proof (rewrite_settles v Hv Hne Eu (message error) l) as Hs.
  destruct (text_eqb (rewrite_plain v (message error) l) l) eqn:E.
  - intros H; inversion H; subst st'. exists n, l.
    apply text_eqb_true in E. rewrite E in Hs. auto.
  - intros H; inversion H; subst st'; clear H. simpl.
    exists n, (rewrite_plain v (message error) l).
    split; [|split; [|exact Hs]].
    + rewrite <- En. apply py_index_length. apply length_insert.
    + apply list_lookup_insert_eq. eapply py_index_lt. exact En.
Qed.

(** Processing one message keeps the others settled. *)
Lemma process_error_preserves (error other : diagnostic) (st st' : state) :
  plain_name error ->
  process_error parse_template error st = (Ok tt, st') ->
  settled_in other (lines st) ->
  settled_in other (lines st').
Proof.
  unfold plain_name. intros Hplain. rewrite process_error_unfold.
  destruct (extract_name (message error)) as [v|] eqn:Ev;
    [|intros H; inversion H; subst; auto].
  destruct (starts_with (txt "_") v) eqn:Eu; [intros H; inversion H; subst; auto|].
  pose proof (Hplain v eq_refl) as Hv.
  pose proof (extract_name_nonempty _ _ Ev) as Hne.
  destruct (py_index (lines st) (line error - 1)) as [n|] eqn:En; [|discriminate].
  destruct (lines st !! n) as [l|] eqn:El; [|discriminate].
  rewrite rewrite_line_plain by exact Hv.
  destruct (text_eqb (rewrite_plain v (message error) l) l) eqn:E;
    [intros H; inversion H; subst; auto|].
  intros H; inversion H; subst st'; clear H. simpl.
  unfold settled_in.
  destruct (extract_name (message other)) as [u|] eqn:Eo; [|auto].
  destruct (starts_with (txt "_") u) eqn:Euu; [auto|].
  intros (m & lo & Hm & Hlo & Hs).
  rewrite (py_index_length (<[n:=rewrite_plain v (message error) l]> (lines st))
             (lines st)) by apply length_insert.
  destruct (decide (n = m)) as [->|Hnm].
  - exists m, (rewrite_plain v (message error) l).
    split; [exact Hm|]. split.
    + apply list_lookup_insert_eq. eapply py_index_lt. exact En.
    + assert (lo = l) by congruence. subst lo.
      apply rewrite_preserves; assumption.
  - exists m, lo. split; [exact Hm|]. split; [|exact Hs].
    rewrite list_lookup_insert_ne by exact Hnm. exact Hlo.
Qed.

Lemma for_each_preserves (errors : list diagnostic) (other : diagnostic)
    (st st' : state) :
  Forall plain_name errors ->
  for_each (process_error parse_template) errors st = (Ok tt, st') ->
  settled_in other (lines st) ->
  settled_in other (lines st').
Proof.
  revert st. induction errors as [|e errors IH]; intros st Hall; simpl.
  - intros H; inversion H; subst; auto.
  - apply Forall_cons in Hall as [He Hall]. rewrite bind_unfold.
    destruct (process_error parse_template e st) as [[[]|x] st1] eqn:E; [|discriminate].
    intros Hrest Hs. apply (IH st1 Hall Hrest).
    eapply process_error_preserves; eassumption.
Qed.

Lemma for_each_settles (errors : list diagnostic) (st st' : state) :
  Forall plain_name errors ->
  for_each (process_error parse_template) errors st = (Ok tt, st') ->
  Forall (fun e => settled_in e (lines st')) errors.
Proof.
  revert st. induction errors as [|e errors IH]; intros st Hall; simpl; [constructor|].
  apply Forall_cons in Hall as [He Hall]. rewrite bind_unfold.
  destruct (process_error parse_template e st) as [[[]|x] st1] eqn:E; [|discriminate].
  intros Hrest. constructor; [|apply (IH st1 Hall Hrest)].
  apply (for_each_preserves errors e st1 st' Hall Hrest).
  eapply process_error_settles; eassumption.
Qed.

Lemma for_each_settled_noop (errors : list diagnostic) (st : state) :
  Forall plain_name errors ->
  Forall (fun e => settled_in e (lines st)) errors ->
  for_each (process_error parse_template) errors st = (Ok tt, st).
Proof.
  induction errors as [|e errors IH]; intros Hall Hs; simpl; [reflexivity|].
  apply Forall_cons in Hall as [He Hall]. apply Forall_cons in Hs as [Hse Hs].
  rewrite bind_unfold, (settled_noop e st He Hse). apply IH; assumption.
Qed.

(** C4 (amended). For messages that name identifiers (word characters
    only), a pass over a buffer that ends normally is idempotent: run again
    on its result with the same messages, it ends normally and changes
    neither the buffer nor the fix counter nor what is printed. A message
    whose variable name already starts with an underscore is a no-op in every
    state. *)
Theorem pass_idempotent :
  (forall (msgs : list diagnostic) (st st1 : state),
      Forall plain_name msgs ->
      process_errors parse_template msgs st = (Ok tt, st1) ->
      process_errors parse_template msgs st1 = (Ok tt, st1)) /\
  (forall (error : diagnostic) (st : state) (v : text),
      extract_name (message error) = Some v ->
      starts_with (txt "_") v = true ->
      process_error parse_template error st = (Ok tt, st)).
Proof.
  split.
  - intros msgs st st1 Hplain Hrun. unfold process_errors in *.
    assert (Hsorted : Forall plain_name (sorted_desc msgs)).
    { rewrite sorted_desc_perm. exact Hplain. }
    apply for_each_settled_noop; [exact Hsorted|].
    eapply for_each_settles; eassumption.
  - intros error st v Hv Hu. rewrite process_error_unfold, Hv, Hu. reflexivity.
Qed.

End Idempotence.

(** * Further properties of the script *)

Section Further.
Context (resolve : text -> inode).
Context (read_descriptor : Z -> option text).
Context (json_load : text -> option json).
Context (parse_template : text -> option (text -> text)).
Context (sort_other : list json -> option (list json)).

Local Abbreviation read_text := (read_text resolve).
Local Abbreviation write_lines := (write_lines resolve).
Local Abbreviation rewrite_line := (rewrite_line parse_template).
Local Abbreviation run_error := (run_error parse_template).
Local Abbreviation sorted_by_line := (sorted_by_line sort_other).
Local Abbreviation run_file := (run_file resolve read_descriptor parse_template sort_other).
Local Abbreviation process_error := (process_error parse_template).
Local Abbreviation process_errors := (process_errors parse_template).
Local Abbreviation process_file := (process_file resolve parse_template).
Local Abbreviation process_report := (process_report resolve parse_template).
Local Abbreviation load_report := (load_report resolve json_load).
Local Abbreviation main := (main resolve read_descriptor json_load parse_template sort_other).

(** ** The sort *)

Lemma insert_desc_filter (n : Z) (e : diagnostic) (l : list diagnostic) :
  filter (fun m => line m = n) (insert_desc e l)
  = filter (fun m => line m = n) (e :: l).
Proof.
  induction l as [|x l IH]; [reflexivity|]. simpl insert_desc.
  destruct (line e <? line x) eqn:E; [|reflexivity].
  rewrite filter_cons, IH, !filter_cons.
  destruct (decide (line x = n)) as [Hx|Hx];
    destruct (decide (line e = n)) as [He|He]; try reflexivity.
  apply Z.ltb_lt in E. lia.
Qed.

(** X1. The sort is stable: the messages of one line are processed in the
    order of the report. *)
Theorem sorted_desc_stable (n : Z) (msgs : list diagnostic) :
  filter (fun m => line m = n) (sorted_desc msgs)
  = filter (fun m => line m = n) msgs.
Proof.
  induction msgs as [|e msgs IH]; [reflexivity|]. simpl sorted_desc.
  rewrite insert_desc_filter, !filter_cons, IH. reflexivity.
Qed.

#[local] Instance line_gt_antisym : AntiSymm (=) line_gt.
Proof. intros a b H1 H2. unfold line_gt in *. lia. Qed.

(** X2. When no two messages of a file share a line number, the pass does
    not depend on the order of the messages in the report. *)
Theorem pass_order_independent (msgs msgs' : list diagnostic) (st : state) :
  msgs' ≡ₚ msgs ->
  NoDup (line <$> msgs) ->
  process_errors msgs' st = process_errors msgs st.
Proof.
  intros Hp Hnd. unfold process_errors.
  replace (sorted_desc msgs') with (sorted_desc msgs); [reflexivity|].
  apply (StronglySorted_unique line_gt).
  - apply sorted_desc_strict. exact Hnd.
  - apply sorted_desc_strict. rewrite Hp. exact Hnd.
  - rewrite !sorted_desc_perm. symmetry. exact Hp.
Qed.

(** ** Bounds *)

(** X3. A message raises [IndexError] exactly when it names a variable
    without leading underscore and its index [line - 1] lies outside
    [-len, len); the state is then the state before. *)
Theorem index_error_iff (error : diagnostic) (st : state) :
  process_error error st = (Raise IndexError, st) <->
  (exists v, extract_name (message error) = Some v /\
             starts_with (txt "_") v = false) /\
  ~ (- Z.of_nat (length (lines st)) <= line error - 1 < Z.of_nat (length (lines st))).
Proof.
  rewrite process_error_unfold.
  destruct (extract_name (message error)) as [v|] eqn:Ev.
  2:{ split; [discriminate|]. intros [(v & Hv & _) _]. discriminate. }
  destruct (starts_with (txt "_") v) eqn:Eu.
  { split; [discriminate|]. intros [(v' & Hv & Hu) _]. congruence. }
  destruct (py_index (lines st) (line error - 1)) as [n|] eqn:En.
  - pose proof (py_index_lt _ _ _ En) as Hn.
    destruct (lookup_lt_is_Some_2 (lines st) n Hn) as [l Hl]. rewrite Hl.
    assert (Hin : - Z.of_nat (length (lines st)) <= line error - 1
                  < Z.of_nat (length (lines st))).
    { unfold py_index in En.
      destruct ((0 <=? line error - 1)
                && (line error - 1 <? Z.of_nat (length (lines st)))) eqn:E1.
      - apply andb_true_iff in E1 as [H1 H2]. lia.
      - destruct ((- Z.of_nat (length (lines st)) <=? line error - 1)
                  && (line error - 1 <? 0)) eqn:E2; [|discriminate].
        apply andb_true_iff in E2 as [H1 H2]. lia. }
    split; [|intros [_ Hout]; contradiction].
    destruct (rewrite_line v (message error) l) as [new|]; [|discriminate].
    destruct (text_eqb new l); discriminate.
  - split; [|reflexivity]. intros _. split; [eauto|].
    intros Hin. destruct (Z_lt_le_dec (line error - 1) 0).
    + rewrite py_index_neg in En by lia. discriminate.
    + rewrite py_index_nonneg in En by lia. discriminate.
Qed.

Lemma rewrite_line_some (v message cur_line : text) :
  contains (txt "\") v = false ->
  is_Some (rewrite_line v message cur_line).
Proof.
  intros Hv. rewrite rewrite_line_dispatch. unfold re_sub, new_name, new_clause.
  assert (Hb : contains (txt "\") ("_"%char :: v) = false).
  { change (contains (txt "\") ("_"%char :: v))
      with (starts_with (txt "\") ("_"%char :: v) || contains (txt "\") v).
    rewrite Hv. reflexivity. }
  assert (Hc : contains (txt "\") (txt "catch (" ++ "_"%char :: v ++ txt ")") = false).
  { change (txt "\") with ["\"%char] in *.
    change ("_"%char :: v ++ txt ")") with (("_"%char :: v) ++ txt ")").
    rewrite !contains_single_app, Hb. reflexivity. }
  rewrite Hb, Hc. destruct (uses_clause message cur_line); eexists; reflexivity.
Qed.

Lemma for_each_process_error_ok (errors : list diagnostic) (st : state) :
  Forall (fun m => - Z.of_nat (length (lines st)) <= line m - 1
                   < Z.of_nat (length (lines st))) errors ->
  Forall (fun m => forall v, extract_name (message m) = Some v ->
                             contains (txt "\") v = false) errors ->
  fst (for_each process_error errors st) = Ok tt.
Proof.
  revert st. induction errors as [|e errors IH]; intros st Hin Hnb; [reflexivity|].
  apply Forall_cons in Hin as [Hine Hin]. apply Forall_cons in Hnb as [Hnbe Hnb].
  rewrite for_each_cons.
  destruct (process_error_frame parse_template e st) as [_ Hlen].
  assert (Hok : fst (process_error e st) = Ok tt).
  { rewrite process_error_unfold.
    destruct (extract_name (message e)) as [v|] eqn:Ev; [|reflexivity].
    destruct (starts_with (txt "_") v); [reflexivity|].
    assert (Hidx : exists n, py_index (lines st) (line e - 1) = Some n).
    { destruct (Z_lt_le_dec (line e - 1) 0).
      - rewrite py_index_neg by lia. eauto.
      - rewrite py_index_nonneg by lia. eauto. }
    destruct Hidx as [n Hn]. rewrite Hn.
    destruct (lookup_lt_is_Some_2 (lines st) n (py_index_lt _ _ _ Hn)) as [l Hl].
    rewrite Hl.
    destruct (rewrite_line_some v (message e) l (Hnbe v eq_refl)) as [new Hnew].
    rewrite Hnew. destruct (text_eqb new l); reflexivity. }
  destruct (process_error e st) as [[[]|x] st1]; simpl in Hok, Hlen; [|discriminate].
  apply IH; [|exact Hnb]. rewrite Hlen. exact Hin.
Qed.

(** X4. An entry ends normally when its file can be read and written, every
    message indexes a line of the file ([-len <= line - 1 < len]) and no
    variable name holds a backslash. *)
Theorem process_file_succeeds (fd : file_data) (st : state) (f : file) :
  fs st !! resolve (filePath fd) = Some f ->
  readable f = true ->
  writable f = true ->
  Forall (fun m => - Z.of_nat (length (readlines f)) <= line m - 1
                   < Z.of_nat (length (readlines f))) (messages fd) ->
  Forall (fun m => forall v, extract_name (message m) = Some v ->
                             contains (txt "\") v = false) (messages fd) ->
  fst (process_file fd st) = Ok tt.
Proof.
  intros Hf Hr Hw Hin Hnb. rewrite process_file_unfold. cbv zeta. rewrite Hf, Hr.
  match goal with
  | |- context [process_errors ?m ?s] =>
      pose proof (for_each_process_error_ok (sorted_desc m) s) as Hok;
      pose proof (for_each_process_error_frame parse_template (sorted_desc m) s)
        as [Hfs _];
      fold (process_errors m) in Hok, Hfs;
      destruct (process_errors m s) as [[[]|e1] st1]
  end; simpl in Hok, Hfs.
  - unfold write_lines. rewrite Hfs, Hf, Hw. reflexivity.
  - exfalso. assert (Raise e1 = Ok tt) as Habs; [|discriminate].
    apply Hok; rewrite sorted_desc_perm; assumption.
Qed.

(** ** The files *)

Lemma keeps_bind {A B : Type} (i : inode) (m : M A) (f : A -> M B) :
  keeps i m -> (forall a, keeps i (f a)) -> keeps i (m ≫= f).
Proof.
  intros Hm Hf st. rewrite bind_unfold. specialize (Hm st).
  destruct (m st) as [[a|e] st1]; simpl in Hm; [|exact Hm].
  rewrite Hf. exact Hm.
Qed.

Lemma keeps_ret {A : Type} (i : inode) (a : A) : keeps i (mret a).
Proof. intros st. reflexivity. Qed.

Lemma keeps_raise {A : Type} (i : inode) (e : exn) : keeps i (@raise A e).
Proof. intros st. reflexivity. Qed.

Lemma keeps_for_each {A : Type} (i : inode) (body : A -> M unit) (l : list A) :
  (forall x, keeps i (body x)) -> keeps i (for_each body l).
Proof.
  intros Hb. induction l as [|x l IH]; [apply keeps_ret|].
  simpl. apply keeps_bind; [apply Hb|intros _; exact IH].
Qed.

Lemma keeps_map_each {A B : Type} (i : inode) (f : A -> M B) (l : list A) :
  (forall x, keeps i (f x)) -> keeps i (map_each f l).
Proof.
  intros Hf. induction l as [|x l IH]; [apply keeps_ret|].
  simpl. apply keeps_bind; [apply Hf|intros y].
  apply keeps_bind; [exact IH|intros ys; apply keeps_ret].
Qed.

Lemma keeps_subscript (i : inode) (v : json) (key : text) : keeps i (subscript v key).
Proof.
  destruct v; try apply keeps_raise. unfold subscript.
  destruct (assoc key d); [apply keeps_ret|apply keeps_raise].
Qed.

Lemma keeps_iterate (i : inode) (v : json) : keeps i (iterate v).
Proof. destruct v; first [apply keeps_raise|apply keeps_ret]. Qed.

Lemma keeps_minus_one (i : inode) (v : json) : keeps i (minus_one v).
Proof. destruct v; first [apply keeps_raise|apply keeps_ret]. Qed.

Lemma keeps_as_str (i : inode) (v : json) : keeps i (as_str v).
Proof. destruct v; first [apply keeps_raise|apply keeps_ret]. Qed.

Lemma keeps_get_item (i : inode) (n : number) : keeps i (get_item n).
Proof.
  destruct n as [n|]; [|apply keeps_raise]. intros st. unfold get_item, get_line.
  destruct (py_index (lines st) n) as [k|]; [destruct (lines st !! k)|]; reflexivity.
Qed.

Lemma keeps_set_item (i : inode) (n : number) (l : text) : keeps i (set_item n l).
Proof.
  destruct n as [n|]; [|apply keeps_raise]. intros st. unfold set_item, set_line.
  destruct (py_index (lines st) n); reflexivity.
Qed.

Lemma keeps_print (i : inode) (o : output) : keeps i (print o).
Proof. intros st. reflexivity. Qed.

Lemma keeps_descriptor (i : inode) (n : Z) : keeps i (descriptor n).
Proof.
  unfold descriptor. destruct ((n <? - 2 ^ 31) || (2 ^ 31 <=? n)); [apply keeps_raise|].
  destruct (n <? 0); [apply keeps_raise|apply keeps_ret].
Qed.

Lemma keeps_read_lines (i : inode) (path : text) : keeps i (read_lines resolve path).
Proof.
  unfold read_lines. apply keeps_bind; [|intros s; apply keeps_ret].
  intros st. unfold read_text.
  destruct (fs st !! resolve path) as [f|]; [destruct (readable f)|]; reflexivity.
Qed.

Lemma keeps_write_lines (i : inode) (path : text) (ls : list text) :
  i <> resolve path -> keeps i (write_lines path ls).
Proof.
  intros Hi st. unfold write_lines.
  destruct (fs st !! resolve path) as [f|]; [destruct (writable f)|]; simpl;
    rewrite ?lookup_insert_ne by congruence; reflexivity.
Qed.

(** A message touches no file, whatever its shape. *)
Lemma keeps_run_error (i : inode) (error : json) : keeps i (run_error error).
Proof.
  unfold run_error.
  apply keeps_bind; [apply keeps_subscript|intros l].
  apply keeps_bind; [apply keeps_minus_one|intros line_num].
  apply keeps_bind; [apply keeps_subscript|intros v].
  apply keeps_bind; [apply keeps_as_str|intros message].
  destruct (extract_name message) as [var_name|]; [|apply keeps_ret].
  destruct (starts_with (txt "_") var_name); [apply keeps_ret|].
  apply keeps_bind; [apply keeps_get_item|intros cur_line].
  destruct (rewrite_line var_name message cur_line) as [new_line|]; [|apply keeps_raise].
  destruct (text_eqb new_line cur_line); [apply keeps_ret|].
  apply keeps_bind; [apply keeps_set_item|intros _].
  apply keeps_bind; [intros st; reflexivity|intros n].
  apply keeps_bind; [intros st; reflexivity|intros _]. apply keeps_print.
Qed.

Lemma keeps_sorted_by_line (i : inode) (msgs : json) : keeps i (sorted_by_line msgs).
Proof.
  unfold sorted_by_line.
  apply keeps_bind; [apply keeps_iterate|intros l].
  apply keeps_bind; [apply keeps_map_each; intros x; apply keeps_subscript|intros keys].
  destruct (mapM as_int keys); [apply keeps_ret|].
  destruct l as [|x [|y l]]; try apply keeps_ret.
  destruct (sort_other _); [apply keeps_ret|apply keeps_raise].
Qed.

Lemma keeps_bind_ok {A B : Type} (i : inode) (m : M A) (f : A -> M B) :
  keeps i m ->
  (forall a, (exists st, fst (m st) = Ok a) -> keeps i (f a)) ->
  keeps i (m ≫= f).
Proof.
  intros Hm Hf st. rewrite bind_unfold. specialize (Hm st).
  destruct (m st) as [[a|e] st1] eqn:E; simpl in Hm; [|exact Hm].
  rewrite Hf; [exact Hm|]. exists st. rewrite E. reflexivity.
Qed.

Lemma keeps_for_each_in {A : Type} (i : inode) (body : A -> M unit) (l : list A) :
  (forall x, x ∈ l -> keeps i (body x)) -> keeps i (for_each body l).
Proof.
  induction l as [|x l IH]; intros Hb; [apply keeps_ret|].
  simpl. apply keeps_bind; [apply Hb; left|intros _].
  apply IH. intros y Hy. apply Hb. right. exact Hy.
Qed.

Lemma keeps_open_read (i : inode) (v : json) :
  keeps i (open_read resolve read_descriptor v).
Proof.
  destruct v; try apply keeps_raise; unfold open_read.
  - apply keeps_bind; [apply keeps_descriptor|intros n].
    destruct (read_descriptor n); [apply keeps_ret|apply keeps_raise].
  - apply keeps_bind; [apply keeps_descriptor|intros k].
    destruct (read_descriptor k); [apply keeps_ret|apply keeps_raise].
  - destruct (has_nul s); [apply keeps_raise|apply keeps_read_lines].
Qed.

Lemma keeps_open_write (i : inode) (v : json) (ls : list text) :
  (forall p, v = JStr p -> i <> resolve p) ->
  keeps i (open_write resolve v ls).
Proof.
  intros Hp. destruct v; try apply keeps_raise; unfold open_write.
  - apply keeps_bind; [apply keeps_descriptor|intros k; apply keeps_raise].
  - apply keeps_bind; [apply keeps_descriptor|intros k; apply keeps_raise].
  - destruct (has_nul s); [apply keeps_raise|].
    apply keeps_write_lines. apply Hp. reflexivity.
Qed.

(** An entry, whatever its shape, leaves every file alone but the one its
    [filePath] leads to. *)
Lemma keeps_run_file (i : inode) (entry : json) :
  (forall p, named_path entry = Some p -> i <> resolve p) ->
  keeps i (run_file entry).
Proof.
  intros Hp. unfold run_file.
  apply keeps_bind_ok; [apply keeps_subscript|intros file_path [st0 Hsub]].
  assert (Hpath : forall p, file_path = JStr p -> i <> resolve p).
  { intros p ->. apply Hp. destruct entry as [| | | | | |d]; try discriminate Hsub.
    unfold subscript in Hsub. unfold named_path.
    destruct (assoc (txt "filePath") d) as [x|]; [|discriminate Hsub].
    simpl in Hsub. inversion Hsub; subst x. reflexivity. }
  apply keeps_bind; [apply keeps_print|intros _].
  apply keeps_bind; [apply keeps_open_read|intros ls].
  apply keeps_bind; [intros st; reflexivity|intros _].
  apply keeps_bind; [apply keeps_subscript|intros msgs].
  apply keeps_bind; [apply keeps_sorted_by_line|intros errors].
  apply keeps_bind; [apply keeps_for_each; apply keeps_run_error|intros _].
  apply keeps_bind; [intros st; reflexivity|intros ls'].
  apply keeps_bind; [apply keeps_open_write; exact Hpath|intros _]. apply keeps_print.
Qed.

Lemma named_path_iterate (j : json) (l : list json) (st : state) (x : json) (p : text) :
  fst (iterate j st) = Ok l -> x ∈ l -> named_path x = Some p -> p ∈ listed_paths j.
Proof.
  destruct j as [| | | |s|l0|d]; simpl; try discriminate.
  - intros H; inversion H; subst l. intros Hx Hp.
    apply list_elem_of_fmap in Hx as (c & -> & _). discriminate.
  - intros H; inversion H; subst l. intros Hx Hp.
    apply list_elem_of_omap. exists x. split; assumption.
  - intros H; inversion H; subst l. intros Hx Hp.
    apply list_elem_of_fmap in Hx as (c & -> & _). discriminate.
Qed.

(** X5. A run changes no file but those the paths of the report lead to:
    whatever the decoded report is, and however the run ends, a file that
    is not the file of some [filePath] of the report holds after the run what
    it held before. Two spellings of one path lead to one file. *)
Theorem only_listed_files_change (st : state) (i : inode) :
  (forall j, fst (load_report st) = Ok j -> i ∉ resolve <$> listed_paths j) ->
  fs (snd (main st)) !! i = fs st !! i.
Proof.
  intros Hi. rewrite main_unfold.
  pose proof (load_report_state resolve json_load st) as Hst.
  destruct (load_report st) as [[j|e] st0]; simpl in Hst; subst st0; [|reflexivity].
  specialize (Hi j eq_refl). cbv zeta.
  destruct (iterate j _) as [[l|e] st0] eqn:Eit; [|reflexivity].
  assert (Hrun : keeps i (for_each run_file l)).
  { apply keeps_for_each_in. intros x Hx. apply keeps_run_file. intros p Hp Heq.
    apply Hi. apply list_elem_of_fmap. exists p. split; [exact Heq|].
    eapply named_path_iterate; [|exact Hx|exact Hp]. rewrite Eit. reflexivity. }
  match goal with
  | |- context [for_each ?b l ?s] =>
      specialize (Hrun s); destruct (for_each b l s) as [[[]|e] st1]
  end; exact Hrun.
Qed.

(** ** A report that is not of the expected shape *)

Lemma fails_bind_l {A B : Type} (m : M A) (f : A -> M B) : fails m -> fails (m ≫= f).
Proof.
  intros Hm st. rewrite bind_unfold. destruct (Hm st) as [e He].
  destruct (m st) as [[a|e'] st1]; simpl in He; [discriminate|]. eexists; reflexivity.
Qed.

Lemma fails_bind_r {A B : Type} (m : M A) (f : A -> M B) :
  (forall a, fails (f a)) -> fails (m ≫= f).
Proof.
  intros Hf st. rewrite bind_unfold.
  destruct (m st) as [[a|e'] st1]; [apply Hf|]. eexists; reflexivity.
Qed.

Lemma fails_raise {A : Type} (e : exn) : fails (@raise A e).
Proof. intros st. eexists; reflexivity. Qed.

(** An entry that is no [dict], or has no [filePath], or one that is no
    [str], ends with an exception: a path is the only value that [open]
    takes for writing. *)
Lemma run_file_no_path (entry : json) :
  named_path entry = None -> fails (run_file entry).
Proof.
  intros Hp. unfold run_file.
  destruct entry as [| | | | | |d]; try (apply fails_bind_l; apply fails_raise).
  unfold named_path in Hp. intros st. rewrite bind_unfold. unfold subscript at 1.
  destruct (assoc (txt "filePath") d) as [v|]; [|eexists; reflexivity].
  cbn [mret M_ret]. revert st.
  change (fails (print (Processing v) ≫= λ _ : (),
    open_read resolve read_descriptor v ≫= λ ls : list text,
    set_lines ls ≫= λ _ : (),
    subscript (JObj d) (txt "messages") ≫= λ msgs : json,
    sorted_by_line msgs ≫= λ errors : list json,
    for_each run_error errors ≫= λ _ : (),
    get_lines ≫= λ ls' : list text,
    open_write resolve v ls' ≫= λ _ : (), print FileUpdated)).
  do 7 (apply fails_bind_r; intros ?). apply fails_bind_l.
  destruct v; try discriminate; try apply fails_raise; unfold open_write;
    apply fails_bind_r; intros ?; apply fails_raise.
Qed.

(** X17. A report that decodes but is not of the expected shape is not
    rejected when it is loaded: the entries are processed in their order, and
    the run ends when it reaches an entry that is no [dict] or has no path
    under [filePath]. The files of the entries before it are then already
    rewritten, and no entry after it is processed. *)
Theorem ill_shaped_entry_fails_late (pre post : list json) (entry : json)
    (r : list file_data) (st st1 : state) :
  fst (load_report st) = Ok (JArr (pre ++ entry :: post)) ->
  mapM as_file_data pre = Some r ->
  for_each process_file r (State (fs st) (lines st) 0 (stdout st)) = (Ok tt, st1) ->
  named_path entry = None ->
  exists (e : exn) (st2 : state),
    main st = (Raise e, st2) /\ fs st2 = fs st1.
Proof.
  intros Hload Hr Hpre Hno.
  destruct (run_file_no_path entry Hno st1) as [e He].
  exists e, (snd (run_file entry st1)). split.
  - rewrite main_unfold.
    pose proof (load_report_state resolve json_load st) as Hst.
    destruct (load_report st) as [[j|e'] st0]; simpl in Hload, Hst; [|discriminate].
    inversion Hload; subst j st0; clear Hload.
    cbv zeta. cbn [iterate mret M_ret].
    rewrite for_each_app.
    rewrite (for_each_pointwise run_file process_file pre r).
    2:{ apply mapM_Some in Hr. eapply Forall2_impl; [exact Hr|].
        intros x y Hxy st'. apply run_file_shaped, Hxy. }
    rewrite Hpre, for_each_cons.
    destruct (run_file entry st1) as [[[]|e'] st2]; simpl in He; [discriminate|].
    inversion He; subst e'. reflexivity.
  - apply map_eq. intros i. apply keeps_run_file. intros p Hp. congruence.
Qed.

(** ** Reading and writing back *)

Lemma concat_split_lines (cur s : text) : concat (split_lines cur s) = cur ++ s.
Proof.
  revert cur. induction s as [|c s IH]; intros cur; simpl.
  - destruct cur; simpl; rewrite ?app_nil_r; reflexivity.
  - destruct (Ascii.eqb c "010"); simpl; rewrite IH, <- ?app_assoc; reflexivity.
Qed.

Lemma universal_newlines_id (s : text) :
  Forall (fun c => c <> "013"%char) s -> universal_newlines s = s.
Proof.
  induction 1 as [|c s Hc _ IH]; [reflexivity|].
  assert (E : Ascii.eqb c "013" = false) by (apply Ascii.eqb_neq; exact Hc).
  destruct c as [[] [] [] [] [] [] [] []]; try discriminate;
    simpl; rewrite IH; reflexivity.
Qed.

Lemma process_error_total (error : diagnostic) (st : state) :
  snd (process_error error st) = st \/
  total_fixed (snd (process_error error st)) = S (total_fixed st).
Proof.
  rewrite process_error_unfold.
  repeat match goal with
         | |- context [match ?x with _ => _ end] => destruct x
         end; simpl; auto.
Qed.

Lemma for_each_process_error_total (errors : list diagnostic) (st : state) :
  (total_fixed st <= total_fixed (snd (for_each process_error errors st)))%nat /\
  (total_fixed (snd (for_each process_error errors st)) <= total_fixed st + length errors)%nat /\
  (total_fixed (snd (for_each process_error errors st)) = total_fixed st ->
   lines (snd (for_each process_error errors st)) = lines st).
Proof.
  revert st. induction errors as [|e errors IH]; intros st.
  - simpl. repeat split; auto; lia.
  - rewrite for_each_cons. pose proof (process_error_total e st) as Hstep.
    destruct (process_error e st) as [[[]|x] st1]; simpl in Hstep.
    + destruct (IH st1) as (H1 & H2 & H3). simpl length.
      destruct Hstep as [->|Hs].
      * repeat split; [exact H1|lia|exact H3].
      * repeat split; [lia|lia|]. intros Heq. lia.
    + simpl. destruct Hstep as [->|Hs]; repeat split; auto; try lia.
Qed.

(** X6. An entry that ends normally without a fix still rewrites its file:
    the file then holds the text as it was read, that is with every line end
    turned into a line feed, and exactly its old content when that has no
    carriage return. *)
Theorem unfixed_file_rewritten (fd : file_data) (st st' : state) (f : file) :
  fs st !! resolve (filePath fd) = Some f ->
  process_file fd st = (Ok tt, st') ->
  total_fixed st' = total_fixed st ->
  exists f',
    fs st' !! resolve (filePath fd) = Some f' /\
    content f' = universal_newlines (content f) /\
    (Forall (fun c => c <> "013"%char) (content f) -> content f' = content f).
Proof.
  intros Hf Hrun Htot. rewrite process_file_unfold in Hrun. cbv zeta in Hrun.
  rewrite Hf in Hrun. destruct (readable f); [|discriminate].
  match type of Hrun with
  | context [process_errors ?m ?s] =>
      pose proof (for_each_process_error_frame parse_template (sorted_desc m) s)
        as [Hfs _];
      pose proof (for_each_process_error_total (sorted_desc m) s) as (_ & _ & Hlines);
      fold (process_errors m) in Hfs, Hlines;
      destruct (process_errors m s) as [[[]|e1] st1]
  end; simpl in Hfs, Hlines; [|discriminate].
  unfold write_lines in Hrun. rewrite Hfs, Hf in Hrun.
  destruct (writable f); [|discriminate].
  simpl in Hrun. inversion Hrun; subst st'; clear Hrun. simpl in *.
  eexists. rewrite lookup_insert_eq. split; [reflexivity|]. simpl.
  rewrite Hlines by exact Htot. unfold readlines.
  rewrite concat_split_lines. simpl.
  split; [reflexivity|]. intros Hcr. apply universal_newlines_id. exact Hcr.
Qed.

(** X7. The fix counter never exceeds the number of messages: a pass counts
    at most one fix for each message, and a run on a report of the expected
    shape at most one for each message of the report, however it ends. *)
Theorem fixes_bounded :
  (forall (msgs : list diagnostic) (st : state),
      (total_fixed st <= total_fixed (snd (process_errors msgs st))
       <= total_fixed st + length msgs)%nat) /\
  (forall (st : state) (j : json) (r : list file_data),
      fst (load_report st) = Ok j ->
      as_report j = Some r ->
      (total_fixed (snd (main st)) <= sum_list ((fun fd => length (messages fd)) <$> r))%nat).
Proof.
  assert (Hpass : forall msgs st,
             (total_fixed st <= total_fixed (snd (process_errors msgs st))
              <= total_fixed st + length msgs)%nat).
  { intros msgs st. unfold process_errors.
    destruct (for_each_process_error_total (sorted_desc msgs) st) as (H1 & H2 & _).
    rewrite (Permutation_length (sorted_desc_perm msgs)) in H2. lia. }
  split; [exact Hpass|].
  assert (Hfile : forall fd st,
             (total_fixed (snd (process_file fd st))
              <= total_fixed st + length (messages fd))%nat).
  { intros fd st. rewrite process_file_unfold. cbv zeta.
    destruct (fs st !! resolve (filePath fd)) as [f|]; [destruct (readable f)|]; simpl; try lia.
    match goal with
    | |- context [process_errors ?m ?s] =>
        pose proof (Hpass m s) as Hp;
        destruct (process_errors m s) as [[[]|e1] st1]
    end; simpl in Hp; [|simpl; lia].
    unfold write_lines.
    destruct (fs st1 !! resolve (filePath fd)) as [f1|]; [destruct (writable f1)|]; simpl; lia. }
  assert (Hloop : forall r st,
             (total_fixed (snd (for_each process_file r st))
              <= total_fixed st + sum_list ((fun fd => length (messages fd)) <$> r))%nat).
  { induction r as [|fd r IH]; intros st; [simpl; lia|].
    rewrite for_each_cons. pose proof (Hfile fd st) as Hfd.
    destruct (process_file fd st) as [[[]|e] st1]; simpl in Hfd.
    - specialize (IH st1). rewrite fmap_cons. simpl sum_list. lia.
    - rewrite fmap_cons. simpl. lia. }
  intros st j r Hload Hr.
  rewrite (main_shaped resolve read_descriptor json_load parse_template sort_other
             st j r Hload Hr), process_report_unfold.
  match goal with
  | |- context [for_each ?b r ?s] =>
      pose proof (Hloop r s) as Hrun;
      destruct (for_each b r s) as [[[]|e] st1]
  end; simpl in Hrun; simpl; exact Hrun.
Qed.

End Further.

(** ** The name in a message *)

Lemma search_from_suffix (r : regex) (prev : option ascii) (s : text) (gs : list text) :
  search_from r prev s = Some gs ->
  exists pre s' n, s = pre ++ s' /\ match_at r (last_char prev pre, s') = Some (n, gs).
Proof.
  revert prev. induction s as [|c s IH]; intros prev; simpl.
  - destruct (match_at r (prev, [])) as [[n gs']|] eqn:E; [|discriminate].
    intros H; inversion H; subst. exists [], [], n. auto.
  - destruct (match_at r (prev, c :: s)) as [[n gs']|] eqn:E.
    + intros H; inversion H; subst. exists [], (c :: s), n. auto.
    + intros H. apply IH in H as (pre & s' & n & -> & H).
      exists (c :: pre), s', n. auto.
Qed.

Lemma search_from_match (r : regex) (prev : option ascii) (s : text) (n : nat)
    (gs : list text) :
  match_at r (prev, s) = Some (n, gs) -> search_from r prev s = Some gs.
Proof. intros H. destruct s; simpl; rewrite H; reflexivity. Qed.

Lemma search_from_app (r : regex) (pre s : text) (prev : option ascii) :
  (forall prev' c s', c ∈ pre -> match_at r (prev', c :: s') = None) ->
  search_from r prev (pre ++ s) = search_from r (last_char prev pre) s.
Proof.
  revert prev. induction pre as [|c pre IH]; intros prev Hno; [reflexivity|].
  simpl app. simpl search_from.
  rewrite (Hno prev c (pre ++ s)) by (left).
  simpl last_char. apply IH. intros prev' d s' Hd. apply Hno. right. exact Hd.
Qed.

Lemma star_inv_run {R : Type} (p : ascii -> bool) (k : @cont R) (prev : option ascii)
    (s : text) (gs : list text) (x : R) :
  star p k prev s gs = Some x ->
  exists run s', s = run ++ s' /\ forallb p run = true /\
                 k (last_char prev run, s') gs = Some x.
Proof.
  revert prev. induction s as [|c s IH]; intros prev; simpl.
  - intros H. exists [], []. auto.
  - destruct (p c) eqn:Ec; [|intros H; exists [], (c :: s); auto].
    destruct (star p k (Some c) s gs) as [y|] eqn:E.
    + intros H; inversion H; subst y.
      apply IH in E as (run & s' & -> & Hrun & Hk).
      exists (c :: run), s'. simpl. rewrite Ec, Hrun. auto.
    + intros H. exists [], (c :: s). auto.
Qed.

Lemma unused_re_unfold {R : Type} (k0 : @cont R) (prev : option ascii) (s : text) :
  rmatch unused_re k0 (prev, s) [] =
  match eat (txt "'") prev s with
  | Some cur1 =>
      match snd cur1 with
      | c :: s1 =>
          if not_char "'" c
          then star (not_char "'")
                 (fun cur' gs' =>
                    match eat (txt "' is ") (fst cur') (snd cur') with
                    | Some cur3 =>
                        let gs3 := gs' ++ [take (length (snd cur1) - length (snd cur'))
                                             (snd cur1)] in
                        let k4 := fun (cur4 : cursor) (gs4 : list text) =>
                                    k0 cur4 (gs4 ++ [take (length (snd cur3)
                                                           - length (snd cur4))
                                                       (snd cur3)]) in
                        match match eat kind_defined (fst cur3) (snd cur3) with
                              | Some cur4 => k4 cur4 gs3
                              | None => None
                              end with
                        | Some x => Some x
                        | None =>
                            match eat kind_assigned (fst cur3) (snd cur3) with
                            | Some cur4 => k4 cur4 gs3
                            | None => None
                            end
                        end
                    | None => None
                    end)
                 (Some c) s1 []
          else None
      | [] => None
      end
  | None => None
  end.
Proof. reflexivity. Qed.

(** X8. A name extracted from a message is not empty and holds no
    quote; in the message it stands between quotes, followed by " is " and
    one of the two kinds of diagnostics. *)
Theorem extract_name_shape (message v : text) :
  extract_name message = Some v ->
  v <> [] /\
  Forall (fun c => c <> "'"%char) v /\
  exists pre kind post,
    (kind = kind_defined \/ kind = kind_assigned) /\
    message = pre ++ txt "'" ++ v ++ txt "' is " ++ kind ++ post.
Proof.
  unfold extract_name, search. intros H.
  destruct (search_from unused_re None message) as [[|g1 gs]|] eqn:E; try discriminate.
  inversion H; subst g1; clear H.
  apply search_from_suffix in E as (pre & s & n & -> & E).
  unfold match_at in E. rewrite unused_re_unfold in E.
  destruct (eat (txt "'") (last_char None pre) s) as [cur1|] eqn:E1; [|discriminate].
  apply eat_Some in E1 as [Hs _]. subst s.
  destruct (snd cur1) as [|c s1]; [discriminate|].
  destruct (not_char "'" c) eqn:Ec; [|discriminate].
  apply star_inv_run in E as (run & s2 & -> & Hrun & E).
  cbn [fst snd] in E.
  destruct (eat (txt "' is ") (last_char (Some c) run) s2) as [cur3|] eqn:E3;
    [|discriminate].
  apply eat_Some in E3 as [Hs2 _]. subst s2. cbv zeta in E.
  assert (Hg : take (length (c :: run ++ txt "' is " ++ snd cur3)
                     - length (txt "' is " ++ snd cur3))
                 (c :: run ++ txt "' is " ++ snd cur3) = c :: run).
  { change (c :: run ++ txt "' is " ++ snd cur3)
      with ((c :: run) ++ txt "' is " ++ snd cur3).
    rewrite length_app.
    replace (length (c :: run) + length (txt "' is " ++ snd cur3)
             - length (txt "' is " ++ snd cur3))%nat
      with (length (c :: run)) by lia.
    apply take_app_length. }
  rewrite Hg in E. clear Hg.
  assert (Hv : forall kind cur4 x,
             eat kind (fst cur3) (snd cur3) = Some cur4 ->
             Some ((length (snd (last_char None pre, txt "'" ++ c :: run ++ txt "' is "
                                   ++ snd cur3))
                    - length (snd cur4))%nat,
                   ([] ++ [c :: run]) ++ [x]) = Some (n, v :: gs) ->
             v = c :: run /\ snd cur3 = kind ++ snd cur4).
  { intros kind cur4 x He Hx. apply eat_Some in He as [He _].
    simpl in Hx. inversion Hx; subst. auto. }
  assert (Hshape : v = c :: run /\
                   exists kind post, (kind = kind_defined \/ kind = kind_assigned) /\
                                     snd cur3 = kind ++ post).
  { destruct (eat kind_defined (fst cur3) (snd cur3)) as [cur4|] eqn:E4.
    - cbn [fst snd] in E. destruct (Hv _ _ _ E4 E) as [-> Hk]. split; [reflexivity|].
      exists kind_defined, (snd cur4). auto.
    - destruct (eat kind_assigned (fst cur3) (snd cur3)) as [cur4|] eqn:E5;
        [|discriminate].
      cbn [fst snd] in E. destruct (Hv _ _ _ E5 E) as [-> Hk]. split; [reflexivity|].
      exists kind_assigned, (snd cur4). auto. }
  destruct Hshape as [-> (kind & post & Hkind & Hpost)].
  split; [discriminate|]. split.
  - apply Forall_forall. intros d Hd Heq. subst d.
    assert (Hall : forallb (not_char "'") (c :: run) = true)
      by (simpl; rewrite Ec, Hrun; reflexivity).
    rewrite forallb_forall in Hall. apply list_elem_of_In in Hd.
    specialize (Hall _ Hd). unfold not_char in Hall. rewrite Ascii.eqb_refl in Hall.
    discriminate.
  - exists pre, kind, post. split; [exact Hkind|]. rewrite Hpost. reflexivity.
Qed.

Lemma eat_cons (a : ascii) (p : text) (prev : option ascii) (b : ascii) (s : text) :
  eat (a :: p) prev (b :: s) = if Ascii.eqb a b then eat p (Some b) s else None.
Proof. reflexivity. Qed.

Lemma match_at_unused_no_quote (prev : option ascii) (c : ascii) (s : text) :
  c <> "'"%char -> match_at unused_re (prev, c :: s) = None.
Proof.
  intros Hc. unfold match_at. rewrite unused_re_unfold.
  change (txt "'") with ["'"%char]. rewrite eat_cons.
  assert (E : Ascii.eqb "'" c = false) by (apply Ascii.eqb_neq; congruence).
  rewrite E. reflexivity.
Qed.

(** X9. Conversely, the first quoted text of a message is the name
    extracted, when it is followed by " is " and one of the two kinds. *)
Theorem extract_name_first_quoted (pre v kind post : text) :
  Forall (fun c => c <> "'"%char) pre ->
  v <> [] ->
  Forall (fun c => c <> "'"%char) v ->
  kind = kind_defined \/ kind = kind_assigned ->
  extract_name (pre ++ txt "'" ++ v ++ txt "' is " ++ kind ++ post) = Some v.
Proof.
  intros Hpre Hne Hv Hkind. unfold extract_name, search.
  rewrite search_from_app.
  2:{ intros prev' c s' Hc. apply match_at_unused_no_quote.
      rewrite Forall_forall in Hpre. apply Hpre. exact Hc. }
  set (p := last_char None pre).
  set (s := txt "'" ++ v ++ txt "' is " ++ kind ++ post).
  assert (Hm : exists n gs, match_at unused_re (p, s) = Some (n, v :: gs)).
  { unfold match_at. rewrite unused_re_unfold. unfold s. rewrite eat_app. cbn [fst snd].
    destruct v as [|c v']; [congruence|]. rewrite <- app_comm_cons.
    apply Forall_cons in Hv as [Hc Hv'].
    assert (Ec : not_char "'" c = true).
    { unfold not_char. apply negb_true_iff, Ascii.eqb_neq. congruence. }
    rewrite Ec.
    assert (Hrun : forallb (not_char "'") v' = true).
    { apply forallb_forall. intros d Hd. unfold not_char.
      apply negb_true_iff, Ascii.eqb_neq. rewrite Forall_forall in Hv'.
      intros Heq. apply (Hv' d); [apply list_elem_of_In; exact Hd|congruence]. }
    rewrite star_run; [|exact Hrun|reflexivity|].
    - cbn [fst snd]. rewrite eat_app. cbn [fst snd]. cbv zeta.
      assert (Hg : take (length (c :: v' ++ txt "' is " ++ kind ++ post)
                         - length (txt "' is " ++ kind ++ post))
                     (c :: v' ++ txt "' is " ++ kind ++ post) = c :: v').
      { change (c :: v' ++ txt "' is " ++ kind ++ post)
          with ((c :: v') ++ txt "' is " ++ kind ++ post).
        rewrite length_app.
        replace (length (c :: v') + length (txt "' is " ++ kind ++ post)
                 - length (txt "' is " ++ kind ++ post))%nat
          with (length (c :: v')) by lia.
        apply take_app_length. }
      rewrite Hg.
      destruct Hkind as [-> | ->].
      + rewrite eat_app. eexists _, _. reflexivity.
      + assert (En : eat kind_defined
                       (last_char (last_char (Some c) v') (txt "' is "))
                       (kind_assigned ++ post) = None) by reflexivity.
        rewrite En, eat_app. eexists _, _. reflexivity.
    - intros prev' d s' Hd. cbn [fst snd].
      change (txt "' is ") with ("'"%char :: txt " is "). rewrite eat_cons.
      unfold not_char in Hd. apply negb_true_iff in Hd. rewrite Hd. reflexivity. }
  destruct Hm as (n & gs & Hm).
  rewrite (search_from_match _ _ _ _ _ Hm). reflexivity.
Qed.

(** ** The two rewrites on words *)

Section Rewrites.
Context (parse_template : text -> option (text -> text)).

Lemma new_name_no_backslash (v : text) :
  all_word v = true -> contains (txt "\") ("_"%char :: v) = false.
Proof.
  intros Hv. apply (contains_single_word "\"%char ("_"%char :: v)); [reflexivity|].
  simpl. exact Hv.
Qed.

Lemma new_clause_no_backslash (v : text) :
  all_word v = true ->
  contains (txt "\") (txt "catch (" ++ "_"%char :: v ++ txt ")") = false.
Proof.
  intros Hv. pose proof (new_name_no_backslash v Hv) as Hb.
  change (txt "\") with ["\"%char] in *.
  change ("_"%char :: v ++ txt ")") with (("_"%char :: v) ++ txt ")").
  rewrite !contains_single_app, Hb. reflexivity.
Qed.

(** X10. For an identifier, the whole-word replacement renames exactly
    the maximal runs of word characters that are the name: a longer
    identifier that holds the name is left alone, and a line without such a
    run is returned as it is. *)
Theorem whole_word_rename (v cur_line : text) :
  all_word v = true -> v <> [] ->
  re_sub parse_template (word_re v) ("_"%char :: v) cur_line
  = Some (flatten (rename_words v (tokenize cur_line))) /\
  (no_word v (tokenize cur_line) ->
   re_sub parse_template (word_re v) ("_"%char :: v) cur_line = Some cur_line).
Proof.
  intros Hv Hne.
  assert (H : re_sub parse_template (word_re v) ("_"%char :: v) cur_line
              = Some (flatten (rename_words v (tokenize cur_line)))).
  { unfold re_sub. rewrite (new_name_no_backslash v Hv).
    f_equal. apply (sub_word_tokenize v cur_line Hv Hne). }
  split; [exact H|]. intros Hno. rewrite H, rename_words_fixed by exact Hno.
  rewrite flatten_tokenize. reflexivity.
Qed.

Lemma filter_sep_word (w : text) :
  all_word w = true -> filter (fun c => is_word c = false) w = [].
Proof.
  induction w as [|c w IH]; [reflexivity|]. simpl. intros H.
  apply andb_true_iff in H as [Hc Hw]. rewrite filter_cons, (IH Hw).
  destruct (decide (is_word c = false)); [congruence|reflexivity].
Qed.

Lemma filter_sep_rename_words (v : text) (ts : list token) :
  all_word v = true ->
  filter (fun c => is_word c = false) (flatten (rename_words v ts))
  = filter (fun c => is_word c = false) (flatten ts).
Proof.
  intros Hv. induction ts as [|t ts IH]; [reflexivity|].
  change (rename_words v (t :: ts)) with (rename_token v t :: rename_words v ts).
  simpl flatten. rewrite !filter_app, IH. f_equal.
  destruct t as [w|c]; [|reflexivity]. simpl.
  destruct (text_eqb w v) eqn:E; [|reflexivity].
  apply text_eqb_true in E. subst w. simpl token_text.
  rewrite (filter_sep_word v Hv). rewrite filter_cons.
  destruct (decide (is_word "_" = false)) as [H|H]; [discriminate H|].
  apply filter_sep_word. exact Hv.
Qed.

(** X11. For an identifier, the whole-word replacement changes word
    characters only: spaces, punctuation and the line end of the line are
    kept, in their order. *)
Theorem whole_word_keeps_separators (v cur_line new_line : text) :
  all_word v = true -> v <> [] ->
  re_sub parse_template (word_re v) ("_"%char :: v) cur_line = Some new_line ->
  filter (fun c => is_word c = false) new_line
  = filter (fun c => is_word c = false) cur_line.
Proof.
  intros Hv Hne H. unfold re_sub in H. rewrite (new_name_no_backslash v Hv) in H.
  inversion H; subst new_line; clear H.
  change (sub_scan (word_re v) (fun _ => "_"%char :: v) None cur_line 0)
    with (sub_word v cur_line).
  rewrite (sub_word_tokenize v cur_line Hv Hne), filter_sep_rename_words by exact Hv.
  rewrite flatten_tokenize. reflexivity.
Qed.

(** X12. For an identifier, the catch rewrite replaces every clause
    [catch], spaces, [(], spaces, the name, spaces, [)] by [catch (_name)]
    and nothing else; a line without such a clause is returned as it is,
    also when the name occurs on it. *)
Theorem catch_clause_rename (v cur_line : text) :
  all_word v = true -> v <> [] ->
  re_sub parse_template (catch_re v) (txt "catch (" ++ "_"%char :: v ++ txt ")") cur_line
  = Some (flatten (rename_clauses v (tokenize cur_line))) /\
  (no_clause v (tokenize cur_line) ->
   re_sub parse_template (catch_re v) (txt "catch (" ++ "_"%char :: v ++ txt ")") cur_line
   = Some cur_line).
Proof.
  intros Hv Hne.
  assert (H : re_sub parse_template (catch_re v)
                (txt "catch (" ++ "_"%char :: v ++ txt ")") cur_line
              = Some (flatten (rename_clauses v (tokenize cur_line)))).
  { unfold re_sub. rewrite (new_clause_no_backslash v Hv). f_equal.
    change (sub_scan (catch_re v) (fun _ => txt "catch (" ++ "_"%char :: v ++ txt ")")
              None cur_line 0) with (sub_clause v cur_line).
    rewrite <- (flatten_tokenize cur_line) at 1.
    apply sub_clause_tokens; [exact Hv|exact Hne|apply well_formed_tokenize]. }
  split; [exact H|]. intros Hno. rewrite H, rename_clauses_fixed by exact Hno.
  rewrite flatten_tokenize. reflexivity.
Qed.

(** ** The choice of the strategy *)

Lemma sub_scan_no_search (r : regex) (e : text -> text) (prev : option ascii)
    (s : text) :
  search_from r prev s = None -> sub_scan r e prev s 0 = s.
Proof.
  revert prev. induction s as [|c s IH]; intros prev H; [reflexivity|].
  assert (Hm : match_at r (prev, c :: s) = None /\ search_from r (Some c) s = None).
  { simpl in H. destruct (match_at r (prev, c :: s)) as [[n gs]|]; [discriminate|].
    split; [reflexivity|exact H]. }
  destruct Hm as [Hm Hs]. rewrite sub_scan_no_match by exact Hm.
  rewrite IH by exact Hs. reflexivity.
Qed.

Lemma select_strategy_catch (message cur_line : text) :
  select_strategy message cur_line = CatchClause <->
  contains (txt "catch") cur_line = true /\
  contains (txt "Allowed unused caught errors") message = true.
Proof.
  unfold select_strategy. rewrite <- andb_true_iff.
  destruct (contains (txt "catch") cur_line
            && contains (txt "Allowed unused caught errors") message);
    [split; reflexivity|].
  split; [|discriminate].
  repeat match goal with
         | |- context [if ?b then _ else _] => destruct b
         end; discriminate.
Qed.

Lemma rewrite_line_strategy (var_name message cur_line : text) :
  rewrite_line parse_template var_name message cur_line =
  match select_strategy message cur_line with
  | CatchClause =>
      re_sub parse_template (catch_re var_name)
        (txt "catch (" ++ "_"%char :: var_name ++ txt ")") cur_line
  | Import | FunctionSignature | Declaration | Fallback =>
      re_sub parse_template (word_re var_name) ("_"%char :: var_name) cur_line
  end.
Proof.
  unfold rewrite_line, select_strategy.
  repeat match goal with
         | |- context [if ?b then _ else _] => destruct b
         end; reflexivity.
Qed.

(** C3 (amended). The catch-clause strategy is selected exactly when the
    line contains the substring "catch" and the message contains "Allowed
    unused caught errors", whether or not the line holds a catch clause of
    the variable. It is then the only strategy applied: a line on which the
    clause pattern matches nowhere is left as it is and does not fall
    through. In every other case, whichever of the import, function,
    declaration or fallback branches is selected, the same substitution of
    the pattern [\bname\b] is applied. For a name of word characters the
    catch strategy rewrites exactly the clauses [catch ( name )] to
    [catch (_name)], and the other strategies rename exactly the whole-word
    occurrences of the name: the maximal runs of word characters (letters,
    digits, underscore) that are the name. *)
Theorem strategy_dispatch (var_name message cur_line : text) :
  (select_strategy message cur_line = CatchClause <->
   contains (txt "catch") cur_line = true /\
   contains (txt "Allowed unused caught errors") message = true) /\
  rewrite_line parse_template var_name message cur_line =
  match select_strategy message cur_line with
  | CatchClause =>
      re_sub parse_template (catch_re var_name)
        (txt "catch (" ++ "_"%char :: var_name ++ txt ")") cur_line
  | Import | FunctionSignature | Declaration | Fallback =>
      re_sub parse_template (word_re var_name) ("_"%char :: var_name) cur_line
  end /\
  (select_strategy message cur_line = CatchClause ->
   search (catch_re var_name) cur_line = None ->
   forall new_line : text,
     rewrite_line parse_template var_name message cur_line = Some new_line ->
     new_line = cur_line) /\
  (all_word var_name = true -> var_name <> [] ->
   rewrite_line parse_template var_name message cur_line =
   Some (flatten (match select_strategy message cur_line with
                  | CatchClause => rename_clauses var_name (tokenize cur_line)
                  | Import | FunctionSignature | Declaration | Fallback =>
                      rename_words var_name (tokenize cur_line)
                  end))).
Proof.
  split; [apply select_strategy_catch|].
  split; [apply rewrite_line_strategy|]. split.
  - intros Hsel Hno new_line. rewrite rewrite_line_strategy, Hsel. unfold re_sub.
    destruct (if contains (txt "\") (txt "catch (" ++ "_"%char :: var_name ++ txt ")")
              then parse_template (txt "catch (" ++ "_"%char :: var_name ++ txt ")")
              else Some (fun _ => txt "catch (" ++ "_"%char :: var_name ++ txt ")"))
      as [expand|]; [|discriminate].
    intros H; inversion H; subst new_line. apply sub_scan_no_search. exact Hno.
  - intros Hv Hne. rewrite rewrite_line_strategy. unfold re_sub.
    rewrite (new_name_no_backslash var_name Hv), (new_clause_no_backslash var_name Hv).
    destruct (select_strategy message cur_line); f_equal;
      try apply (sub_word_tokenize var_name cur_line Hv Hne).
    change (sub_scan (catch_re var_name)
              (fun _ => txt "catch (" ++ "_"%char :: var_name ++ txt ")") None cur_line 0)
      with (sub_clause var_name cur_line).
    rewrite <- (flatten_tokenize cur_line) at 1.
    apply sub_clause_tokens; [exact Hv|exact Hne|apply well_formed_tokenize].
Qed.

(** X13. For an identifier without leading underscore, the rewrite of a
    line is idempotent: applied to its own result with the same message, it
    returns that result. *)
Theorem rewrite_line_idempotent (v message cur_line new_line : text) :
  all_word v = true -> v <> [] -> starts_with (txt "_") v = false ->
  rewrite_line parse_template v message cur_line = Some new_line ->
  rewrite_line parse_template v message new_line = Some new_line.
Proof.
  intros Hv Hne Hu H. rewrite rewrite_line_plain in H by exact Hv.
  inversion H; subst new_line; clear H.
  rewrite rewrite_line_plain by exact Hv. f_equal.
  apply settled_fixed; [exact Hv|exact Hne|].
  apply rewrite_settles; assumption.
Qed.

End Rewrites.

(** X14. The patterns of the two substitutions never match the empty
    string: a whole-word match has the length of the name, a catch match at
    least seven characters more. *)
Theorem substitution_matches_nonempty (v : text) (cur : cursor) (n : nat)
    (gs : list text) :
  v <> [] ->
  (match_at (word_re v) cur = Some (n, gs) -> n = length v) /\
  (match_at (catch_re v) cur = Some (n, gs) -> (length v + 7 <= n)%nat).
Proof.
  intros Hv. destruct cur as [prev s]. split.
  - rewrite match_at_word_re.
    destruct (at_boundary _); [|discriminate].
    destruct (eat v prev s) as [cur'|] eqn:E; [|discriminate].
    destruct (at_boundary cur'); [|discriminate].
    intros H; inversion H; subst. apply eat_length in E. lia.
  - unfold match_at.
    set (k0 := fun (cur' : cursor) (gs0 : list text) =>
                 Some ((length (snd (prev, s)) - length (snd cur'))%nat, gs0)).
    change (rmatch (catch_re v) k0 (prev, s) [])
      with (if at_boundary (prev, s)
            then match eat (txt "catch") prev s with
                 | Some cur1 =>
                     star is_space
                       (fun cur2 gs2 =>
                          match eat (txt "(") (fst cur2) (snd cur2) with
                          | Some cur3 =>
                              star is_space
                                (fun cur4 gs4 =>
                                   match eat v (fst cur4) (snd cur4) with
                                   | Some cur5 =>
                                       star is_space
                                         (fun cur6 gs6 =>
                                            match eat (txt ")") (fst cur6) (snd cur6) with
                                            | Some cur7 => k0 cur7 gs6
                                            | None => None
                                            end)
                                         (fst cur5) (snd cur5) gs4
                                   | None => None
                                   end)
                                (fst cur3) (snd cur3) gs2
                          | None => None
                          end)
                       (fst cur1) (snd cur1) []
                 | None => None
                 end
            else None).
    destruct (at_boundary _); [|discriminate].
    destruct (eat (txt "catch") prev s) as [cur1|] eqn:E1; [|discriminate].
    intros H. apply star_inv in H as (p2 & s2 & H & L2). cbn [fst snd] in H.
    destruct (eat (txt "(") p2 s2) as [cur3|] eqn:E3; [|discriminate].
    apply star_inv in H as (p4 & s4 & H & L4). cbn [fst snd] in H.
    destruct (eat v p4 s4) as [cur5|] eqn:E5; [|discriminate].
    apply star_inv in H as (p6 & s6 & H & L6). cbn [fst snd] in H.
    destruct (eat (txt ")") p6 s6) as [cur7|] eqn:E7; [|discriminate].
    unfold k0 in H. inversion H; subst. cbn [snd].
    apply eat_length in E1, E3, E5, E7. simpl in E1, E3, E7. lia.
Qed.

(** ** Reading the file back *)

Lemma word_not_break (c : ascii) : is_word c = true -> is_break c = false.
Proof. destruct c as [[] [] [] [] [] [] [] []]; vm_compute; congruence. Qed.

Lemma no_break_app (a b : text) : no_break (a ++ b) = no_break a && no_break b.
Proof. apply forallb_app. Qed.

Lemma no_break_word (w : text) : all_word w = true -> no_break w = true.
Proof.
  induction w as [|c w IH]; [reflexivity|]. simpl. intros H.
  apply andb_true_iff in H as [Hc Hw]. rewrite (word_not_break c Hc), (IH Hw). reflexivity.
Qed.

Lemma split_lines_body (cur body rest : text) :
  no_break body = true ->
  split_lines cur (body ++ rest) = split_lines (cur ++ body) rest.
Proof.
  revert cur. induction body as [|c body IH]; intros cur H.
  - rewrite app_nil_r. reflexivity.
  - simpl in H. apply andb_true_iff in H as [Hc H].
    apply negb_true_iff in Hc. unfold is_break in Hc. apply orb_false_iff in Hc as [Hc _].
    simpl. rewrite Hc, IH by exact H. rewrite <- app_assoc. reflexivity.
Qed.

Lemma split_lines_concat (ls : list text) :
  proper_lines ls -> split_lines [] (concat ls) = ls.
Proof.
  induction ls as [|l ls IH]; [reflexivity|]. intros [Hl Hls]. simpl concat.
  destruct Hl as [(body & -> & Hb)|(Hlast & Hne & Hb)].
  - rewrite <- app_assoc, split_lines_body by exact Hb. simpl. rewrite IH by exact Hls.
    reflexivity.
  - destruct ls; [|discriminate]. simpl. rewrite app_nil_r.
    rewrite <- (app_nil_r l) at 1. rewrite split_lines_body by exact Hb.
    simpl. destruct l; [congruence|reflexivity].
Qed.

Lemma proper_lines_split (cur s : text) :
  no_break cur = true -> Forall (fun c => c <> "013"%char) s ->
  proper_lines (split_lines cur s).
Proof.
  intros Hcur Hs. revert cur Hcur. induction Hs as [|c s Hc _ IH]; intros cur Hcur.
  - simpl. destruct cur as [|a cur'] eqn:E; [exact I|]. simpl. split; [|exact I].
    right. repeat split; [discriminate|exact Hcur].
  - simpl. destruct (Ascii.eqb c "010") eqn:E.
    + apply Ascii.eqb_eq in E. subst c. simpl. split; [|apply IH; reflexivity].
      left. exists cur. auto.
    + apply IH. rewrite no_break_app, Hcur. simpl. unfold is_break. rewrite E.
      assert (E' : Ascii.eqb c "013" = false) by (apply Ascii.eqb_neq; exact Hc).
      rewrite E'. reflexivity.
Qed.

Lemma universal_newlines_no_cr (s : text) :
  Forall (fun c => c <> "013"%char) (universal_newlines s).
Proof.
  assert (H : forall n s, (length s <= n)%nat ->
                          Forall (fun c => c <> "013"%char) (universal_newlines s)).
  { clear s. induction n as [|n IH]; intros s Hlen.
    - destruct s; [constructor|simpl in Hlen; lia].
    - destruct s as [|c s]; [constructor|]. simpl in Hlen.
      destruct (Ascii.eqb c "013") eqn:E.
      + apply Ascii.eqb_eq in E. subst c.
        destruct s as [|d s].
        * simpl. repeat constructor. discriminate.
        * destruct (Ascii.eqb d "010") eqn:Ed.
          -- apply Ascii.eqb_eq in Ed. subst d. simpl.
             constructor; [discriminate|]. apply IH. simpl in Hlen. lia.
          -- assert (Hu : universal_newlines ("013"%char :: d :: s)
                          = "010"%char :: universal_newlines (d :: s)).
             { destruct d as [[] [] [] [] [] [] [] []]; try discriminate; reflexivity. }
             rewrite Hu. constructor; [discriminate|]. apply IH. lia.
      + assert (Hu : universal_newlines (c :: s) = c :: universal_newlines s).
        { destruct c as [[] [] [] [] [] [] [] []]; try discriminate; reflexivity. }
        rewrite Hu. constructor; [apply Ascii.eqb_neq; exact E|]. apply IH. lia. }
  apply (H (length s)). lia.
Qed.

Lemma readlines_proper (f : file) : proper_lines (readlines f).
Proof.
  unfold readlines. apply proper_lines_split; [reflexivity|].
  apply universal_newlines_no_cr.
Qed.

Lemma no_break_no_cr (s : text) :
  no_break s = true -> Forall (fun c => c <> "013"%char) s.
Proof.
  induction s as [|c s IH]; [constructor|]. simpl. intros H.
  apply andb_true_iff in H as [Hc H]. constructor; [|auto].
  intros ->. discriminate.
Qed.

Lemma proper_line_no_cr (b : bool) (l : text) :
  proper_line b l -> Forall (fun c => c <> "013"%char) l.
Proof.
  intros [(body & -> & Hb)|(_ & _ & Hb)]; [|apply no_break_no_cr; exact Hb].
  apply Forall_app. split; [apply no_break_no_cr; exact Hb|].
  repeat constructor. discriminate.
Qed.

Lemma proper_lines_no_cr (ls : list text) :
  proper_lines ls -> Forall (fun c => c <> "013"%char) (concat ls).
Proof.
  induction ls as [|l ls IH]; [constructor|]. intros [Hl Hls]. simpl.
  apply Forall_app. split; [eapply proper_line_no_cr; exact Hl|auto].
Qed.

Lemma proper_lines_insert (ls : list text) (n : nat) (l l' : text) :
  proper_lines ls -> ls !! n = Some l ->
  (forall b, proper_line b l -> proper_line b l') ->
  proper_lines (<[n := l']> ls).
Proof.
  revert n. induction ls as [|l0 ls IH]; intros n Hls Hn Hl'; [exact I|].
  destruct Hls as [H0 Hls]. destruct n as [|n]; simpl in *.
  - inversion Hn; subst l0. split; [apply Hl'; exact H0|exact Hls].
  - split; [|eapply IH; eassumption].
    destruct ls as [|l1 ls]; [discriminate|].
    destruct n; simpl; exact H0.
Qed.

(** *** The rewrites keep a line proper *)

Lemma well_formed_app_sep (ts : list token) (c : ascii) :
  well_formed ts = true -> is_word c = false ->
  well_formed (ts ++ [TSep c]) = true.
Proof.
  intros Hwf Hc. induction ts as [|t ts IH]; simpl app.
  - simpl. rewrite Hc. reflexivity.
  - apply well_formed_cons in Hwf as (Hok & Hadj & Hwf).
    apply well_formed_cons. split; [exact Hok|]. split; [|apply IH; exact Hwf].
    destruct t; [|exact I]. destruct ts as [|[w'|d] ts]; simpl in *; auto.
Qed.

Lemma flatten_nonempty (ts : list token) :
  well_formed ts = true -> ts <> [] -> flatten ts <> [].
Proof.
  destruct ts as [|t ts]; [congruence|]. intros Hwf _.
  apply well_formed_cons in Hwf as (Hok & _ & _).
  destruct t as [w|c]; simpl; [|discriminate].
  destruct w; [discriminate|discriminate].
Qed.

Lemma tokenize_nonempty (s : text) : s <> [] -> tokenize s <> [].
Proof.
  intros Hs Ht. apply Hs. rewrite <- (flatten_tokenize s), Ht. reflexivity.
Qed.

Lemma rename_clauses_nonempty (v : text) (ts : list token) :
  ts <> [] -> rename_clauses v ts <> [].
Proof.
  destruct ts as [|t ts]; [congruence|]. intros _. rewrite rename_clauses_cons.
  destruct (clause_rest v (t :: ts)); discriminate.
Qed.

Lemma no_break_rename_words (v : text) (ts : list token) :
  all_word v = true ->
  no_break (flatten ts) = true -> no_break (flatten (rename_words v ts)) = true.
Proof.
  intros Hv. induction ts as [|t ts IH]; [auto|].
  change (rename_words v (t :: ts)) with (rename_token v t :: rename_words v ts).
  simpl flatten. rewrite !no_break_app. intros H.
  apply andb_true_iff in H as [Ht H]. rewrite (IH H), andb_true_r.
  destruct t as [w|c]; [|exact Ht]. simpl.
  destruct (text_eqb w v); [|exact Ht]. simpl. apply no_break_word. exact Hv.
Qed.

Lemma no_break_rename_clauses (v : text) (ts : list token) :
  all_word v = true ->
  no_break (flatten ts) = true -> no_break (flatten (rename_clauses v ts)) = true.
Proof.
  intros Hv. induction ts as [|t ts rest Ec IH|t ts Ec IH] using (rename_clauses_ind v);
    intros H; rewrite ?rename_clauses_nil, ?rename_clauses_cons, ?Ec.
  - reflexivity.
  - rewrite flatten_app, no_break_app.
    destruct (clause_rest_suffix v _ rest Ec) as [pre Hpre]. rewrite Hpre in H.
    change (TWord (txt "catch") :: pre ++ TSep ")" :: rest)
      with ((TWord (txt "catch") :: pre) ++ [TSep ")"%char] ++ rest) in H.
    rewrite !flatten_app, !no_break_app in H.
    apply andb_true_iff in H as [_ H]. apply andb_true_iff in H as [_ H].
    rewrite (IH H), andb_true_r.
    change (flatten (canon_clause v))
      with (txt "catch (_" ++ v ++ txt ")").
    rewrite !no_break_app, (no_break_word v Hv). reflexivity.
  - simpl flatten in *. rewrite no_break_app in *.
    apply andb_true_iff in H as [Ht H]. rewrite Ht, (IH H). reflexivity.
Qed.

Lemma skip_ws_app_ws (ts : list token) (c : ascii) :
  is_space c = true ->
  skip_ws (ts ++ [TSep c]) =
  match skip_ws ts with
  | [] => []
  | t :: r => t :: r ++ [TSep c]
  end.
Proof.
  intros Hc. induction ts as [|[w|d] ts IH]; simpl.
  - rewrite Hc. reflexivity.
  - reflexivity.
  - destruct (is_space d); [exact IH|reflexivity].
Qed.

Lemma clause_tail_app_ws (v : text) (ts : list token) (c : ascii) :
  is_space c = true ->
  clause_tail v (ts ++ [TSep c]) = (fun r => r ++ [TSep c]) <$> clause_tail v ts.
Proof.
  intros Hc. rewrite !clause_tail_unfold, skip_ws_app_ws by exact Hc.
  destruct (skip_ws ts) as [|[w1|c1] ts1]; try reflexivity.
  destruct (Ascii.eqb c1 "("); [|reflexivity].
  rewrite skip_ws_app_ws by exact Hc.
  destruct (skip_ws ts1) as [|[w2|c2] ts2]; try reflexivity.
  destruct (text_eqb w2 v); [|reflexivity].
  rewrite skip_ws_app_ws by exact Hc.
  destruct (skip_ws ts2) as [|[w3|c3] ts3]; try reflexivity.
  destruct (Ascii.eqb c3 ")"); reflexivity.
Qed.

Lemma clause_rest_app_ws (v : text) (t : token) (ts : list token) (c : ascii) :
  is_space c = true ->
  clause_rest v (t :: ts ++ [TSep c])
  = (fun r => r ++ [TSep c]) <$> clause_rest v (t :: ts).
Proof.
  intros Hc. destruct t as [w|d]; [|reflexivity].
  rewrite !clause_rest_word. destruct (text_eqb w (txt "catch")); [|reflexivity].
  apply clause_tail_app_ws. exact Hc.
Qed.

Lemma rename_clauses_app_ws (v : text) (ts : list token) (c : ascii) :
  is_space c = true ->
  rename_clauses v (ts ++ [TSep c]) = rename_clauses v ts ++ [TSep c].
Proof.
  intros Hc. induction ts as [|t ts rest Ec IH|t ts Ec IH] using (rename_clauses_ind v).
  - simpl app. rewrite rename_clauses_sep. reflexivity.
  - simpl app. rewrite !rename_clauses_cons, clause_rest_app_ws, Ec by exact Hc.
    cbn [fmap option_fmap option_map]. rewrite IH, app_assoc. reflexivity.
  - simpl app. rewrite !rename_clauses_cons, clause_rest_app_ws, Ec by exact Hc.
    cbn [fmap option_fmap option_map]. rewrite IH. reflexivity.
Qed.

Lemma rewrite_plain_proper (v message l : text) (b : bool) :
  all_word v = true -> v <> [] ->
  proper_line b l -> proper_line b (rewrite_plain v message l).
Proof.
  intros Hv Hne [(body & -> & Hb)|(Hlast & Hl & Hb)].
  - left.
    pose proof (well_formed_tokenize body) as Hwf0.
    assert (Hwf : well_formed (tokenize body ++ [TSep "010"%char]) = true)
      by (apply well_formed_app_sep; [exact Hwf0|reflexivity]).
    assert (Hfl : flatten (tokenize body ++ [TSep "010"%char]) = body ++ ["010"%char])
      by (rewrite flatten_app, flatten_tokenize; reflexivity).
    unfold rewrite_plain. rewrite <- Hfl.
    destruct (uses_clause message (flatten (tokenize body ++ [TSep "010"%char]))).
    + rewrite sub_clause_tokens by assumption.
      rewrite rename_clauses_app_ws by reflexivity. rewrite flatten_app.
      eexists. split; [reflexivity|].
      apply no_break_rename_clauses; [exact Hv|]. rewrite flatten_tokenize. exact Hb.
    + rewrite sub_word_tokens by assumption.
      unfold rename_words. rewrite map_app, flatten_app.
      eexists. split; [reflexivity|].
      apply (no_break_rename_words v (tokenize body) Hv). rewrite flatten_tokenize.
      exact Hb.
  - right. split; [exact Hlast|].
    pose proof (well_formed_tokenize l) as Hwf.
    pose proof (tokenize_nonempty l Hl) as Hnil.
    unfold rewrite_plain. rewrite <- (flatten_tokenize l).
    destruct (uses_clause message (flatten (tokenize l))).
    + rewrite sub_clause_tokens by assumption. split.
      * apply flatten_nonempty; [apply well_formed_rename_clauses; assumption|].
        apply rename_clauses_nonempty. exact Hnil.
      * apply no_break_rename_clauses; [exact Hv|]. rewrite flatten_tokenize. exact Hb.
    + rewrite sub_word_tokens by assumption. split.
      * apply flatten_nonempty; [apply well_formed_rename_words; assumption|].
        unfold rename_words. destruct (tokenize l); [congruence|discriminate].
      * apply no_break_rename_words; [exact Hv|]. rewrite flatten_tokenize. exact Hb.
Qed.

Lemma written_lines_read_back (ls : list text) (r w : bool) :
  proper_lines ls -> readlines (File (concat ls) r w) = ls.
Proof.
  intros Hp. unfold readlines. simpl.
  rewrite universal_newlines_id by (apply proper_lines_no_cr; exact Hp).
  apply split_lines_concat. exact Hp.
Qed.

Section ReadBack.
Context (resolve : text -> inode).
Context (parse_template : text -> option (text -> text)).

Lemma process_error_proper (error : diagnostic) (st : state) :
  plain_name error ->
  proper_lines (lines st) ->
  proper_lines (lines (snd (process_error parse_template error st))).
Proof.
  unfold plain_name. intros Hplain Hls. rewrite process_error_unfold.
  destruct (extract_name (message error)) as [v|] eqn:Ev; [|exact Hls].
  destruct (starts_with (txt "_") v); [exact Hls|].
  destruct (py_index (lines st) (line error - 1)) as [n|]; [|exact Hls].
  destruct (lines st !! n) as [l|] eqn:El; [|exact Hls].
  pose proof (Hplain v eq_refl) as Hv.
  rewrite rewrite_line_plain by exact Hv.
  destruct (text_eqb (rewrite_plain v (message error) l) l); [exact Hls|].
  simpl. apply (proper_lines_insert _ _ l); [exact Hls|exact El|].
  intros b. apply rewrite_plain_proper; [exact Hv|].
  eapply extract_name_nonempty. exact Ev.
Qed.

Lemma for_each_process_error_proper (errors : list diagnostic) (st : state) :
  Forall plain_name errors ->
  proper_lines (lines st) ->
  proper_lines (lines (snd (for_each (process_error parse_template) errors st))).
Proof.
  revert st. induction errors as [|e errors IH]; intros st Hall Hls; [exact Hls|].
  apply Forall_cons in Hall as [He Hall]. rewrite for_each_cons.
  pose proof (process_error_proper e st He Hls) as Hstep.
  destruct (process_error parse_template e st) as [[[]|x] st1]; simpl in Hstep.
  - apply IH; assumption.
  - exact Hstep.
Qed.

Lemma process_file_reads_back (fd : file_data) (st st' : state) (f : file) :
  fs st !! resolve (filePath fd) = Some f ->
  Forall plain_name (messages fd) ->
  process_file resolve parse_template fd st = (Ok tt, st') ->
  exists f',
    fs st' !! resolve (filePath fd) = Some f' /\
    readlines f' = lines st' /\
    length (readlines f') = length (readlines f).
Proof.
  intros Hf Hplain Hrun. rewrite process_file_unfold in Hrun. cbv zeta in Hrun.
  rewrite Hf in Hrun. destruct (readable f); [|discriminate].
  match type of Hrun with
  | context [process_errors parse_template ?m ?s] =>
      pose proof (for_each_process_error_frame parse_template (sorted_desc m) s)
        as [Hfs Hlen];
      pose proof (for_each_process_error_proper (sorted_desc m) s) as Hprop;
      fold (process_errors parse_template m) in Hfs, Hlen, Hprop;
      destruct (process_errors parse_template m s) as [[[]|e1] st1]
  end; simpl in Hfs, Hlen, Hprop; [|discriminate].
  assert (Hp : proper_lines (lines st1)).
  { apply Hprop; [rewrite sorted_desc_perm; exact Hplain|apply readlines_proper]. }
  unfold write_lines in Hrun. rewrite Hfs, Hf in Hrun.
  destruct (writable f); [|discriminate].
  simpl in Hrun. inversion Hrun; subst st'; clear Hrun. simpl.
  eexists. rewrite lookup_insert_eq. split; [reflexivity|].
  rewrite (written_lines_read_back _ _ _ Hp). split; [reflexivity|exact Hlen].
Qed.


(** X15. For messages that name identifiers, the file an entry writes
    reads back as the buffer that was written: every edited line is still
    one line, so the file has as many lines after the entry as before. *)
Theorem written_file_reads_back (fd : file_data) (st st' : state) (f : file) :
  fs st !! resolve (filePath fd) = Some f ->
  Forall plain_name (messages fd) ->
  process_file resolve parse_template fd st = (Ok tt, st') ->
  exists f',
    fs st' !! resolve (filePath fd) = Some f' /\
    readlines f' = lines st' /\
    length (readlines f') = length (readlines f).
Proof. apply process_file_reads_back. Qed.

(** X16. For messages that name identifiers, processing an entry is
    idempotent on its file: processed again right after it ended normally,
    the entry ends normally, counts no fix and leaves every file as the first
    processing wrote it. *)
Theorem entry_idempotent (fd : file_data) (st st1 : state) :
  Forall plain_name (messages fd) ->
  process_file resolve parse_template fd st = (Ok tt, st1) ->
  exists st2,
    process_file resolve parse_template fd st1 = (Ok tt, st2) /\
    fs st2 = fs st1 /\
    total_fixed st2 = total_fixed st1 /\
    lines st2 = lines st1.
Proof.
  intros Hplain Hrun. rewrite process_file_unfold in Hrun. cbv zeta in Hrun.
  destruct (fs st !! resolve (filePath fd)) as [f|] eqn:Hf; [|discriminate].
  destruct (readable f) eqn:Hr; [|discriminate].
  assert (Hsorted : Forall plain_name (sorted_desc (messages fd)))
    by (rewrite sorted_desc_perm; exact Hplain).
  match type of Hrun with
  | context [process_errors parse_template ?m ?s] =>
      pose proof (for_each_process_error_frame parse_template (sorted_desc m) s)
        as [Hfs _];
      pose proof (for_each_process_error_proper (sorted_desc m) s Hsorted
                    (readlines_proper f)) as Hp;
      pose proof (for_each_settles parse_template (sorted_desc m) s) as Hset;
      fold (process_errors parse_template m) in Hfs, Hp, Hset;
      destruct (process_errors parse_template m s) as [[[]|e1] stp]
  end; simpl in Hfs, Hp; [|discriminate].
  specialize (Hset stp Hsorted eq_refl).
  unfold write_lines in Hrun. rewrite Hfs, Hf in Hrun.
  destruct (writable f); [|discriminate].
  simpl in Hrun. inversion Hrun; subst st1; clear Hrun.
  rewrite process_file_unfold. cbv zeta. cbn [fs lines total_fixed stdout].
  rewrite lookup_insert_eq. cbn [readable]. rewrite Hr.
  rewrite (written_lines_read_back _ _ _ Hp).
  unfold process_errors.
  rewrite (for_each_settled_noop parse_template (sorted_desc (messages fd)) _ Hsorted)
    by exact Hset.
  unfold write_lines. cbn [fs lines total_fixed stdout].
  rewrite lookup_insert_eq. cbn [writable readable content].
  rewrite insert_insert_eq.
  eexists. split; [reflexivity|]. simpl. auto.
Qed.

End ReadBack.

(** * Instances *)



(** C2, as stated, fails: a message for line 5 of a one-line buffer is
    fatal. *)
Lemma out_of_range_line_raises :
  let st := ex_state ex_files [txt "const foo = bar;"] in
  Z.of_nat (length (lines st)) < line (ex_unused_foo 5) /\
  process_error no_template (ex_unused_foo 5) st = (Raise IndexError, st).
Proof. vm_compute. split; reflexivity. Qed.

Lemma out_of_range_line_witness :
  let st := ex_state ex_files [txt "const foo = bar;"] in
  process_error no_template (ex_unused_foo 5) st = (Raise IndexError, st) /\
  for_each (process_error no_template) [ex_unused_foo 5; ex_unused_foo 1] st
  = (Raise IndexError, st).
Proof.
  intros st.
  destruct (out_of_range_line no_template (ex_unused_foo 5) st) as [Hstep Hloop].
  - vm_compute. reflexivity.
  - split; [rewrite Hstep|rewrite Hloop]; reflexivity.
Defined.

(** C3, as stated, fails: the line has no catch clause of [error], the
    specification's dispatch renames the whole word, the script selects the
    catch strategy and leaves the line as it is. And a whole word of the
    script ends at a [$]: renaming [x] rewrites the [x] of [$x] and of [x$],
    which are other identifiers of the source. *)
Lemma catch_strategy_without_clause :
  search (catch_re (txt "error")) ex_catch_line = None /\
  spec_rewrite_line no_template (txt "error") ex_caught_message ex_catch_line
  = Some (txt "} catch { log(_error); }
") /\
  rewrite_line no_template (txt "error") ex_caught_message ex_catch_line
  = Some ex_catch_line /\
  rewrite_line no_template (txt "x") (txt "'x' is assigned a value but never used")
    (txt "const x = $x + x$;")
  = Some (txt "const _x = $_x + _x$;").
Proof. vm_compute. repeat split; reflexivity. Qed.

Lemma strategy_dispatch_witness :
  select_strategy ex_caught_message ex_catch_line = CatchClause /\
  (forall new_line : text,
     rewrite_line no_template (txt "error") ex_caught_message ex_catch_line
     = Some new_line ->
     new_line = ex_catch_line) /\
  rewrite_line no_template (txt "foo") (message (ex_unused_foo 1)) (txt "foo(food, foo)")
  = Some (txt "_foo(food, _foo)") /\
  rewrite_line no_template (txt "err") ex_caught_message (txt "} catch( err ) { log(err); }")
  = Some (txt "} catch (_err) { log(err); }").
Proof.
  destruct (strategy_dispatch no_template (txt "error") ex_caught_message ex_catch_line)
    as (Hsel & _ & Hnone & _).
  destruct (strategy_dispatch no_template (txt "foo") (message (ex_unused_foo 1))
              (txt "foo(food, foo)")) as (_ & _ & _ & Hword).
  destruct (strategy_dispatch no_template (txt "err") ex_caught_message
              (txt "} catch( err ) { log(err); }")) as (_ & _ & _ & Hclause).
  assert (Hs : select_strategy ex_caught_message ex_catch_line = CatchClause).
  { apply Hsel. split; vm_compute; reflexivity. }
  split; [exact Hs|]. split; [|split].
  - apply Hnone; [exact Hs|]. vm_compute. reflexivity.
  - rewrite Hword; [vm_compute; reflexivity|reflexivity|discriminate].
  - rewrite Hclause; [vm_compute; reflexivity|reflexivity|discriminate].
Defined.



(** C6, as stated, fails twice: two messages of the same line are not
    processed in strictly descending order, and with a line field 0 the edit
    made for line 1 changes the text on which the substitution for the lower
    line number 0 works. *)
Lemma descending_order_not_strict :
  ~ StronglySorted (fun a b => line b < line a)
      (sorted_desc [ex_unused_foo 1; ex_unused_bar 1]) /\
  (let st := ex_state ex_files [txt "const foo = bar;"] in
   line (ex_unused_bar 0) < line (ex_unused_foo 1) /\
   substitution no_template (ex_unused_bar 0) st
   = Some (0%nat, txt "const foo = bar;", txt "const foo = _bar;") /\
   substitution no_template (ex_unused_bar 0)
     (snd (process_error no_template (ex_unused_foo 1) st))
   = Some (0%nat, txt "const _foo = bar;", txt "const _foo = _bar;")).
Proof.
  split.
  - intros H. apply StronglySorted_inv in H as [_ Hhd].
    apply Forall_cons in Hhd as [Hlt _]. vm_compute in Hlt. discriminate.
  - vm_compute. repeat split; reflexivity.
Qed.

Lemma descending_order_witness :
  let msgs := [ex_unused_bar 1; ex_unused_foo 2] in
  let st := ex_state ex_files [txt "const bar = 1;"; txt "const foo = 2;"] in
  StronglySorted (fun a b => line b < line a) (sorted_desc msgs) /\
  line <$> sorted_desc (reverse msgs) = line <$> sorted_desc msgs /\
  lines (snd (for_each (process_error no_template) [ex_unused_foo 2] st))
    !! Z.to_nat (1 - 1)
  = lines st !! Z.to_nat (1 - 1).
Proof.
  intros msgs st.
  destruct (descending_order no_template msgs) as (_ & _ & Hstrict & Hperm & Hframe).
  split; [|split].
  - apply Hstrict. apply (bool_decide_unpack _). vm_compute. reflexivity.
  - apply Hperm. apply reverse_Permutation.
  - apply (Hframe [ex_unused_foo 2] 1 st); [lia|].
    repeat constructor.
Defined.


(** C8 on a run with two messages for one line: the substitution of the
    first changes the line, the second names a variable that is not there. *)
Lemma fix_counter_counts_changes_witness :
  let r := [FileData (txt "a.ts") [ex_unused_baz 1; ex_unused_foo 1]] in
  let st := ex_state ex_files [] in
  let st' := snd (ex_main (report_value r) st) in
  total_fixed st' = run_changes ex_resolve no_template r (fs st) /\
  run_changes ex_resolve no_template r (fs st) = 1%nat /\
  total_fixed st' = renames (stdout st') /\
  last (stdout st') = Some (TotalFixes (total_fixed st')).
Proof.
  intros r st st'.
  destruct (fix_counter_counts_changes ex_resolve no_descriptor
              (json_const (report_value r)) no_template no_sort) as (_ & _ & Hrun).
  destruct (Hrun st st' (report_value r) r) as (H1 & H2 & H3).
  - vm_compute. reflexivity.
  - vm_compute. reflexivity.
  - vm_compute. reflexivity.
  - split; [exact H1|]. split; [vm_compute; reflexivity|].
    split; [apply H2; reflexivity|exact H3].
Defined.

(** C9 at line 0 of a two-line buffer: the last line is rewritten. *)
Lemma nonpositive_line_witness :
  let st := ex_state ex_files [txt "let bar;"; txt "const foo = bar;"] in
  exists cur_line : text,
    reverse (lines st) !! Z.to_nat (- line (ex_unused_foo 0)) = Some cur_line /\
    (line (ex_unused_foo 0) = 0 -> last (lines st) = Some cur_line) /\
    process_error no_template (ex_unused_foo 0) st =
    match rewrite_line no_template (txt "foo") (message (ex_unused_foo 0)) cur_line with
    | None => (Raise ReError, st)
    | Some new_line =>
        if text_eqb new_line cur_line then (Ok tt, st)
        else
          (Ok tt,
           State (fs st)
             (<[(length (lines st) - S (Z.to_nat (- line (ex_unused_foo 0))))%nat
                := new_line]> (lines st))
             (S (total_fixed st))
             (stdout st ++ [Renamed (JInt (line (ex_unused_foo 0))) (txt "foo")
                              ("_"%char :: txt "foo")]))
    end.
Proof.
  intros st.
  apply (nonpositive_line_counts_from_end no_template (ex_unused_foo 0) st (txt "foo")).
  - vm_compute. reflexivity.
  - vm_compute. reflexivity.
  - simpl. lia.
Defined.

(** C10, as stated, fails: no message has the line field 1, yet line 1, the
    last line, is written back changed, by a message with the line field 0. *)
Lemma untargeted_line_changed :
  let fd := FileData (txt "a.ts") [ex_unused_foo 0] in
  let st' := snd (process_file ex_resolve no_template fd (ex_state ex_files [])) in
  Forall (fun m => line m <> 1) (messages fd) /\
  readlines (File (txt "const foo = bar;
") true true) !! 0%nat = Some (txt "const foo = bar;
") /\
  lines st' !! 0%nat = Some (txt "const _foo = bar;
") /\
  content <$> fs st' !! ex_resolve (txt "a.ts") = Some (txt "const _foo = bar;
").
Proof.
  split; [repeat constructor; discriminate|].
  vm_compute. repeat split; reflexivity.
Qed.

(** C10 on the two lines of [c.ts] with a message for line 1: the entry ends
    normally, line 1 is written back changed and line 2 as it was read. *)
Lemma untargeted_lines_unchanged_witness :
  let f := File (txt "const foo = 1;
const bar = 2;
") true true in
  let run := process_file ex_resolve no_template ex_entry_c (ex_state ex_files []) in
  fst run = Ok tt /\
  lines (snd run) !! 0%nat = Some (txt "const _foo = 1;
") /\
  lines (snd run) !! 1%nat = readlines f !! 1%nat /\
  length (lines (snd run)) = length (readlines f) /\
  exists f', fs (snd run) !! ex_resolve (filePath ex_entry_c) = Some f' /\
             content f' = concat (lines (snd run)) /\
             content f' = txt "const _foo = 1;
const bar = 2;
".
Proof.
  intros f run.
  destruct (untargeted_lines_unchanged ex_resolve no_template ex_entry_c
              (ex_state ex_files []) (snd run) (Ok tt) f 1%nat)
    as (H1 & H2 & (f' & Hf' & Hc)).
  - vm_compute. reflexivity.
  - reflexivity.
  - repeat constructor. vm_compute. discriminate.
  - vm_compute. reflexivity.
  - split; [vm_compute; reflexivity|]. split; [vm_compute; reflexivity|].
    split; [exact H1|]. split; [exact H2|].
    exists f'. split; [exact Hf'|]. split; [exact Hc|].
    rewrite Hc. vm_compute. reflexivity.
Defined.

(** C4, as stated, fails: the name [$x] is no identifier; after the
    underscore is put before it, a word boundary precedes it again, and the
    second pass renames it once more and counts a second fix. *)
Lemma pass_not_idempotent :
  let st := ex_state ex_files [ex_dollar_line] in
  let run1 := process_errors no_template [ex_unused_dollar] st in
  let run2 := process_errors no_template [ex_unused_dollar] (snd run1) in
  fst run1 = Ok tt /\ fst run2 = Ok tt /\
  lines (snd run1) = [txt "const a_$x = 1;
"] /\ total_fixed (snd run1) = 1%nat /\
  lines (snd run2) = [txt "const a__$x = 1;
"] /\ total_fixed (snd run2) = 2%nat.
Proof. vm_compute. repeat split; reflexivity. Qed.

Lemma pass_idempotent_witness :
  let msgs := [ex_unused_foo 1; ex_unused_bar 1] in
  let st := ex_state ex_files [txt "const foo = bar;"] in
  let st1 := snd (process_errors no_template msgs st) in
  lines st1 = [txt "const _foo = _bar;"] /\
  process_errors no_template msgs st1 = (Ok tt, st1) /\
  process_error no_template (Diagnostic 1 (txt "'_foo' is defined but never used")) st
  = (Ok tt, st).
Proof.
  intros msgs st st1.
  destruct (pass_idempotent no_template) as [Hpass Hskip].
  split; [vm_compute; reflexivity|]. split.
  - apply (Hpass msgs st st1).
    + repeat constructor; intros v Hv; vm_compute in Hv; inversion Hv; reflexivity.
    + vm_compute. reflexivity.
  - apply (Hskip _ st (txt "_foo")); vm_compute; reflexivity.
Defined.

(** ** Instances of the further properties *)

Lemma pass_order_independent_witness :
  let st := ex_state ex_files [txt "const bar = 1;"; txt "const foo = 2;"] in
  process_errors no_template [ex_unused_foo 2; ex_unused_bar 1] st
  = process_errors no_template [ex_unused_bar 1; ex_unused_foo 2] st.
Proof.
  intros st.
  apply (pass_order_independent no_template [ex_unused_bar 1; ex_unused_foo 2]
           [ex_unused_foo 2; ex_unused_bar 1] st).
  - apply Permutation_swap.
  - apply (bool_decide_unpack _). vm_compute. reflexivity.
Defined.

Lemma index_error_iff_witness :
  let st := ex_state ex_files [txt "const foo = bar;"] in
  process_error no_template (ex_unused_foo (-5)) st = (Raise IndexError, st).
Proof.
  intros st. apply (proj2 (index_error_iff no_template (ex_unused_foo (-5)) st)).
  split.
  - exists (txt "foo"). split; vm_compute; reflexivity.
  - simpl. lia.
Defined.

Lemma process_file_succeeds_witness :
  fst (process_file ex_resolve no_template ex_entry_a (ex_state ex_files [])) = Ok tt.
Proof.
  apply (process_file_succeeds ex_resolve no_template ex_entry_a (ex_state ex_files [])
           (File (txt "const foo = bar;
") true true)).
  - vm_compute. reflexivity.
  - reflexivity.
  - reflexivity.
  - constructor; [|constructor]. vm_compute. split; [discriminate|reflexivity].
  - repeat constructor. intros v Hv. vm_compute in Hv. inversion Hv. reflexivity.
Defined.

(** X5 on a report that lists [./a.ts]: the file [c.ts] is left alone; the
    file that [a.ts] names is the file listed, and is rewritten. *)
Lemma only_listed_files_change_witness :
  let st := ex_state ex_files [] in
  let report := report_value [FileData (txt "./a.ts") [ex_unused_foo 1]] in
  fs (snd (ex_main report st)) !! ex_resolve (txt "c.ts") = fs st !! ex_resolve (txt "c.ts") /\
  content <$> fs (snd (ex_main report st)) !! ex_resolve (txt "a.ts")
  = Some (txt "const _foo = bar;
").
Proof.
  intros st report. split; [|vm_compute; reflexivity].
  apply (only_listed_files_change ex_resolve no_descriptor (json_const report)
           no_template no_sort st (ex_resolve (txt "c.ts"))).
  intros j Hj. vm_compute in Hj. inversion Hj; subst j.
  apply (bool_decide_unpack _). vm_compute. reflexivity.
Defined.

Lemma unfixed_file_rewritten_witness :
  let fd := FileData (txt "a.ts") [] in
  let st := ex_state ex_files [] in
  exists f',
    fs (snd (process_file ex_resolve no_template fd st)) !! ex_resolve (filePath fd)
    = Some f' /\
    content f' = universal_newlines (txt "const foo = bar;
") /\
    (Forall (fun c => c <> "013"%char) (txt "const foo = bar;
") -> content f' = txt "const foo = bar;
").
Proof.
  intros fd st.
  apply (unfixed_file_rewritten ex_resolve no_template fd st
           (snd (process_file ex_resolve no_template fd st))
           (File (txt "const foo = bar;
") true true)).
  - vm_compute. reflexivity.
  - vm_compute. reflexivity.
  - vm_compute. reflexivity.
Defined.

Lemma fixes_bounded_witness :
  let st := ex_state ex_files [] in
  (total_fixed (snd (ex_main (report_value [ex_entry_a]) st))
   <= sum_list ((fun fd => length (messages fd)) <$> [ex_entry_a]))%nat.
Proof.
  intros st.
  apply (proj2 (fixes_bounded ex_resolve no_descriptor
                  (json_const (report_value [ex_entry_a])) no_template no_sort)
           st (report_value [ex_entry_a]) [ex_entry_a]).
  - vm_compute. reflexivity.
  - vm_compute. reflexivity.
Defined.

Lemma extract_name_shape_witness :
  txt "foo" <> [] /\
  Forall (fun c => c <> "'"%char) (txt "foo") /\
  exists pre kind post,
    (kind = kind_defined \/ kind = kind_assigned) /\
    message (ex_unused_foo 1) = pre ++ txt "'" ++ txt "foo" ++ txt "' is " ++ kind ++ post.
Proof.
  apply (extract_name_shape (message (ex_unused_foo 1)) (txt "foo")).
  vm_compute. reflexivity.
Defined.

Lemma extract_name_first_quoted_witness :
  extract_name (txt "warning: " ++ txt "'" ++ txt "foo" ++ txt "' is "
                ++ kind_assigned ++ txt ". Allowed unused vars must match /^_/u")
  = Some (txt "foo").
Proof.
  apply (extract_name_first_quoted (txt "warning: ") (txt "foo") kind_assigned
           (txt ". Allowed unused vars must match /^_/u")).
  - repeat constructor; discriminate.
  - discriminate.
  - repeat constructor; discriminate.
  - right. reflexivity.
Defined.

Lemma whole_word_rename_witness :
  re_sub no_template (word_re (txt "foo")) ("_"%char :: txt "foo") (txt "foo(food, foo)")
  = Some (flatten (rename_words (txt "foo") (tokenize (txt "foo(food, foo)")))) /\
  (no_word (txt "foo") (tokenize (txt "foo(food, foo)")) ->
   re_sub no_template (word_re (txt "foo")) ("_"%char :: txt "foo") (txt "foo(food, foo)")
   = Some (txt "foo(food, foo)")).
Proof.
  apply (whole_word_rename no_template (txt "foo") (txt "foo(food, foo)")).
  - reflexivity.
  - discriminate.
Defined.

Lemma whole_word_keeps_separators_witness :
  filter (fun c => is_word c = false) (txt "_foo(food, _foo)")
  = filter (fun c => is_word c = false) (txt "foo(food, foo)").
Proof.
  apply (whole_word_keeps_separators no_template (txt "foo") (txt "foo(food, foo)")
           (txt "_foo(food, _foo)")).
  - reflexivity.
  - discriminate.
  - vm_compute. reflexivity.
Defined.

Lemma catch_clause_rename_witness :
  let cur_line := txt "} catch( err ) { log(err); }" in
  re_sub no_template (catch_re (txt "err"))
    (txt "catch (" ++ "_"%char :: txt "err" ++ txt ")") cur_line
  = Some (flatten (rename_clauses (txt "err") (tokenize cur_line))) /\
  (no_clause (txt "err") (tokenize cur_line) ->
   re_sub no_template (catch_re (txt "err"))
     (txt "catch (" ++ "_"%char :: txt "err" ++ txt ")") cur_line
   = Some cur_line).
Proof.
  intros cur_line.
  apply (catch_clause_rename no_template (txt "err") cur_line).
  - reflexivity.
  - discriminate.
Defined.

Lemma rewrite_line_idempotent_witness :
  rewrite_line no_template (txt "foo") (message (ex_unused_foo 1))
    (txt "const _foo = bar;")
  = Some (txt "const _foo = bar;").
Proof.
  apply (rewrite_line_idempotent no_template (txt "foo") (message (ex_unused_foo 1))
           (txt "const foo = bar;") (txt "const _foo = bar;")).
  - reflexivity.
  - discriminate.
  - reflexivity.
  - vm_compute. reflexivity.
Defined.

Lemma substitution_matches_nonempty_witness :
  (match_at (word_re (txt "foo")) (None, txt "foo bar") = Some (3%nat, [])
   -> 3%nat = length (txt "foo")) /\
  (match_at (catch_re (txt "foo")) (None, txt "foo bar") = Some (3%nat, [])
   -> (length (txt "foo") + 7 <= 3)%nat).
Proof.
  apply (substitution_matches_nonempty (txt "foo") (None, txt "foo bar") 3 []).
  discriminate.
Defined.

Lemma written_file_reads_back_witness :
  let st := ex_state ex_files [] in
  let st' := snd (process_file ex_resolve no_template ex_entry_a st) in
  exists f',
    fs st' !! ex_resolve (filePath ex_entry_a) = Some f' /\
    readlines f' = lines st' /\
    length (readlines f') = length (readlines (File (txt "const foo = bar;
") true true)).
Proof.
  intros st st'.
  apply (written_file_reads_back ex_resolve no_template ex_entry_a st st'
           (File (txt "const foo = bar;
") true true)).
  - vm_compute. reflexivity.
  - repeat constructor. intros v Hv. vm_compute in Hv. inversion Hv. reflexivity.
  - vm_compute. reflexivity.
Defined.

Lemma entry_idempotent_witness :
  let st := ex_state ex_files [] in
  let st1 := snd (process_file ex_resolve no_template ex_entry_a st) in
  exists st2,
    process_file ex_resolve no_template ex_entry_a st1 = (Ok tt, st2) /\
    fs st2 = fs st1 /\
    total_fixed st2 = total_fixed st1 /\
    lines st2 = lines st1.
Proof.
  intros st st1.
  apply (entry_idempotent ex_resolve no_template ex_entry_a st st1).
  - repeat constructor. intros v Hv. vm_compute in Hv. inversion Hv. reflexivity.
  - vm_compute. reflexivity.
Defined.

(** X17 on a report whose second entry has no [filePath]: the run ends with
    [KeyError] after the first entry has rewritten [a.ts]. *)
Lemma ill_shaped_entry_fails_late_witness :
  let st := ex_state ex_files [] in
  fst (ex_main ex_ill_shaped st) = Raise (KeyError (txt "filePath")) /\
  content <$> fs (snd (ex_main ex_ill_shaped st)) !! ex_resolve (txt "a.ts")
  = Some (txt "const _foo = bar;
") /\
  exists (e : exn) (st2 : state),
    ex_main ex_ill_shaped st = (Raise e, st2) /\
    fs st2 = fs (snd (for_each (process_file ex_resolve no_template) [ex_entry_a] st)).
Proof.
  intros st. split; [vm_compute; reflexivity|]. split; [vm_compute; reflexivity|].
  apply (ill_shaped_entry_fails_late ex_resolve no_descriptor (json_const ex_ill_shaped)
           no_template no_sort [file_data_value ex_entry_a] []
           (JObj [(txt "messages", JArr [])]) [ex_entry_a] st
           (snd (for_each (process_file ex_resolve no_template) [ex_entry_a] st))).
  - vm_compute. reflexivity.
  - vm_compute. reflexivity.
  - vm_compute. reflexivity.
  - reflexivity.
Defined.
